(** * bun-vector-mcp: ingestion, sitemap crawling, database merge and the
    HTTP request handlers, embedded in Rocq.

    The TypeScript sources are translated function by function.  Calls that
    leave the process (network, browser, file system, embedding and language
    models, the clock) are operations on an abstract [World]; everything the
    sources compute themselves is an executable definition. *)

From Stdlib Require Import ZArith QArith Qround Qminmax Ascii Lia.
From stdpp Require Import base list strings gmap pretty.

Local Open Scope nat_scope.

(** ** JavaScript strings (ASCII fragment) *)

Module Js.

(** [String.prototype.includes]. *)
Definition includes (needle s : string) : bool :=
  match String.index 0 needle s with Some _ => true | None => false end.

(** [s.slice(from, to)] for [0 <= from <= to]. *)
Definition slice (from to : nat) (s : string) : string :=
  String.substring from (to - from) s.

Fixpoint trimStart (s : string) : string :=
  match s with
  | String c s' => if Ascii.is_space c then trimStart s' else s
  | EmptyString => EmptyString
  end.

Definition trimEnd (s : string) : string :=
  String.rev (trimStart (String.rev s)).

(** [String.prototype.trim]: white space is removed at both ends. *)
Definition trim (s : string) : string := trimEnd (trimStart s).

Definition lower_ascii (c : ascii) : ascii :=
  let n := Ascii.nat_of_ascii c in
  if (65 <=? n) && (n <=? 90) then Ascii.ascii_of_nat (n + 32) else c.

Fixpoint toLowerCase (s : string) : string :=
  match s with
  | String c s' => String (lower_ascii c) (toLowerCase s')
  | EmptyString => EmptyString
  end.

(** [s.split(sep)] for a one-character separator: never the empty list. *)
Fixpoint split_go (sep : ascii) (cur : string) (s : string) : list string :=
  match s with
  | EmptyString => [String.rev cur]
  | String c s' =>
      if Ascii.eqb c sep then String.rev cur :: split_go sep EmptyString s'
      else split_go sep (String c cur) s'
  end.

Definition split (sep : ascii) (s : string) : list string :=
  split_go sep EmptyString s.

(** [arr.pop()] read as a value: the last element, [undefined] on []. *)
Definition pop {A : Type} (l : list A) : option A := last l.

(** A string is truthy when it is not empty. *)
Definition truthy (s : string) : bool :=
  match s with EmptyString => false | _ => true end.

(** [a || b] on strings. *)
Definition or_else (a b : string) : string := if truthy a then a else b.

(** [s.endsWith(suffix)]. *)
Definition endsWith (suffix s : string) : bool :=
  String.prefix (String.rev suffix) (String.rev s).

(** The characters [.] does not match in a regular expression. *)
Definition is_line_terminator (c : ascii) : bool :=
  match c with
  | "010"%char | "013"%char => true
  | _ => false
  end.

Fixpoint has_line_terminator (s : string) : bool :=
  match s with
  | String c s' => is_line_terminator c || has_line_terminator s'
  | EmptyString => false
  end.

(** The texts on which a string of bytes and a string of JavaScript are
    the same thing: every character is below 128, hence one UTF-16 code unit,
    [length] counts alike, and the white space [trim] removes and the line
    terminators [.] stops at are the ASCII ones. *)
Definition is_ascii_char (c : ascii) : bool :=
  match c with Ascii _ _ _ _ _ _ _ high => negb high end.

Fixpoint is_ascii (s : string) : bool :=
  match s with
  | String c s' => is_ascii_char c && is_ascii s'
  | EmptyString => true
  end.

End Js.

(** ** Results of calls that may throw, and the state/exception monad *)

Inductive outcome (A : Type) : Type :=
| Ret (a : A)
| Throw (message : string).
Arguments Ret {A} a.
Arguments Throw {A} message.

Definition io (S A : Type) : Type := S -> outcome A * S.

Definition ret {S A : Type} (a : A) : io S A := fun s => (Ret a, s).

Definition throw {S A : Type} (message : string) : io S A :=
  fun s => (Throw message, s).

Definition bind {S A B : Type} (m : io S A) (k : A -> io S B) : io S B :=
  fun s =>
    match m s with
    | (Ret a, s') => k a s'
    | (Throw e, s') => (Throw e, s')
    end.

(** [try { m } catch (error) { h(error.message) }]: the effects of [m] up to
    the throw are kept. *)
Definition try_catch {S A : Type} (m : io S A) (h : string -> io S A) : io S A :=
  fun s =>
    match m s with
    | (Ret a, s') => (Ret a, s')
    | (Throw e, s') => h e s'
    end.

Definition get {S : Type} : io S S := fun s => (Ret s, s).
Definition modify {S : Type} (f : S -> S) : io S unit := fun s => (Ret tt, f s).

Declare Scope io_scope.
Delimit Scope io_scope with io.
Notation "'let!' x ':=' m 'in' k" := (bind m (fun x => k))
  (at level 10, x pattern, m at level 100, k at level 200) : io_scope.
Notation "m ';;;' k" := (bind m (fun _ => k))
  (at level 100, k at level 200, right associativity) : io_scope.

(** [for (const x of xs) { await body(i, x) }], with the index. *)
Fixpoint forEachFrom {St A : Type} (body : nat -> A -> io St unit) (i : nat) (xs : list A)
  : io St unit :=
  match xs with
  | [] => ret tt
  | x :: xs' => bind (body i x) (fun _ => forEachFrom body (S i) xs')
  end.

Definition forEach {St A : Type} (body : nat -> A -> io St unit) (xs : list A) : io St unit :=
  forEachFrom body 0 xs.

(** A loop that builds a list: [out.push(await f(x))] for each [x]. *)
Fixpoint mapM {S A B : Type} (f : A -> io S B) (xs : list A) : io S (list B) :=
  match xs with
  | [] => ret []
  | x :: xs' => bind (f x) (fun y => bind (mapM f xs') (fun ys => ret (y :: ys)))
  end.

(** [try { m } finally { cleanup }]. *)
Definition finally {S A : Type} (m : io S A) (cleanup : io S unit) : io S A :=
  fun s =>
    let '(r, s') := m s in
    match cleanup s' with
    | (Ret _, s'') => (r, s'')
    | (Throw e, s'') => (Throw e, s'')
    end.

(** ** utils/sitemap.ts *)

Module Sitemap.

Record SitemapUrl : Type := {
  loc : string;
  lastmod : option string;
  changefreq : option string;
  priority : option string;
}.

(** [block.match(/<tag>(.*?)<\/tag>/)]: capture group 1 of the leftmost
    match.  At an occurrence of the opening tag the lazy group stops at the
    nearest closing tag and may not cross a line terminator; when it would,
    the search resumes after that occurrence. *)
Fixpoint match_tag_go (fuel : nat) (open close : string) (from : nat) (s : string)
  : option string :=
  match fuel with
  | 0 => None
  | S fuel' =>
      match String.index from open s with
      | None => None
      | Some p =>
          let start := p + String.length open in
          match String.index start close s with
          | None => None
          | Some q =>
              let inner := Js.slice start q s in
              if Js.has_line_terminator inner
              then match_tag_go fuel' open close (S p) s
              else Some inner
          end
      end
  end.

Definition match_tag (tag : string) (s : string) : option string :=
  match_tag_go (S (String.length s)) ("<" +:+ tag +:+ ">") ("</" +:+ tag +:+ ">") 0 s.

(** The [while ((match = regex.exec(xml)) !== null)] loop over a global
    regular expression [/<tag>([\s\S]*?)<\/tag>/g]: the blocks between an
    opening tag and the nearest closing tag, left to right. *)
Fixpoint blocks_go (fuel : nat) (open close : string) (lastIndex : nat) (s : string)
  : list string :=
  match fuel with
  | 0 => []
  | S fuel' =>
      match String.index lastIndex open s with
      | None => []
      | Some p =>
          let start := p + String.length open in
          match String.index start close s with
          | None => []
          | Some q =>
              Js.slice start q s
                :: blocks_go fuel' open close (q + String.length close) s
          end
      end
  end.

Definition blocks (tag : string) (s : string) : list string :=
  blocks_go (S (String.length s)) ("<" +:+ tag +:+ ">") ("</" +:+ tag +:+ ">") 0 s.

(** [m && m[1]] followed by [m[1].trim()]: the trimmed capture when the
    capture is a non-empty string. *)
Definition captured (m : option string) : option string :=
  match m with
  | Some c => if Js.truthy c then Some (Js.trim c) else None
  | None => None
  end.

Definition parseUrlBlock (urlBlock : string) : option SitemapUrl :=
  match captured (match_tag "loc" urlBlock) with
  | Some l =>
      Some {| loc := l;
              lastmod := captured (match_tag "lastmod" urlBlock);
              changefreq := captured (match_tag "changefreq" urlBlock);
              priority := captured (match_tag "priority" urlBlock) |}
  | None => None
  end.

Definition parseSitemap (xmlContent : string) : list SitemapUrl :=
  omap parseUrlBlock (blocks "url" xmlContent).

Definition isSitemapIndex (xmlContent : string) : bool :=
  Js.includes "<sitemapindex" xmlContent || Js.includes "<sitemap>" xmlContent.

Definition parseSitemapIndex (xmlContent : string) : list string :=
  omap (fun sitemapBlock => captured (match_tag "loc" sitemapBlock))
       (blocks "sitemap" xmlContent).

(** *** Fetching and the recursive walk *)

(** What [fetch] resolves to, as far as [fetchSitemap] reads it. *)
Record Response : Type := {
  ok : bool;
  status : nat;
  statusText : string;
  content_type : option string;
  arrayBuffer : outcome (list Byte.byte);
  text : outcome string;
}.

Inductive LogEntry : Type :=
| LogFetching (url : string) (depth : nat)
| LogFoundIndex
| LogFoundUrls (count : nat)
| LogError (url : string) (message : string).

Section Walk.

Context {World : Type}.

(** The network: [fetch(url, {headers})]. *)
Variable fetch : string -> World -> outcome Response * World.
(** [Bun.gunzipSync] and [new TextDecoder().decode]. *)
Variable gunzipSync : list Byte.byte -> outcome (list Byte.byte).
Variable decode : list Byte.byte -> string.

(** The closure of [extractAllUrls]: its two local variables, the logger's
    output, the network, and the list of URLs requested from it so far. *)
Record State : Type := {
  allUrls : list SitemapUrl;
  visitedSitemaps : gset string;
  logs : list LogEntry;
  requests : list string;
  world : World;
}.

Definition log (e : LogEntry) : io State unit :=
  modify (fun st => {| allUrls := allUrls st; visitedSitemaps := visitedSitemaps st;
                       logs := logs st ++ [e]; requests := requests st;
                       world := world st |}).

Definition do_fetch (url : string) : io State Response :=
  fun st =>
    let '(r, w) := fetch url (world st) in
    (r, {| allUrls := allUrls st; visitedSitemaps := visitedSitemaps st;
           logs := logs st; requests := requests st ++ [url]; world := w |}).

Definition lift {A : Type} (o : outcome A) : io State A := fun st => (o, st).

Definition fetchSitemap (url : string) : io State string :=
  (let! response := do_fetch url in
   if negb (ok response) then
     throw ("Failed to fetch sitemap: " +:+ pretty (status response) +:+ " "
              +:+ statusText response)
   else
     let contentType := Js.or_else (default "" (content_type response)) "" in
     if Js.includes "gzip" contentType || Js.endsWith ".gz" url then
       let! buffer := lift (arrayBuffer response) in
       let! decompressed := lift (gunzipSync buffer) in
       ret (decode decompressed)
     else lift (text response))%io.

Definition visit (url : string) : io State unit :=
  modify (fun st => {| allUrls := allUrls st;
                       visitedSitemaps := visitedSitemaps st ∪ {[url]};
                       logs := logs st; requests := requests st;
                       world := world st |}).

Definition push_urls (urls : list SitemapUrl) : io State unit :=
  modify (fun st => {| allUrls := allUrls st ++ urls;
                       visitedSitemaps := visitedSitemaps st;
                       logs := logs st; requests := requests st;
                       world := world st |}).

(** A run that may exhaust its fuel: [None] stands for "still running". *)
Definition run (A : Type) : Type := State -> option (outcome A * State).

Definition done_ {A : Type} (m : io State A) : run A := fun st => Some (m st).

Definition andThen {A B : Type} (m : run A) (k : A -> run B) : run B :=
  fun st =>
    match m st with
    | None => None
    | Some (Ret a, st') => k a st'
    | Some (Throw e, st') => Some (Throw e, st')
    end.

Definition tryCatch {A : Type} (m : run A) (h : string -> run A) : run A :=
  fun st =>
    match m st with
    | None => None
    | Some (Ret a, st') => Some (Ret a, st')
    | Some (Throw e, st') => h e st'
    end.

(** [for (const x of xs) { await body(x) }]. *)
Fixpoint forOf {A : Type} (body : A -> run unit) (xs : list A) : run unit :=
  match xs with
  | [] => done_ (ret tt)
  | x :: xs' => andThen (body x) (fun _ => forOf body xs')
  end.

Variable maxDepth : nat.

Fixpoint extractRecursive (fuel : nat) (url : string) (depth : nat) : run unit :=
  match fuel with
  | 0 => fun _ => None
  | S fuel' =>
      fun st =>
        if (maxDepth <? depth) || bool_decide (url ∈ visitedSitemaps st)
        then Some (Ret tt, st)
        else
          andThen (done_ (visit url)) (fun _ =>
          tryCatch
            (andThen (done_ (log (LogFetching url depth))) (fun _ =>
             andThen (done_ (fetchSitemap url)) (fun xmlContent =>
             if isSitemapIndex xmlContent then
               andThen (done_ (log LogFoundIndex)) (fun _ =>
               forOf (fun nestedUrl => extractRecursive fuel' nestedUrl (depth + 1))
                     (parseSitemapIndex xmlContent))
             else
               let urls := parseSitemap xmlContent in
               andThen (done_ (log (LogFoundUrls (length urls)))) (fun _ =>
               done_ (push_urls urls)))))
            (fun message => done_ (log (LogError url message)))) st
  end.

Definition initial (w : World) : State :=
  {| allUrls := []; visitedSitemaps := ∅; logs := []; requests := []; world := w |}.

(** [extractAllUrls(sitemapUrl, maxDepth)]: the URLs returned, with the final
    state of the closure. *)
Definition extractAllUrls (fuel : nat) (sitemapUrl : string) (w : World)
  : option (outcome (list SitemapUrl) * State) :=
  andThen (extractRecursive fuel sitemapUrl 0)
          (fun _ => done_ (let! st := get in ret (allUrls st))%io)
          (initial w).

(** The [(url, depth)] pairs of the "Fetching sitemap" log lines. *)
Definition fetchings (st : State) : list (string * nat) :=
  omap (fun e => match e with LogFetching u d => Some (u, d) | _ => None end) (logs st).

(** **** Termination of the walk *)

(** More fuel never changes a result already obtained. *)
Definition run_le {A : Type} (m1 m2 : run A) : Prop :=
  forall st r, m1 st = Some r -> m2 st = Some r.

Lemma run_le_andThen {A B : Type} (m1 m2 : run A) (k1 k2 : A -> run B) :
  run_le m1 m2 -> (forall a, run_le (k1 a) (k2 a)) ->
  run_le (andThen m1 k1) (andThen m2 k2).
Proof.
  intros Hm Hk st r. unfold andThen.
  destruct (m1 st) as [[[a|e] st1]|] eqn:E; [| |discriminate];
    rewrite (Hm _ _ E); [apply Hk | trivial].
Qed.

Lemma run_le_tryCatch {A : Type} (m1 m2 : run A) (h : string -> run A) :
  run_le m1 m2 -> run_le (tryCatch m1 h) (tryCatch m2 h).
Proof.
  intros Hm st r. unfold tryCatch.
  destruct (m1 st) as [[[a|e] st1]|] eqn:E; [| |discriminate];
    rewrite (Hm _ _ E); trivial.
Qed.

Lemma run_le_refl {A : Type} (m : run A) : run_le m m.
Proof. intros st r H. exact H. Qed.

Lemma run_le_forOf {A : Type} (b1 b2 : A -> run unit) (xs : list A) :
  (forall x, run_le (b1 x) (b2 x)) -> run_le (forOf b1 xs) (forOf b2 xs).
Proof.
  intros Hb. induction xs as [|x xs IH]; simpl.
  - apply run_le_refl.
  - apply run_le_andThen; [apply Hb | intros _; exact IH].
Qed.

Lemma extractRecursive_more_fuel (fuel fuel' : nat) (url : string) (depth : nat) :
  fuel <= fuel' ->
  run_le (extractRecursive fuel url depth) (extractRecursive fuel' url depth).
Proof.
  revert fuel' url depth.
  induction fuel as [|fuel IH]; intros fuel' url depth Hle st r H.
  - discriminate H.
  - destruct fuel' as [|fuel']; [lia|].
    simpl in H |- *.
    destruct ((maxDepth <? depth) || bool_decide (url ∈ visitedSitemaps st));
      [exact H|].
    revert st r H.
    apply run_le_andThen; [apply run_le_refl|]. intros _.
    apply run_le_tryCatch.
    apply run_le_andThen; [apply run_le_refl|]. intros _.
    apply run_le_andThen; [apply run_le_refl|]. intros xml.
    destruct (isSitemapIndex xml); [|apply run_le_refl].
    apply run_le_andThen; [apply run_le_refl|]. intros _.
    apply run_le_forOf. intros x. apply IH. lia.
Qed.

(** The state invariant of the walk: every request was announced by a
    "Fetching sitemap" line at a depth within the bound, no URL was requested
    twice, and every requested URL is in the visited set. *)
Record well_fetched (st : State) : Prop := {
  wf_nodup : NoDup (requests st);
  wf_visited : forall u, u ∈ requests st -> u ∈ visitedSitemaps st;
  wf_logged : (fetchings st).*1 = requests st;
  wf_depth : Forall (fun p => p.2 <= maxDepth) (fetchings st);
}.

Lemma fetchSitemap_state (url : string) (st : State) :
  exists r w,
    fetchSitemap url st =
      (r, {| allUrls := allUrls st; visitedSitemaps := visitedSitemaps st;
             logs := logs st; requests := requests st ++ [url]; world := w |}).
Proof.
  unfold fetchSitemap, bind, do_fetch, throw, lift, ret.
  destruct (fetch url (world st)) as [[response|e] w]; [|eauto].
  destruct (negb (ok response)); [eauto|].
  destruct (_ || _); [|eauto].
  destruct (arrayBuffer response); [|eauto].
  destruct (gunzipSync a); eauto.
Qed.

Lemma fetchings_app (st : State) (e : LogEntry) (l : list LogEntry) :
  logs st = l ++ [e] ->
  fetchings st =
    omap (fun e => match e with LogFetching u d => Some (u, d) | _ => None end) l
      ++ match e with LogFetching u d => [(u, d)] | _ => [] end.
Proof.
  intros E. unfold fetchings. rewrite E, omap_app. simpl.
  destruct e; reflexivity.
Qed.

Lemma forOf_terminates {A : Type} (body : A -> run unit) (P : State -> Prop)
    (R : State -> State -> Prop) (xs : list A) :
  (forall st, R st st) ->
  (forall a b c, R a b -> R b c -> R a c) ->
  (forall x st, P st -> exists st', body x st = Some (Ret tt, st') /\ P st' /\ R st st') ->
  forall st, P st -> exists st', forOf body xs st = Some (Ret tt, st') /\ P st' /\ R st st'.
Proof.
  intros Hrefl Htrans Hbody.
  induction xs as [|x xs IH]; intros st HP; simpl.
  - exists st. auto.
  - unfold andThen. destruct (Hbody x st HP) as (st1 & -> & HP1 & HR1).
    destruct (IH st1 HP1) as (st2 & -> & HP2 & HR2). eauto.
Qed.

Lemma well_fetched_same (st st' : State) :
  requests st' = requests st ->
  visitedSitemaps st ⊆ visitedSitemaps st' ->
  fetchings st' = fetchings st ->
  well_fetched st -> well_fetched st'.
Proof.
  intros Hr Hv Hf [H1 H2 H3 H4].
  split; rewrite ?Hr, ?Hf; auto.
Qed.

Lemma well_fetched_request (st : State) (url : string) (depth : nat) (w : World) :
  depth <= maxDepth ->
  url ∉ visitedSitemaps st ->
  well_fetched st ->
  well_fetched {| allUrls := allUrls st;
                  visitedSitemaps := visitedSitemaps st ∪ {[url]};
                  logs := logs st ++ [LogFetching url depth];
                  requests := requests st ++ [url];
                  world := w |}.
Proof.
  intros Hd Hnew [H1 H2 H3 H4].
  split; unfold fetchings in *; simpl; rewrite ?omap_app; simpl.
  - apply NoDup_app. split; [exact H1|]. split; [|apply NoDup_singleton].
    intros u Hu Hu'. apply list_elem_of_singleton in Hu'. subst u.
    apply Hnew, H2, Hu.
  - intros u Hu. apply elem_of_app in Hu as [Hu|Hu].
    + apply elem_of_union_l, H2, Hu.
    + apply list_elem_of_singleton in Hu. subst u. set_solver.
  - rewrite fmap_app, H3. reflexivity.
  - apply Forall_app. split; [exact H4|]. repeat constructor. exact Hd.
Qed.

Lemma extractRecursive_terminates (fuel : nat) (url : string) (depth : nat) (st : State) :
  maxDepth + 1 - depth < fuel ->
  well_fetched st ->
  exists st',
    extractRecursive fuel url depth st = Some (Ret tt, st')
    /\ well_fetched st'
    /\ visitedSitemaps st ⊆ visitedSitemaps st'.
Proof.
  revert url depth st.
  induction fuel as [|fuel IH]; intros url depth st Hfuel Hwf; [lia|].
  simpl.
  destruct (maxDepth <? depth) eqn:Hdepth; simpl.
  { exists st. auto. }
  apply Nat.ltb_ge in Hdepth.
  case_bool_decide as Hvisited.
  { exists st. auto. }
  unfold andThen at 1. unfold done_ at 1. unfold visit, modify. simpl.
  unfold tryCatch, andThen at 1. unfold done_ at 1. unfold log at 1, modify. simpl.
  unfold andThen at 1. unfold done_ at 1.
  match goal with |- context [fetchSitemap url ?s] =>
    destruct (fetchSitemap_state url s) as (r & w & ->) end.
  simpl.
  pose proof (well_fetched_request st url depth w Hdepth Hvisited Hwf) as Hwf1.
  set (st1 := {| allUrls := allUrls st; visitedSitemaps := _; logs := _;
                 requests := _; world := w |}) in *.
  assert (Hsub1 : visitedSitemaps st ⊆ visitedSitemaps st1) by (simpl; set_solver).
  destruct r as [xmlContent|message].
  - destruct (isSitemapIndex xmlContent).
    + unfold andThen at 1. unfold done_ at 1. unfold log at 1, modify. simpl.
      match goal with |- context [forOf ?body ?xs ?s] =>
        destruct (forOf_terminates body well_fetched
                    (fun s1 s2 => visitedSitemaps s1 ⊆ visitedSitemaps s2) xs) with (st := s)
          as (st2 & -> & Hwf2 & Hsub2)
      end.
      * intros; reflexivity.
      * intros a b c Hab Hbc. etrans; eassumption.
      * intros x s Hs. apply IH; [lia|exact Hs].
      * apply (well_fetched_same st1); auto.
        unfold fetchings. simpl. rewrite omap_app. simpl. apply app_nil_r.
      * exists st2. split; [reflexivity|]. split; [exact Hwf2|].
        etrans; [exact Hsub1|exact Hsub2].
    + unfold andThen, done_, log, push_urls, modify. simpl.
      eexists. split; [reflexivity|]. split.
      * apply (well_fetched_same st1); auto.
        unfold fetchings. simpl. rewrite omap_app. simpl. apply app_nil_r.
      * exact Hsub1.
  - unfold done_, log, modify. simpl.
    eexists. split; [reflexivity|]. split.
    + apply (well_fetched_same st1); auto.
      unfold fetchings. simpl. rewrite omap_app. simpl. apply app_nil_r.
    + exact Hsub1.
Qed.

Lemma well_fetched_initial (w : World) : well_fetched (initial w).
Proof.
  split; simpl.
  - apply NoDup_nil_2.
  - intros u Hu. inversion Hu.
  - reflexivity.
  - constructor.
Qed.

End Walk.

(** [maxDepth: number = 3]. *)
Definition DEFAULT_MAX_DEPTH : nat := 3.

(** A site whose two sitemap indexes list each other, and one page list. *)
Definition cyclic_site (url : string) (w : unit) : outcome Response * unit :=
  let page (body : string) :=
    (Ret {| ok := true; status := 200; statusText := "OK";
            content_type := Some "application/xml";
            arrayBuffer := Ret []; text := Ret body |}, w) in
  if String.eqb url "https://s.example/a.xml" then
    page "<sitemapindex><sitemap><loc>https://s.example/b.xml</loc></sitemap><sitemap><loc>https://s.example/pages.xml</loc></sitemap></sitemapindex>"
  else if String.eqb url "https://s.example/b.xml" then
    page "<sitemapindex><sitemap><loc>https://s.example/a.xml</loc></sitemap><sitemap><loc>https://s.example/b.xml</loc></sitemap></sitemapindex>"
  else if String.eqb url "https://s.example/pages.xml" then
    page "<urlset><url><loc>https://s.example/one</loc></url><url><loc>https://s.example/two</loc><priority>0.5</priority></url></urlset>"
  else
    (Ret {| ok := false; status := 404; statusText := "Not Found";
            content_type := None; arrayBuffer := Ret []; text := Ret "" |}, w).

(** An endless chain of indexes: the index at [u] lists [u ++ "x"]. *)
Definition endless_site (url : string) (w : unit) : outcome Response * unit :=
  (Ret {| ok := true; status := 200; statusText := "OK";
          content_type := None; arrayBuffer := Ret [];
          text := Ret ("<sitemap><loc>" +:+ url +:+ "x</loc></sitemap>") |}, w).

Definition no_gunzip (b : list Byte.byte) : outcome (list Byte.byte) :=
  Throw "not gzip".
Definition no_decode (b : list Byte.byte) : string := "".

Example cyclic_site_walk :
  match extractAllUrls cyclic_site no_gunzip no_decode DEFAULT_MAX_DEPTH 5
          "https://s.example/a.xml" tt with
  | Some (Ret urls, st) =>
      loc <$> urls = ["https://s.example/one"; "https://s.example/two"]
      /\ requests st = ["https://s.example/a.xml"; "https://s.example/b.xml";
                         "https://s.example/pages.xml"]
  | _ => False
  end.
Proof. vm_compute. split; reflexivity. Qed.

Example endless_site_walk :
  match extractAllUrls endless_site no_gunzip no_decode DEFAULT_MAX_DEPTH 5 "u" tt with
  | Some (Ret urls, st) =>
      urls = [] /\ fetchings st = [("u", 0); ("ux", 1); ("uxx", 2); ("uxxx", 3)]
  | _ => False
  end.
Proof. vm_compute. split; reflexivity. Qed.

Example failed_fetch_is_logged :
  match extractAllUrls cyclic_site no_gunzip no_decode DEFAULT_MAX_DEPTH 5
          "https://s.example/missing.xml" tt with
  | Some (Ret urls, st) =>
      urls = []
      /\ logs st = [LogFetching "https://s.example/missing.xml" 0;
                     LogError "https://s.example/missing.xml"
                       "Failed to fetch sitemap: 404 Not Found"]
  | _ => False
  end.
Proof. vm_compute. split; reflexivity. Qed.

(** C10. For every start URL, every network and every depth bound,
    [extractAllUrls] terminates: with fuel [maxDepth + 2] or more the walk
    returns, and always the same result.  In the final state no URL was
    requested from the network twice, every request was announced at a
    recursion depth of at most [maxDepth], and the number of requests is at
    most the size of the visited set.  Nothing is assumed of the network, so
    sitemaps that list each other in a cycle are covered. *)
Theorem extractAllUrls_terminates {World : Type}
    (fetch : string -> World -> outcome Response * World)
    (gunzipSync : list Byte.byte -> outcome (list Byte.byte))
    (decode : list Byte.byte -> string)
    (maxDepth : nat) (sitemapUrl : string) (w : World) :
  exists urls st,
    (forall fuel, maxDepth + 2 <= fuel ->
       extractAllUrls fetch gunzipSync decode maxDepth fuel sitemapUrl w
         = Some (Ret urls, st))
    /\ urls = allUrls st
    /\ NoDup (requests st)
    /\ (fetchings st).*1 = requests st
    /\ Forall (fun p => p.2 <= maxDepth) (fetchings st)
    /\ length (requests st) <= size (visitedSitemaps st).
Proof.
  destruct (extractRecursive_terminates fetch gunzipSync decode maxDepth
              (maxDepth + 2) sitemapUrl 0 (initial w))
    as (st & Hrun & [Hnodup Hvis Hlog Hdepth] & _);
    [lia | apply well_fetched_initial |].
  exists (allUrls st), st. repeat split; auto.
  - intros fuel Hfuel. unfold extractAllUrls, andThen.
    rewrite (extractRecursive_more_fuel fetch gunzipSync decode maxDepth
               (maxDepth + 2) fuel sitemapUrl 0 Hfuel _ _ Hrun).
    reflexivity.
  - rewrite <- (size_list_to_set (C := gset string) (requests st)) by exact Hnodup.
    apply subseteq_size. intros u Hu. apply elem_of_list_to_set in Hu. auto.
Qed.

(** *** Reading a well-formed document back *)

(** **** Searching in a concatenation *)

Lemma append_step (c : ascii) (s t : string) : String c s +:+ t = String c (s +:+ t).
Proof. reflexivity. Qed.

Lemma append_empty_l (t : string) : "" +:+ t = t.
Proof. reflexivity. Qed.

Lemma append_empty_r (s : string) : s +:+ "" = s.
Proof. induction s as [|c s IH]; [reflexivity|]. rewrite append_step, IH. reflexivity. Qed.

Lemma append_assoc (s t u : string) : (s +:+ t) +:+ u = s +:+ (t +:+ u).
Proof.
  induction s as [|c s IH]; [reflexivity|]. rewrite !append_step, IH. reflexivity.
Qed.

Lemma length_append (s t : string) :
  String.length (s +:+ t) = String.length s + String.length t.
Proof. induction s as [|c s IH]; [reflexivity|]. rewrite append_step. simpl. lia. Qed.





Lemma substring_take (b s : string) :
  String.substring 0 (String.length b) (b +:+ s) = b.
Proof.
  induction b as [|c b IH].
  - rewrite append_empty_l. destruct s; reflexivity.
  - rewrite append_step. simpl. rewrite IH. reflexivity.
Qed.










Lemma prefix_append (p s : string) : String.prefix p (p +:+ s) = true.
Proof.
  induction p as [|c p IH]; [rewrite append_empty_l; destruct s; reflexivity|].
  rewrite append_step. cbn [String.prefix].
  destruct (ascii_dec c c); [exact IH|congruence].
Qed.




(** **** Blocks and captures *)






(** **** Well-formed documents *)

































(** **** Walking a site of well-formed documents *)

Section Sites.

Context {World : Type}.
Variable fetch : string -> World -> outcome Response * World.
Variable gunzipSync : list Byte.byte -> outcome (list Byte.byte).
Variable decode : list Byte.byte -> string.
Variable maxDepth : nat.








End Sites.











End Sitemap.

(** ** scripts/merge-db.ts *)

Module Merge.

Record DocumentRow : Type := {
  id : Z;
  filename : string;
  content : string;
  chunk_text : string;
  embedding : list Byte.byte;
  chunk_index : Z;
  chunk_size : Z;
  hypothetical_questions : option string;
  question_embeddings : option (list Byte.byte);
  chunk_metadata : option string;
  created_at : Z;
}.

(** The target database: the [documents] table, whose [id] column is
    [INTEGER PRIMARY KEY AUTOINCREMENT], and the [vec_embeddings] table. *)
Record Database : Type := {
  documents : list DocumentRow;
  vec_embeddings : list (Z * list Byte.byte);
  lastInsertRowid : Z;
}.

(** [createTargetDatabase(path)] on a path that does not exist yet. *)
Definition createTargetDatabase : Database :=
  {| documents := []; vec_embeddings := []; lastInsertRowid := 0 |}.

Inductive LogEntry : Type :=
| LogProcessing (sourcePath : string)
| LogFound (count : nat)
| LogInserted (count : nat)
| LogSkipped (count : nat)
| LogInsertError (docId : Z) (message : string)
| LogSourceError (sourcePath : string) (message : string).

(** The key of the deduplication set: [`${doc.filename}:${doc.chunk_index}`]. *)
Definition key (doc : DocumentRow) : string :=
  filename doc +:+ ":" +:+ pretty (chunk_index doc).

Section Script.

(** Statement failures of the storage engine: the message thrown by
    [stmt.run] on the [documents] table and by [vecStmt.run] on
    [vec_embeddings], if any. *)
Variable documents_error : Database -> DocumentRow -> option string.
Variable vec_error : Database -> Z -> list Byte.byte -> option string.

(** [openDatabase(sourcePath)] then [getDocuments(sourceDb)], and
    [sourceDb.close()]. *)
Variable readSource : string -> outcome (list DocumentRow).
Variable closeSource : string -> outcome unit.

Definition insertDocument (doc : DocumentRow) : io Database Z :=
  fun db =>
    match documents_error db doc with
    | Some message => (Throw message, db)
    | None =>
        let documentId := (lastInsertRowid db + 1)%Z in
        let stored :=
          {| id := documentId; filename := filename doc; content := content doc;
             chunk_text := chunk_text doc; embedding := embedding doc;
             chunk_index := chunk_index doc; chunk_size := chunk_size doc;
             hypothetical_questions := hypothetical_questions doc;
             question_embeddings := question_embeddings doc;
             chunk_metadata := chunk_metadata doc; created_at := created_at doc |} in
        let db1 := {| documents := documents db ++ [stored];
                      vec_embeddings := vec_embeddings db;
                      lastInsertRowid := documentId |} in
        let embeddingBlob := embedding doc in
        match vec_error db1 documentId embeddingBlob with
        | Some message => (Throw message, db1)
        | None =>
            (Ret documentId,
             {| documents := documents db1;
                vec_embeddings := vec_embeddings db1 ++ [(documentId, embeddingBlob)];
                lastInsertRowid := documentId |})
        end
    end.

(** The variables of [main] that the merge loop reads and writes. *)
Record State : Type := {
  targetDb : Database;
  duplicates : gset string;
  totalDocuments : nat;
  documentsBySource : list nat;
  logs : list LogEntry;
}.

Definition log (e : LogEntry) (st : State) : State :=
  {| targetDb := targetDb st; duplicates := duplicates st;
     totalDocuments := totalDocuments st;
     documentsBySource := documentsBySource st; logs := logs st ++ [e] |}.

(** The body of [for (const doc of documents)], on the loop counters
    [(inserted, skipped)]. *)
Definition mergeDocument (doc : DocumentRow) (acc : State * (nat * nat))
  : State * (nat * nat) :=
  let '(st, (inserted, skipped)) := acc in
  if bool_decide (key doc ∈ duplicates st) then (st, (inserted, skipped + 1))
  else
    match insertDocument doc (targetDb st) with
    | (Ret _, db) =>
        ({| targetDb := db; duplicates := duplicates st ∪ {[key doc]};
            totalDocuments := totalDocuments st;
            documentsBySource := documentsBySource st; logs := logs st |},
         (inserted + 1, skipped))
    | (Throw message, db) =>
        (log (LogInsertError (id doc) message)
           {| targetDb := db; duplicates := duplicates st;
              totalDocuments := totalDocuments st;
              documentsBySource := documentsBySource st; logs := logs st |},
         (inserted, skipped))
    end.

Definition mergeDocuments (docs : list DocumentRow) (st : State) : State * (nat * nat) :=
  foldl (fun acc doc => mergeDocument doc acc) (st, (0, 0)) docs.

(** The body of [for (let i = 0; i < sourcePaths.length; i++)]. *)
Definition mergeSource (st : State) (sourcePath : string) : State :=
  let st := log (LogProcessing sourcePath) st in
  match readSource sourcePath with
  | Throw message => log (LogSourceError sourcePath message) st
  | Ret docs =>
      let st := log (LogFound (length docs)) st in
      let '(st, (inserted, skipped)) := mergeDocuments docs st in
      let st := log (LogInserted inserted) st in
      let st := if 0 <? skipped then log (LogSkipped skipped) st else st in
      let st := {| targetDb := targetDb st; duplicates := duplicates st;
                   totalDocuments := totalDocuments st + inserted;
                   documentsBySource := documentsBySource st ++ [inserted];
                   logs := logs st |} in
      match closeSource sourcePath with
      | Throw message => log (LogSourceError sourcePath message) st
      | Ret _ => st
      end
  end.

Definition initial : State :=
  {| targetDb := createTargetDatabase; duplicates := ∅; totalDocuments := 0;
     documentsBySource := []; logs := [] |}.

(** The merge loop of [main] over [sourcePaths], from a fresh target. *)
Definition mergeAll (sourcePaths : list string) : State :=
  foldl mergeSource initial sourcePaths.

(** [main] up to the end of the merge loop; [None] is [process.exit(1)]. *)
Definition main (args : list string) (targetExists : string -> bool) : option State :=
  if length args <? 3 then None
  else
    let sourcePaths := take (length args - 1) args in
    match last args with
    | None => None
    | Some targetPath =>
        if targetExists targetPath then None else Some (mergeAll sourcePaths)
    end.

End Script.

(** *** The deduplication key *)

(** The pair the string key is built from. *)
Definition dedup_key (doc : DocumentRow) : string * Z := (filename doc, chunk_index doc).

Fixpoint has_colon (s : string) : bool :=
  match s with
  | String c s' => Ascii.eqb c ":" || has_colon s'
  | EmptyString => false
  end.

Lemma pretty_N_go_no_colon (x : N) (s : string) :
  has_colon s = false -> has_colon (pretty_N_go x s) = false.
Proof.
  revert s. induction (N.lt_wf_0 x) as [x _ IH]; intros s Hs.
  destruct (decide (x = 0)%N) as [->|Hx].
  - rewrite pretty_N_go_0. exact Hs.
  - rewrite pretty_N_go_step by lia. apply IH.
    + apply N.div_lt; lia.
    + simpl. rewrite Hs. unfold pretty_N_char.
      repeat case_match; reflexivity.
Qed.

Lemma pretty_Z_no_colon (z : Z) : has_colon (pretty z) = false.
Proof.
  assert (HN : forall n : N, has_colon (pretty n) = false).
  { intros n. unfold pretty, pretty_N. case_decide; [reflexivity|].
    apply pretty_N_go_no_colon. reflexivity. }
  destruct z as [|p|p]; unfold pretty, pretty_Z; [reflexivity|apply HN|].
  change ("-" +:+ pretty p) with (String "-" (pretty (Npos p))).
  simpl. apply HN.
Qed.

Lemma append_cons (c : ascii) (s t : string) : String c s +:+ t = String c (s +:+ t).
Proof. reflexivity. Qed.

Lemma append_nil (t : string) : "" +:+ t = t.
Proof. reflexivity. Qed.

Lemma has_colon_append (f d : string) : has_colon (f +:+ String ":" d) = true.
Proof.
  induction f as [|a f IH].
  - reflexivity.
  - rewrite append_cons. simpl. rewrite IH. apply orb_true_r.
Qed.

Lemma colon_split_inj (f1 f2 d1 d2 : string) :
  has_colon d1 = false -> has_colon d2 = false ->
  f1 +:+ String ":" d1 = f2 +:+ String ":" d2 -> f1 = f2 /\ d1 = d2.
Proof.
  intros H1 H2. revert f2.
  induction f1 as [|c f1 IH]; intros [|c' f2] E;
    rewrite ?append_cons, ?append_nil in E.
  - injection E as E. auto.
  - injection E as Ec E. subst d1. rewrite has_colon_append in H1. discriminate.
  - injection E as Ec E. subst d2. rewrite has_colon_append in H2. discriminate.
  - injection E as Ec E. subst c'. destruct (IH f2 E) as [-> ->]. auto.
Qed.

(** Two rows have the same string key exactly when they agree on
    [(filename, chunk_index)]: no file name can imitate the separator,
    because the decimal numeral after the last colon has none. *)
Lemma key_eq_iff (doc1 doc2 : DocumentRow) :
  key doc1 = key doc2 <-> dedup_key doc1 = dedup_key doc2.
Proof.
  unfold key, dedup_key. split.
  - intros E. change (":" +:+ ?d) with (String ":" d) in E.
    apply colon_split_inj in E as [Hf Hi]; auto using pretty_Z_no_colon.
    apply (inj pretty) in Hi. congruence.
  - intros [= -> ->]. reflexivity.
Qed.

(** *** First write wins *)

(** The rows of [docs] that are first encountered: the row at position [j]
    stays when its [(filename, chunk_index)] is neither among the keys
    [before] nor among the keys of the rows of [docs] before position [j]. *)
Definition first_encountered (before : list (string * Z)) (docs : list DocumentRow)
  : list DocumentRow :=
  omap (fun kept => kept)
    (imap (fun j doc =>
             if decide (dedup_key doc ∈ before ++ (dedup_key <$> take j docs))
             then None else Some doc)
          docs).

(** The rows of [docs] that collide with an earlier row. *)
Definition colliding (before : list (string * Z)) (docs : list DocumentRow) : nat :=
  length docs - length (first_encountered before docs).

Definition with_id (i : Z) (doc : DocumentRow) : DocumentRow :=
  {| id := i; filename := filename doc; content := content doc;
     chunk_text := chunk_text doc; embedding := embedding doc;
     chunk_index := chunk_index doc; chunk_size := chunk_size doc;
     hypothetical_questions := hypothetical_questions doc;
     question_embeddings := question_embeddings doc;
     chunk_metadata := chunk_metadata doc; created_at := created_at doc |}.

(** What the script prints for one source. *)
Definition source_report (before : list (string * Z)) (sourcePath : string)
    (docs : list DocumentRow) : list LogEntry :=
  [LogProcessing sourcePath; LogFound (length docs);
   LogInserted (length (first_encountered before docs))]
  ++ (if 0 <? colliding before docs then [LogSkipped (colliding before docs)] else []).

Fixpoint reports (before : list (string * Z)) (sources : list (string * list DocumentRow))
  : list LogEntry :=
  match sources with
  | [] => []
  | (sourcePath, docs) :: rest =>
      source_report before sourcePath docs
        ++ reports (before ++ (dedup_key <$> docs)) rest
  end.

Fixpoint inserted_counts (before : list (string * Z))
    (sources : list (string * list DocumentRow)) : list nat :=
  match sources with
  | [] => []
  | (_, docs) :: rest =>
      length (first_encountered before docs)
        :: inserted_counts (before ++ (dedup_key <$> docs)) rest
  end.

Lemma first_encountered_nil (before : list (string * Z)) :
  first_encountered before [] = [].
Proof. reflexivity. Qed.

Lemma first_encountered_cons (before : list (string * Z)) (doc : DocumentRow)
    (docs : list DocumentRow) :
  first_encountered before (doc :: docs) =
    if decide (dedup_key doc ∈ before)
    then first_encountered (before ++ [dedup_key doc]) docs
    else doc :: first_encountered (before ++ [dedup_key doc]) docs.
Proof.
  unfold first_encountered. rewrite imap_cons. simpl.
  rewrite app_nil_r.
  assert (E : imap ((fun j d => if decide (dedup_key d ∈ before ++ (dedup_key <$> take j (doc :: docs)))
                                then None else Some d) ∘ S) docs
            = imap (fun j d => if decide (dedup_key d ∈ (before ++ [dedup_key doc]) ++ (dedup_key <$> take j docs))
                               then None else Some d) docs).
  { apply imap_ext. intros j d _. simpl. rewrite <- app_assoc. reflexivity. }
  rewrite E. destruct (decide (dedup_key doc ∈ before)); reflexivity.
Qed.

Lemma first_encountered_length (before : list (string * Z)) (docs : list DocumentRow) :
  length (first_encountered before docs) <= length docs.
Proof.
  revert before. induction docs as [|doc docs IH]; intros before.
  - reflexivity.
  - rewrite first_encountered_cons. specialize (IH (before ++ [dedup_key doc])).
    case_decide; simpl; lia.
Qed.

Lemma colliding_cons (before : list (string * Z)) (doc : DocumentRow)
    (docs : list DocumentRow) :
  colliding before (doc :: docs) =
    if decide (dedup_key doc ∈ before)
    then S (colliding (before ++ [dedup_key doc]) docs)
    else colliding (before ++ [dedup_key doc]) docs.
Proof.
  unfold colliding. rewrite first_encountered_cons.
  pose proof (first_encountered_length (before ++ [dedup_key doc]) docs).
  case_decide; simpl length; lia.
Qed.

(** The keys of the rows kept are pairwise different, and none is in [before]. *)
Lemma first_encountered_NoDup (before : list (string * Z)) (docs : list DocumentRow) :
  NoDup (dedup_key <$> first_encountered before docs)
  /\ (forall k, k ∈ dedup_key <$> first_encountered before docs -> k ∉ before).
Proof.
  revert before. induction docs as [|doc docs IH]; intros before.
  - split; [constructor|]. intros k Hk. inversion Hk.
  - rewrite first_encountered_cons.
    destruct (IH (before ++ [dedup_key doc])) as [Hnd Hout].
    assert (Hout' : forall k, k ∈ dedup_key <$> first_encountered (before ++ [dedup_key doc]) docs ->
                              (k ∉ before) /\ k <> dedup_key doc).
    { intros k Hk. specialize (Hout k Hk). rewrite elem_of_app, list_elem_of_singleton in Hout.
      tauto. }
    case_decide as Hin.
    + split; [exact Hnd|]. intros k Hk. apply Hout', Hk.
    + split.
      * rewrite fmap_cons. constructor; [|exact Hnd].
        intros Hk. apply Hout' in Hk. tauto.
      * intros k Hk. rewrite fmap_cons in Hk. apply elem_of_cons in Hk as [->|Hk];
          [exact Hin | apply Hout', Hk].
Qed.

Section Correct.

Variable documents_error : Database -> DocumentRow -> option string.
Variable vec_error : Database -> Z -> list Byte.byte -> option string.
Variable readSource : string -> outcome (list DocumentRow).
Variable closeSource : string -> outcome unit.

Hypothesis documents_ok : forall db doc, documents_error db doc = None.
Hypothesis vec_ok : forall db i blob, vec_error db i blob = None.

(** The deduplication set holds the string keys of exactly the pairs in
    [before]. *)
Definition tracks (st : State) (before : list (string * Z)) : Prop :=
  forall doc, key doc ∈ duplicates st <-> dedup_key doc ∈ before.

Lemma tracks_add (st : State) (before : list (string * Z)) (doc : DocumentRow)
    (db : Database) :
  tracks st before ->
  tracks {| targetDb := db; duplicates := duplicates st ∪ {[key doc]};
            totalDocuments := totalDocuments st;
            documentsBySource := documentsBySource st; logs := logs st |}
         (before ++ [dedup_key doc]).
Proof.
  intros H d. simpl.
  rewrite elem_of_union, elem_of_singleton, elem_of_app, list_elem_of_singleton.
  rewrite key_eq_iff, (H d). reflexivity.
Qed.

Lemma tracks_again (st : State) (before : list (string * Z)) (doc : DocumentRow) :
  tracks st before -> key doc ∈ duplicates st -> tracks st (before ++ [dedup_key doc]).
Proof.
  intros H Hdoc d.
  rewrite elem_of_app, list_elem_of_singleton, (H d).
  split; [tauto|]. intros [Hd| ->]; [exact Hd|]. apply H, Hdoc.
Qed.

Lemma insertDocument_ok (doc : DocumentRow) (db : Database) :
  exists db',
    insertDocument documents_error vec_error doc db = (Ret (lastInsertRowid db + 1)%Z, db')
    /\ documents db' = documents db ++ [with_id (lastInsertRowid db + 1) doc]
    /\ lastInsertRowid db' = (lastInsertRowid db + 1)%Z.
Proof.
  unfold insertDocument. rewrite documents_ok, vec_ok.
  eexists. split; [reflexivity|]. split; reflexivity.
Qed.

Lemma mergeDocuments_spec (docs : list DocumentRow) :
  forall (st : State) (inserted skipped : nat) (before : list (string * Z)),
    tracks st before ->
    exists st',
      foldl (fun acc doc => mergeDocument documents_error vec_error doc acc)
            (st, (inserted, skipped)) docs
        = (st', (inserted + length (first_encountered before docs),
                 skipped + colliding before docs))
      /\ tracks st' (before ++ (dedup_key <$> docs))
      /\ with_id 0 <$> documents (targetDb st')
           = (with_id 0 <$> documents (targetDb st))
               ++ (with_id 0 <$> first_encountered before docs)
      /\ totalDocuments st' = totalDocuments st
      /\ documentsBySource st' = documentsBySource st
      /\ logs st' = logs st.
Proof.
  induction docs as [|doc docs IH]; intros st inserted skipped before Htr.
  - exists st. unfold colliding. simpl. rewrite !Nat.add_0_r, !app_nil_r.
    split_and!; auto.
  - rewrite first_encountered_cons, colliding_cons.
    assert (Hassoc : before ++ (dedup_key <$> doc :: docs)
                     = (before ++ [dedup_key doc]) ++ (dedup_key <$> docs))
      by (rewrite <- app_assoc; reflexivity).
    rewrite Hassoc.
    change (foldl ?f ?a (doc :: docs)) with (foldl f (f a doc) docs).
    cbv beta. unfold mergeDocument at 2.
    case_bool_decide as Hdup.
    + rewrite !decide_True by (apply Htr, Hdup).
      destruct (IH st inserted (skipped + 1) (before ++ [dedup_key doc]))
        as (st' & -> & H1 & H2 & H3 & H4 & H5); [apply tracks_again; auto|].
      exists st'. split; [|split_and!; auto]. do 2 f_equal. lia.
    + rewrite !decide_False by (intros Hin; apply Hdup, Htr, Hin).
      destruct (insertDocument_ok doc (targetDb st)) as (db' & -> & Hdocs & _).
      destruct (IH {| targetDb := db'; duplicates := duplicates st ∪ {[key doc]};
                      totalDocuments := totalDocuments st;
                      documentsBySource := documentsBySource st; logs := logs st |}
                   (inserted + 1) skipped (before ++ [dedup_key doc]))
        as (st' & -> & H1 & H2 & H3 & H4 & H5); [apply tracks_add; auto|].
      exists st'. split; [|split; [exact H1|split; [|split_and!; auto]]].
      * simpl length. do 2 f_equal. lia.
      * rewrite H2. simpl. rewrite Hdocs, fmap_app, <- app_assoc. reflexivity.
Qed.

Lemma first_encountered_app (before : list (string * Z)) (docs1 docs2 : list DocumentRow) :
  first_encountered before (docs1 ++ docs2) =
    first_encountered before docs1
      ++ first_encountered (before ++ (dedup_key <$> docs1)) docs2.
Proof.
  revert before. induction docs1 as [|doc docs1 IH]; intros before.
  - simpl. rewrite app_nil_r. reflexivity.
  - rewrite <- app_comm_cons, !first_encountered_cons, IH.
    assert (Hassoc : before ++ (dedup_key <$> doc :: docs1)
                     = (before ++ [dedup_key doc]) ++ (dedup_key <$> docs1))
      by (rewrite <- app_assoc; reflexivity).
    rewrite Hassoc. case_decide; reflexivity.
Qed.

Lemma mergeSource_spec (st : State) (before : list (string * Z))
    (sourcePath : string) (docs : list DocumentRow) :
  tracks st before ->
  readSource sourcePath = Ret docs ->
  closeSource sourcePath = Ret tt ->
  exists st',
    mergeSource documents_error vec_error readSource closeSource st sourcePath = st'
    /\ tracks st' (before ++ (dedup_key <$> docs))
    /\ with_id 0 <$> documents (targetDb st')
         = (with_id 0 <$> documents (targetDb st))
             ++ (with_id 0 <$> first_encountered before docs)
    /\ logs st' = logs st ++ source_report before sourcePath docs
    /\ documentsBySource st'
         = documentsBySource st ++ [length (first_encountered before docs)]
    /\ totalDocuments st' = totalDocuments st + length (first_encountered before docs).
Proof.
  intros Htr Hr Hc. eexists. split; [reflexivity|].
  unfold mergeSource. rewrite Hr, Hc. unfold mergeDocuments.
  destruct (mergeDocuments_spec docs (log (LogFound (length docs))
                                        (log (LogProcessing sourcePath) st)) 0 0 before)
    as (st1 & -> & H1 & H2 & H3 & H4 & H5); [exact Htr|].
  unfold source_report. simpl.
  destruct (0 <? colliding before docs); simpl; rewrite ?H3, ?H4, ?H5; simpl;
    rewrite <- ?app_assoc; split_and!; auto.
Qed.

Lemma mergeSources_spec (sources : list (string * list DocumentRow)) :
  forall (st : State) (before : list (string * Z)),
    tracks st before ->
    (forall sourcePath docs, (sourcePath, docs) ∈ sources ->
       readSource sourcePath = Ret docs /\ closeSource sourcePath = Ret tt) ->
    exists st',
      foldl (mergeSource documents_error vec_error readSource closeSource)
            st (sources.*1) = st'
      /\ tracks st' (before ++ (dedup_key <$> concat (sources.*2)))
      /\ with_id 0 <$> documents (targetDb st')
           = (with_id 0 <$> documents (targetDb st))
               ++ (with_id 0 <$> first_encountered before (concat (sources.*2)))
      /\ logs st' = logs st ++ reports before sources
      /\ documentsBySource st' = documentsBySource st ++ inserted_counts before sources
      /\ totalDocuments st'
           = totalDocuments st + length (first_encountered before (concat (sources.*2))).
Proof.
  induction sources as [|[sourcePath docs] sources IH]; intros st before Htr Hread.
  - exists st. simpl. rewrite !app_nil_r, Nat.add_0_r. split_and!; auto.
  - destruct (Hread sourcePath docs) as [Hr Hc]; [left|].
    destruct (mergeSource_spec st before sourcePath docs Htr Hr Hc)
      as (st2 & E2 & Htr2 & Hdocs2 & Hlogs2 & Hby2 & Htot2).
    destruct (IH st2 (before ++ (dedup_key <$> docs)) Htr2)
      as (st3 & E3 & I1 & I2 & I3 & I4 & I5).
    { intros p d Hin. apply Hread. right. exact Hin. }
    exists st3. rewrite !fmap_cons. simpl foldl. simpl concat. rewrite E2.
    split; [exact E3|].
    rewrite fmap_app, first_encountered_app, fmap_app, length_app.
    simpl reports. simpl inserted_counts.
    split_and!.
    + rewrite app_assoc. exact I1.
    + rewrite I2, Hdocs2, <- app_assoc. reflexivity.
    + rewrite I3, Hlogs2, <- app_assoc. reflexivity.
    + rewrite I4, Hby2, <- app_assoc. reflexivity.
    + rewrite I5, Htot2. lia.
Qed.

End Correct.

(** *** Accounting under failures *)

(** From here on the storage engine may refuse any statement and any source
    may be unreadable. *)
Section Accounting.

Variable documents_error : Database -> DocumentRow -> option string.
Variable vec_error : Database -> Z -> list Byte.byte -> option string.
Variable readSource : string -> outcome (list DocumentRow).
Variable closeSource : string -> outcome unit.

(** The summary of [main]:
    [sourcePaths.forEach((path, i) => log(`  ${path}: ${documentsBySource[i]}`))];
    [None] prints as [undefined]. *)
Definition summary (sourcePaths : list string) (st : State) : list (string * option nat) :=
  imap (fun i path => (path, documentsBySource st !! i)) sourcePaths.

Definition readable (sourcePath : string) : bool :=
  match readSource sourcePath with Ret _ => true | Throw _ => false end.

(** The row of [vec_embeddings] that goes with a row of [documents]. *)
Definition indexed (doc : DocumentRow) : Z * list Byte.byte := (id doc, embedding doc).

(** The rows of [documents] that have a row in [vec_embeddings]. *)
Definition searchable (db : Database) : list DocumentRow :=
  filter (fun doc => id doc ∈ (vec_embeddings db).*1) (documents db).

(** The loop invariant: [cs] are the rows inserted in full. *)
Definition consistent (db : Database) (dups : gset string) (cs : list DocumentRow)
  : Prop :=
  lastInsertRowid db = Z.of_nat (length (documents db))
  /\ id <$> documents db = (fun i => Z.of_nat (S i)) <$> seq 0 (length (documents db))
  /\ cs `sublist_of` documents db
  /\ vec_embeddings db = indexed <$> cs
  /\ NoDup (key <$> cs)
  /\ dups = list_to_set (key <$> cs).

Lemma ids_snoc (docs : list DocumentRow) (doc : DocumentRow) :
  id <$> docs = (fun i => Z.of_nat (S i)) <$> seq 0 (length docs) ->
  id doc = (Z.of_nat (length docs) + 1)%Z ->
  id <$> docs ++ [doc]
    = (fun i => Z.of_nat (S i)) <$> seq 0 (length (docs ++ [doc])).
Proof.
  intros Hids Hid. rewrite length_app. simpl. rewrite seq_app, !fmap_app, <- Hids.
  simpl. rewrite Hid. do 2 f_equal. lia.
Qed.

Lemma insertDocument_consistent (doc : DocumentRow) (db : Database) (dups : gset string)
    (cs : list DocumentRow) :
  consistent db dups cs -> key doc ∉ dups ->
  match insertDocument documents_error vec_error doc db with
  | (Ret _, db') => exists stored, consistent db' (dups ∪ {[key doc]}) (cs ++ [stored])
  | (Throw _, db') => consistent db' dups cs
  end.
Proof.
  intros (Hlast & Hids & Hsub & Hvec & Hnodup & Hdups) Hfresh.
  unfold insertDocument. destruct (documents_error db doc); [repeat split; assumption|].
  cbv zeta. set (stored := {| id := (lastInsertRowid db + 1)%Z |}).
  assert (Hlen : (lastInsertRowid db + 1)%Z
                 = Z.of_nat (length (documents db ++ [stored])))
    by (rewrite length_app; simpl; lia).
  assert (Hids' : id <$> documents db ++ [stored]
                  = (fun i => Z.of_nat (S i))
                      <$> seq 0 (length (documents db ++ [stored])))
    by (apply ids_snoc; [exact Hids | simpl; lia]).
  destruct (vec_error _ _ _); cbn [documents vec_embeddings lastInsertRowid].
  - split_and!; try assumption. apply sublist_inserts_r, Hsub.
  - exists stored. split_and!; try assumption.
    + apply sublist_app; [exact Hsub | reflexivity].
    + rewrite Hvec, fmap_app. reflexivity.
    + rewrite fmap_app. apply NoDup_app. split_and!; [exact Hnodup| |apply NoDup_singleton].
      intros k Hk Hk'. apply list_elem_of_singleton in Hk'. subst k.
      apply Hfresh. rewrite Hdups. apply elem_of_list_to_set. exact Hk.
    + rewrite fmap_app, list_to_set_app_L, <- Hdups. simpl.
      rewrite (right_id_L ∅ (∪)). reflexivity.
Qed.

Lemma mergeDocument_consistent (doc : DocumentRow) (st : State) (inserted skipped : nat)
    (cs : list DocumentRow) :
  consistent (targetDb st) (duplicates st) cs ->
  let '(st', (inserted', _)) :=
    mergeDocument documents_error vec_error doc (st, (inserted, skipped)) in
  exists cs', consistent (targetDb st') (duplicates st') cs'
              /\ length cs' + inserted = length cs + inserted'.
Proof.
  intros Hc. unfold mergeDocument. case_bool_decide as Hin.
  - exists cs. auto.
  - pose proof (insertDocument_consistent doc _ _ _ Hc Hin) as Hi.
    destruct (insertDocument documents_error vec_error doc (targetDb st))
      as [[i|message] db']; simpl.
    + destruct Hi as [stored Hi]. exists (cs ++ [stored]).
      split; [exact Hi | rewrite length_app; simpl; lia].
    + exists cs. auto.
Qed.

Lemma mergeDocuments_consistent (docs : list DocumentRow) :
  forall (st : State) (inserted skipped : nat) (cs : list DocumentRow),
    consistent (targetDb st) (duplicates st) cs ->
    let '(st', (inserted', _)) :=
      foldl (fun acc doc => mergeDocument documents_error vec_error doc acc)
            (st, (inserted, skipped)) docs in
    exists cs', consistent (targetDb st') (duplicates st') cs'
                /\ length cs' + inserted = length cs + inserted'.
Proof.
  induction docs as [|doc docs IH]; intros st inserted skipped cs Hc.
  - exists cs. auto.
  - cbn [foldl]. pose proof (mergeDocument_consistent doc st inserted skipped cs Hc) as H1.
    destruct (mergeDocument documents_error vec_error doc (st, (inserted, skipped)))
      as [st1 [inserted1 skipped1]].
    destruct H1 as (cs1 & Hc1 & Hl1).
    specialize (IH st1 inserted1 skipped1 cs1 Hc1).
    destruct (foldl _ (st1, (inserted1, skipped1)) docs) as [st' [inserted' skipped']].
    destruct IH as (cs' & Hc' & Hl'). exists cs'. split; [exact Hc' | lia].
Qed.

(** The loop over the rows of one source leaves the totals alone. *)
Lemma mergeDocuments_keeps_totals (docs : list DocumentRow) :
  forall acc : State * (nat * nat),
    let st' := (foldl (fun acc doc => mergeDocument documents_error vec_error doc acc)
                      acc docs).1 in
    totalDocuments st' = totalDocuments acc.1
    /\ documentsBySource st' = documentsBySource acc.1.
Proof.
  induction docs as [|doc docs IH]; intros acc; [split; reflexivity|].
  cbn [foldl]. destruct (IH (mergeDocument documents_error vec_error doc acc)) as [Ht Hb].
  rewrite Ht, Hb. clear. destruct acc as [st [inserted skipped]].
  unfold mergeDocument. case_bool_decide; [split; reflexivity|].
  destruct (insertDocument _ _ _ _) as [[i|message] db']; split; reflexivity.
Qed.

(** The merge state between two sources: the totals count the rows
    inserted in full. *)
Definition settled (st : State) : Prop :=
  exists cs, consistent (targetDb st) (duplicates st) cs
             /\ length cs = totalDocuments st
             /\ totalDocuments st = sum_list (documentsBySource st).

Lemma settled_log (e : LogEntry) (st : State) : settled st -> settled (log e st).
Proof. exact (fun H => H). Qed.

Lemma sum_list_snoc (l : list nat) (n : nat) : sum_list (l ++ [n]) = sum_list l + n.
Proof. induction l as [|m l IH]; simpl; lia. Qed.

Lemma mergeSource_settled (st : State) (sourcePath : string) :
  settled st ->
  settled (mergeSource documents_error vec_error readSource closeSource st sourcePath).
Proof.
  intros (cs & Hc & Hlen & Hsum). unfold mergeSource.
  destruct (readSource sourcePath) as [docs|message];
    [|apply settled_log, settled_log; exists cs; auto].
  cbv zeta. unfold mergeDocuments.
  set (st0 := log (LogFound (length docs)) (log (LogProcessing sourcePath) st)).
  pose proof (mergeDocuments_consistent docs st0 0 0 cs Hc) as H1.
  pose proof (mergeDocuments_keeps_totals docs (st0, (0, 0))) as H2.
  destruct (foldl _ (st0, (0, 0)) docs) as [st1 [inserted skipped]].
  destruct H1 as (cs1 & Hc1 & Hl1). destruct H2 as [Ht Hb]. simpl in Ht, Hb.
  assert (Hsettled : settled {| targetDb := targetDb st1; duplicates := duplicates st1;
                                totalDocuments := totalDocuments st1 + inserted;
                                documentsBySource := documentsBySource st1 ++ [inserted];
                                logs := [] |}).
  { exists cs1. simpl. split_and!; [exact Hc1 | lia |].
    rewrite sum_list_snoc, Hb, Ht. lia. }
  destruct (0 <? skipped), (closeSource sourcePath); exact Hsettled.
Qed.

Lemma settled_initial : settled initial.
Proof.
  exists []. split; [|split; reflexivity].
  split_and!; try reflexivity; constructor.
Qed.

Lemma mergeAll_settled (sourcePaths : list string) :
  settled (mergeAll documents_error vec_error readSource closeSource sourcePaths).
Proof.
  unfold mergeAll. generalize settled_initial. generalize initial.
  induction sourcePaths as [|sourcePath sourcePaths IH]; intros st Hst; [exact Hst|].
  simpl. apply IH, mergeSource_settled, Hst.
Qed.

(** Whatever fails while merging, the totals of the script agree with each
    other and with the target: the total printed is the sum of the counts by
    source, the number of keys in the deduplication set, and the number of
    rows of [vec_embeddings]; the [documents] table has at least as many
    rows, the surplus being rows whose index insertion failed. *)
Theorem merge_totals_agree (sourcePaths : list string) :
  let st := mergeAll documents_error vec_error readSource closeSource sourcePaths in
  totalDocuments st = sum_list (documentsBySource st)
  /\ size (duplicates st) = totalDocuments st
  /\ length (vec_embeddings (targetDb st)) = totalDocuments st
  /\ totalDocuments st <= length (documents (targetDb st)).
Proof.
  intros st. destruct (mergeAll_settled sourcePaths)
    as (cs & (_ & _ & Hsub & Hvec & Hnodup & Hdups) & Hlen & Hsum).
  fold st in Hsub, Hvec, Hdups, Hlen, Hsum. split_and!.
  - exact Hsum.
  - rewrite Hdups, size_list_to_set, length_fmap; [exact Hlen | exact Hnodup].
  - rewrite Hvec, length_fmap. exact Hlen.
  - rewrite <- Hlen. apply sublist_length, Hsub.
Qed.

Lemma filter_ext_in {A : Type} (P Q : A -> Prop) `{!forall x, Decision (P x)}
    `{!forall x, Decision (Q x)} (l : list A) :
  (forall x, x ∈ l -> P x <-> Q x) -> filter P l = filter Q l.
Proof.
  induction l as [|x l IH]; intros Hiff; [reflexivity|].
  rewrite !filter_cons, IH by (intros y Hy; apply Hiff; right; exact Hy).
  pose proof (Hiff x (list_elem_of_here x l)) as Hx.
  destruct (decide (P x)), (decide (Q x)); tauto || reflexivity.
Qed.

(** Rows picked out of a table with distinct ids are found again by id. *)
Lemma filter_by_id {A B : Type} `{!EqDecision B} (f : A -> B) (cs l : list A) :
  cs `sublist_of` l -> NoDup (f <$> l) ->
  filter (fun x => f x ∈ f <$> cs) l = cs.
Proof.
  induction 1 as [|x cs l Hsub IH|x cs l Hsub IH]; intros Hnodup.
  - reflexivity.
  - rewrite fmap_cons in Hnodup. apply NoDup_cons in Hnodup as [Hx Hnodup].
    rewrite filter_cons_True by (rewrite fmap_cons; left).
    f_equal. transitivity (filter (fun y => f y ∈ f <$> cs) l); [|exact (IH Hnodup)].
    apply filter_ext_in.
    intros y Hy. rewrite fmap_cons, elem_of_cons. split; [|tauto].
    intros [E|Hin]; [|exact Hin]. exfalso. apply Hx. rewrite <- E.
    apply list_elem_of_fmap_2, Hy.
  - rewrite fmap_cons in Hnodup. apply NoDup_cons in Hnodup as [Hx Hnodup].
    rewrite filter_cons_False; [exact (IH Hnodup)|].
    intros Hin. apply Hx. eapply elem_of_sublist; [exact Hin|].
    apply fmap_sublist, Hsub.
Qed.

Lemma dedup_key_elem_of (doc : DocumentRow) (cs : list DocumentRow) :
  key doc ∈ key <$> cs <-> dedup_key doc ∈ dedup_key <$> cs.
Proof.
  rewrite !list_elem_of_fmap. split; intros (other & E & Hin); exists other;
    (split; [apply key_eq_iff, E || apply (proj2 (key_eq_iff _ _)), E | exact Hin]).
Qed.

Lemma NoDup_dedup_key (cs : list DocumentRow) :
  NoDup (key <$> cs) -> NoDup (dedup_key <$> cs).
Proof.
  induction cs as [|doc cs IH]; [constructor|].
  rewrite !fmap_cons, !NoDup_cons, dedup_key_elem_of. intros [Hdoc Hcs]. auto.
Qed.

Lemma searchable_consistent (db : Database) (dups : gset string)
    (cs : list DocumentRow) :
  consistent db dups cs -> searchable db = cs.
Proof.
  intros (_ & Hids & Hsub & Hvec & _ & _). unfold searchable. rewrite Hvec.
  rewrite <- list_fmap_compose.
  apply (filter_by_id id cs (documents db) Hsub).
  rewrite Hids. apply NoDup_fmap_2; [intros i j ?; lia | apply NoDup_seq].
Qed.

(** Whatever fails while merging, the target stays coherent: the rows of
    [documents] are numbered 1, 2, 3, ... in insertion order; every row of
    [vec_embeddings] carries the id and the embedding of a stored row, each
    at most once; no two rows that have an index entry share their
    [(filename, chunk_index)]; and the deduplication set holds the keys of
    exactly these rows, so that a row whose index insertion failed stays
    in [documents] without blocking a later row with its key. *)
Theorem merge_keeps_the_target_coherent (sourcePaths : list string) :
  let st := mergeAll documents_error vec_error readSource closeSource sourcePaths in
  let db := targetDb st in
  id <$> documents db = (fun i => Z.of_nat (S i)) <$> seq 0 (length (documents db))
  /\ vec_embeddings db = indexed <$> searchable db
  /\ NoDup (dedup_key <$> searchable db)
  /\ (forall doc, key doc ∈ duplicates st <-> dedup_key doc ∈ dedup_key <$> searchable db).
Proof.
  intros st db. destruct (mergeAll_settled sourcePaths) as (cs & Hc & _).
  fold st db in Hc. rewrite (searchable_consistent _ _ _ Hc).
  destruct Hc as (_ & Hids & _ & Hvec & Hnodup & Hdups). split_and!.
  - exact Hids.
  - exact Hvec.
  - apply NoDup_dedup_key, Hnodup.
  - intros doc. rewrite Hdups, elem_of_list_to_set. apply dedup_key_elem_of.
Qed.

(** *** The summary *)

Lemma mergeSource_counts (st : State) (sourcePath : string) :
  length (documentsBySource
            (mergeSource documents_error vec_error readSource closeSource st sourcePath))
    = length (documentsBySource st) + (if readable sourcePath then 1 else 0).
Proof.
  unfold mergeSource, readable.
  destruct (readSource sourcePath) as [docs|message]; [|simpl; lia].
  cbv zeta. unfold mergeDocuments.
  set (st0 := log (LogFound (length docs)) (log (LogProcessing sourcePath) st)).
  pose proof (mergeDocuments_keeps_totals docs (st0, (0, 0))) as [_ Hb].
  destruct (foldl _ (st0, (0, 0)) docs) as [st1 [inserted skipped]]. simpl in Hb.
  destruct (0 <? skipped), (closeSource sourcePath); simpl;
    rewrite length_app, Hb; simpl; lia.
Qed.

Lemma summary_zip (sourcePaths : list string) :
  forall counts : list nat,
    imap (fun i path => (path, counts !! i)) sourcePaths
      = zip sourcePaths
            ((Some <$> counts) ++ replicate (length sourcePaths - length counts) None).
Proof.
  induction sourcePaths as [|path sourcePaths IH]; intros counts.
  - destruct counts; reflexivity.
  - rewrite imap_cons. destruct counts as [|n counts].
    + specialize (IH []). simpl in *. rewrite Nat.sub_0_r in IH.
      rewrite <- IH. reflexivity.
    + simpl. rewrite <- IH. reflexivity.
Qed.

(** The summary pairs the i-th path with the i-th count pushed, and only a
    source that could be read pushes one: the counts of the readable sources
    come first, in order, and the last paths print [undefined], one for
    each source that could not be read.  So the counts stand beside their
    own paths exactly when no unreadable source comes before them. *)
Theorem summary_counts_only_readable_sources (sourcePaths : list string) :
  let st := mergeAll documents_error vec_error readSource closeSource sourcePaths in
  length (documentsBySource st)
    = length (filter (fun path => readable path = true) sourcePaths)
  /\ summary sourcePaths st
     = zip sourcePaths
           ((Some <$> documentsBySource st)
              ++ replicate (length (filter (fun path => readable path = false)
                                           sourcePaths)) None).
Proof.
  intros st.
  assert (Hlen : forall st0,
             length (documentsBySource
                       (foldl (mergeSource documents_error vec_error readSource
                                 closeSource) st0 sourcePaths))
               = length (documentsBySource st0)
                 + length (filter (fun path => readable path = true) sourcePaths)).
  { induction sourcePaths as [|path paths IH]; intros st0; [simpl; lia|].
    cbn [foldl]. rewrite IH, mergeSource_counts, filter_cons.
    destruct (readable path); simpl; lia. }
  assert (Hsplit : length sourcePaths
                   = length (filter (fun path => readable path = true) sourcePaths)
                     + length (filter (fun path => readable path = false) sourcePaths)).
  { clear. induction sourcePaths as [|path paths IH]; [reflexivity|].
    rewrite !filter_cons. destruct (readable path); simpl; lia. }
  specialize (Hlen initial). fold (mergeAll documents_error vec_error readSource
                                     closeSource sourcePaths) in Hlen.
  fold st in Hlen. simpl in Hlen. split; [exact Hlen|].
  unfold summary. rewrite summary_zip. do 3 f_equal. lia.
Qed.

End Accounting.

(** Two files that share the chunk [("a.txt", 0)]. *)
Definition row (name : string) (index : Z) (body : string) : DocumentRow :=
  {| id := 7; filename := name; content := body; chunk_text := body;
     embedding := []; chunk_index := index; chunk_size := 0;
     hypothetical_questions := None; question_embeddings := None;
     chunk_metadata := None; created_at := 0 |}.

Definition two_sources : list (string * list DocumentRow) :=
  [("one.db", [row "a.txt" 0 "first"; row "a.txt" 1 "x"; row "a.txt" 0 "again"]);
   ("two.db", [row "a.txt" 0 "late"; row "b:1" 2 "y"; row "b" 12 "z"])].

Definition read_two (sourcePath : string) : outcome (list DocumentRow) :=
  match list_find (fun s => s.1 = sourcePath) two_sources with
  | Some (_, (_, docs)) => Ret docs
  | None => Throw "unable to open database file"
  end.

Definition never_fails {A B : Type} (db : A) (x : B) : option string := None.
Definition never_fails3 {A B C : Type} (db : A) (x : B) (y : C) : option string := None.
Definition close_ok (sourcePath : string) : outcome unit := Ret tt.

Example two_sources_merged :
  let st := mergeAll never_fails never_fails3 read_two close_ok ["one.db"; "two.db"] in
  chunk_text <$> documents (targetDb st) = ["first"; "x"; "y"; "z"]
  /\ logs st = [LogProcessing "one.db"; LogFound 3; LogInserted 2; LogSkipped 1;
                 LogProcessing "two.db"; LogFound 3; LogInserted 2; LogSkipped 1]
  /\ documentsBySource st = [2; 2].
Proof. vm_compute. auto. Qed.

(** Merging source databases into a fresh target deduplicates on
    [(filename, chunk_index)] when the sources can be read and the target
    accepts every insertion: the rows of the target are, in order and up to
    their new ids, exactly the first-encountered rows of the sources taken
    one after the other; no two of them share a key; every later row with
    a key already met is skipped; and for each source the script prints the
    number of rows inserted and, when it is not zero, the number skipped. *)
Theorem merge_first_write_wins
    (documents_error : Database -> DocumentRow -> option string)
    (vec_error : Database -> Z -> list Byte.byte -> option string)
    (readSource : string -> outcome (list DocumentRow))
    (closeSource : string -> outcome unit)
    (sources : list (string * list DocumentRow)) :
  (forall db doc, documents_error db doc = None) ->
  (forall db i blob, vec_error db i blob = None) ->
  (forall sourcePath docs, (sourcePath, docs) ∈ sources ->
     readSource sourcePath = Ret docs /\ closeSource sourcePath = Ret tt) ->
  let st := mergeAll documents_error vec_error readSource closeSource (sources.*1) in
  let all := concat (sources.*2) in
  with_id 0 <$> documents (targetDb st) = with_id 0 <$> first_encountered [] all
  /\ NoDup (dedup_key <$> documents (targetDb st))
  /\ logs st = reports [] sources
  /\ documentsBySource st = inserted_counts [] sources
  /\ totalDocuments st = length (first_encountered [] all).
Proof.
  intros Hdoc Hvec Hread st all.
  destruct (mergeSources_spec documents_error vec_error readSource closeSource
              Hdoc Hvec sources initial [])
    as (st' & E & _ & Hrows & Hlogs & Hby & Htot).
  { intros d. simpl. split; intros H; [apply not_elem_of_empty in H|inversion H]; tauto. }
  { exact Hread. }
  fold (mergeAll documents_error vec_error readSource closeSource (sources.*1)) in E.
  subst st all. rewrite E. simpl in Hrows, Hlogs, Hby, Htot.
  split_and!; auto.
  assert (Hkeys : dedup_key <$> documents (targetDb st')
                  = dedup_key <$> (with_id 0 <$> documents (targetDb st'))).
  { rewrite <- list_fmap_compose. reflexivity. }
  rewrite Hkeys, Hrows, <- list_fmap_compose.
  apply (first_encountered_NoDup [] (concat (sources.*2))).
Qed.

Lemma merge_first_write_wins_witness :
  let st := mergeAll never_fails never_fails3 read_two close_ok (two_sources.*1) in
  let all := concat (two_sources.*2) in
  with_id 0 <$> documents (targetDb st) = with_id 0 <$> first_encountered [] all
  /\ NoDup (dedup_key <$> documents (targetDb st))
  /\ logs st = reports [] two_sources
  /\ documentsBySource st = inserted_counts [] two_sources
  /\ totalDocuments st = length (first_encountered [] all).
Proof.
  apply (merge_first_write_wins never_fails never_fails3 read_two close_ok two_sources).
  - reflexivity.
  - reflexivity.
  - intros sourcePath docs Hin. unfold two_sources in Hin.
    apply elem_of_cons in Hin as [[= -> ->]|Hin]; [split; reflexivity|].
    apply elem_of_cons in Hin as [[= -> ->]|Hin]; [split; reflexivity|].
    inversion Hin.
Defined.

(** *** A vector the target refuses *)

(** The [vec0] table of the target is declared with a fixed number of
    dimensions and refuses a vector of any other length. *)
Definition accepts_dimension (dimensions : nat) (db : Database) (documentId : Z)
    (embeddingBlob : list Byte.byte) : option string :=
  if length embeddingBlob =? 4 * dimensions then None
  else Some "Dimension mismatch for inserted vector".

Definition row_of_dimension (dimensions : nat) (name : string) (index : Z) (body : string)
  : DocumentRow :=
  {| id := 7; filename := name; content := body; chunk_text := body;
     embedding := replicate (4 * dimensions) Byte.x00; chunk_index := index;
     chunk_size := 0; hypothetical_questions := None; question_embeddings := None;
     chunk_metadata := None; created_at := 0 |}.

(** A source built with vectors of three dimensions, which holds the chunk
    [("a.txt", 0)] twice, and one built with vectors of two. *)
Definition mixed_sources : list (string * list DocumentRow) :=
  [("old.db", [row_of_dimension 3 "a.txt" 0 "first"; row_of_dimension 3 "a.txt" 0 "again"]);
   ("new.db", [row_of_dimension 2 "a.txt" 0 "late"; row_of_dimension 2 "b.txt" 0 "y"])].

Definition read_mixed (sourcePath : string) : outcome (list DocumentRow) :=
  match list_find (fun s => s.1 = sourcePath) mixed_sources with
  | Some (_, (_, docs)) => Ret docs
  | None => Throw "unable to open database file"
  end.

(** C4. The deduplication on [(filename, chunk_index)] is lost when the
    target refuses the vector of a row.  [insertDocument] runs two
    statements with no transaction around them: the row is written to
    [documents], then the vector to [vec_embeddings].  When the second
    statement throws, the merge loop logs the error and goes on, with the
    row left in [documents], its key not added to the set and the row
    counted neither as inserted nor as skipped.  The next row of that key
    is therefore not recognised: here the target, of two dimensions, ends
    with three rows of the key [("a.txt", 0)], two of them without a
    vector; no row is reported as skipped, and the first source is
    reported with no row inserted. *)
Theorem failed_vector_insert_leaves_rows_of_one_key :
  let st := mergeAll never_fails (accepts_dimension 2) read_mixed close_ok
              ["old.db"; "new.db"] in
  (fun doc => (dedup_key doc, chunk_text doc)) <$> documents (targetDb st)
    = [(("a.txt", 0%Z), "first"); (("a.txt", 0%Z), "again"); (("a.txt", 0%Z), "late");
       (("b.txt", 0%Z), "y")]
  /\ ~ NoDup (dedup_key <$> documents (targetDb st))
  /\ (vec_embeddings (targetDb st)).*1 = [3%Z; 4%Z]
  /\ logs st = [LogProcessing "old.db"; LogFound 2;
                 LogInsertError 7 "Dimension mismatch for inserted vector";
                 LogInsertError 7 "Dimension mismatch for inserted vector";
                 LogInserted 0;
                 LogProcessing "new.db"; LogFound 2; LogInserted 2]
  /\ documentsBySource st = [0; 2]
  /\ totalDocuments st = 2.
Proof.
  vm_compute. split_and!; try reflexivity.
  intros Hnodup. apply NoDup_cons in Hnodup as [Hfirst _].
  apply Hfirst. left.
Qed.

End Merge.

(** ** index.ts: the HTTP request handlers *)

Module Server.

(** Values of [JSON.parse]. *)
#[local] Set Warnings "-register-all".
Inductive json : Type :=
| JNull
| JBool (b : bool)
| JNum (n : Q)
| JStr (s : string)
| JArr (items : list json)
| JObj (fields : list (string * json)).

Fixpoint lookup_field (k : string) (fields : list (string * json)) : option json :=
  match fields with
  | [] => None
  | (k', v) :: rest => if String.eqb k k' then Some v else lookup_field k rest
  end.

(** [body.k] for one of the request keys; [None] is [undefined].  Reading a
    property of [null] throws a [TypeError]; primitives and arrays have no
    property of these names. *)
Definition prop (body : json) (k : string) : outcome (option json) :=
  match body with
  | JNull => Throw ("null is not an object (evaluating 'body." +:+ k +:+ "')")
  | JObj fields => Ret (lookup_field k fields)
  | _ => Ret None
  end.

(** [body.k] after a first property read succeeded. *)
Definition field (body : json) (k : string) : option json :=
  match body with
  | JObj fields => lookup_field k fields
  | _ => None
  end.

Definition truthy (v : option json) : bool :=
  match v with
  | None | Some JNull => false
  | Some (JBool b) => b
  | Some (JNum n) => negb (Qeq_bool n (inject_Z 0))
  | Some (JStr s) => Js.truthy s
  | Some (JArr _) | Some (JObj _) => true
  end.

Definition is_string (v : option json) : bool :=
  match v with Some (JStr _) => true | _ => false end.

Definition is_number (v : option json) : bool :=
  match v with Some (JNum _) => true | _ => false end.

(** [v && typeof v === 'number' ? v : fallback]. *)
Definition number_or (v : option json) (fallback : Q) : Q :=
  if truthy v && is_number v then
    match v with Some (JNum n) => n | _ => fallback end
  else fallback.

(** [v && typeof v === 'string' ? v : undefined]. *)
Definition string_or_undefined (v : option json) : option string :=
  if truthy v && is_string v then
    match v with Some (JStr s) => Some s | _ => None end
  else None.

(** [Math.round(x * 100) / 100]. *)
Definition round2 (x : Q) : Q :=
  (inject_Z (Qfloor (x * inject_Z 100 + (1 # 2))%Q) / inject_Z 100)%Q.

(** Modelled from the spec: the [StreamEvent] type of [types/index] is not
    among the sources; the events are the content deltas and the terminal
    error event of section 4.6, the latter built by the handler as
    [{type: 'error', error}]. *)
Inductive StreamEvent : Type :=
| ContentDelta (content : string)
| ErrorEvent (error : string).

(** One finished run of the async generator [streamQuestion(...)]: the
    events it yields, then a normal return or a throw. *)
Inductive Gen : Type :=
| GYield (event : StreamEvent) (rest : Gen)
| GReturn
| GThrow (message : string).

(** A [ReadableStreamDefaultController]. *)
Record Controller : Type := {
  enqueued : list string;
  closed : bool;
}.

Definition fresh_controller : Controller := {| enqueued := []; closed := false |}.

Definition enqueue (chunk : string) : io Controller unit :=
  fun c =>
    if closed c then (Throw "Invalid state: Controller is already closed", c)
    else (Ret tt, {| enqueued := enqueued c ++ [chunk]; closed := false |}).

Definition close : io Controller unit :=
  fun c =>
    if closed c then (Throw "Invalid state: Controller is already closed", c)
    else (Ret tt, {| enqueued := enqueued c; closed := true |}).

Inductive ResponseBody : Type :=
| JsonBody (payload : json)
| EventStream (outcome_of_start : outcome unit) (controller : Controller).

Record Response : Type := {
  status : nat;
  headers : list (string * string);
  body : ResponseBody;
}.

(** The calls a handler makes into the retrieval and answer services. *)
Inductive Call : Type :=
| SearchSimilar (query : string) (topK similarityThreshold : Q)
| AskQuestion (question : string) (topK maxAnswerLength : Q)
    (systemPrompt : option string) (similarityThreshold : Q)
| StreamQuestion (question : string) (topK maxAnswerLength : Q)
    (systemPrompt : option string) (similarityThreshold : Q).

Section Handlers.

Context {World : Type}.

(** [constants/rag]. *)
Variable DEFAULT_TOP_K : Q.
Variable SIMILARITY_THRESHOLD : Q.

(** [services/search] and [services/rag]. *)
Variable searchSimilar : string -> Q -> Q -> World -> outcome (list json) * World.
Variable askQuestion :
  string -> Q -> Q -> option string -> Q -> World -> outcome (list (string * json)) * World.
Variable streamQuestion : string -> Q -> Q -> option string -> Q -> World -> Gen * World.

(** [performance.now()] and [JSON.stringify] on an event. *)
Variable performance_now : World -> Q * World.
Variable stringify : StreamEvent -> string.

Record Env : Type := {
  calls : list Call;
  errors : list string;
  world : World;
}.

Definition call {A : Type} (c : Call) (f : World -> outcome A * World) : io Env A :=
  fun env =>
    let '(r, w) := f (world env) in
    (r, {| calls := calls env ++ [c]; errors := errors env; world := w |}).

Definition now : io Env Q :=
  fun env =>
    let '(t, w) := performance_now (world env) in
    (Ret t, {| calls := calls env; errors := errors env; world := w |}).

Definition log_error (label message : string) : io Env unit :=
  modify (fun env => {| calls := calls env;
                        errors := errors env ++ [label +:+ " " +:+ message];
                        world := world env |}).

Definition lift {A : Type} (o : outcome A) : io Env A := fun env => (o, env).

Definition json_headers : list (string * string) :=
  [("Content-Type", "application/json")].

Definition bad_request (message : string) : Response :=
  {| status := 400; headers := json_headers;
     body := JsonBody (JObj [("error", JStr message)]) |}.

Definition internal_error (message : string) : Response :=
  {| status := 500; headers := json_headers;
     body := JsonBody (JObj [("error", JStr "Internal server error");
                             ("message", JStr message)]) |}.

Definition ok_json (payload : json) : Response :=
  {| status := 200; headers := json_headers; body := JsonBody payload |}.

(** [routes['/search'].POST]; [request_json] is what [await req.json()]
    gives. *)
Definition search (request_json : outcome json) : io Env Response :=
  (try_catch
     (let! body := lift request_json in
      let! query := lift (prop body "query") in
      if negb (truthy query) || negb (is_string query) then
        ret (bad_request "Missing or invalid 'query' parameter")
      else
        let query := match query with Some (JStr s) => s | _ => "" end in
        let topK := number_or (field body "topK") DEFAULT_TOP_K in
        let similarityThreshold :=
          number_or (field body "similarityThreshold") SIMILARITY_THRESHOLD in
        let! startTime := now in
        let! results :=
          call (SearchSimilar query topK similarityThreshold)
               (searchSimilar query topK similarityThreshold) in
        let! endTime := now in
        ret (ok_json (JObj [("results", JArr results); ("query", JStr query);
                            ("took_ms", JNum (round2 (endTime - startTime)))])))
     (fun message =>
        log_error "Search error:" message ;;;
        ret (internal_error message)))%io.

(** [{...result, took_ms}]. *)
Fixpoint set_field (k : string) (v : json) (fields : list (string * json))
  : list (string * json) :=
  match fields with
  | [] => [(k, v)]
  | (k', v') :: rest =>
      if String.eqb k k' then (k, v) :: rest else (k', v') :: set_field k v rest
  end.

(** [routes['/ask'].POST]. *)
Definition ask (request_json : outcome json) : io Env Response :=
  (try_catch
     (let! body := lift request_json in
      let! question := lift (prop body "question") in
      if negb (truthy question) || negb (is_string question) then
        ret (bad_request "Missing or invalid 'question' parameter")
      else
        let question := match question with Some (JStr s) => s | _ => "" end in
        let topK := number_or (field body "topK") DEFAULT_TOP_K in
        let similarityThreshold :=
          number_or (field body "similarityThreshold") SIMILARITY_THRESHOLD in
        let maxAnswerLength := number_or (field body "maxAnswerLength") (inject_Z 800) in
        let systemPrompt := string_or_undefined (field body "systemPrompt") in
        let! startTime := now in
        let! result :=
          call (AskQuestion question topK maxAnswerLength systemPrompt similarityThreshold)
               (askQuestion question topK maxAnswerLength systemPrompt similarityThreshold) in
        let! endTime := now in
        ret (ok_json (JObj (set_field "took_ms" (JNum (round2 (endTime - startTime)))
                                      result))))
     (fun message =>
        log_error "Ask error:" message ;;;
        ret (internal_error message)))%io.

(** [`data: ${JSON.stringify(event)}\n\n`]; the UTF-8 encoding of the text
    is left implicit. *)
Definition sseMessage (event : StreamEvent) : string :=
  "data: " +:+ stringify event +:+ "

".

(** The stream while [start] runs: its controller, and what the logger
    printed. *)
Record Stream : Type := {
  controller : Controller;
  console : list string;
}.

Definition opened : Stream := {| controller := fresh_controller; console := [] |}.

Definition on_controller {A : Type} (m : io Controller A) : io Stream A :=
  fun s =>
    let '(r, c) := m (controller s) in
    (r, {| controller := c; console := console s |}).

Definition stream_error (message : string) : io Stream unit :=
  modify (fun s => {| controller := controller s;
                      console := console s ++ ["Stream error: " +:+ message] |}).

(** [for await (const event of generator) controller.enqueue(...)]. *)
Fixpoint pump (g : Gen) : io Stream unit :=
  match g with
  | GYield event rest => (on_controller (enqueue (sseMessage event)) ;;; pump rest)%io
  | GReturn => ret tt
  | GThrow message => throw message
  end.

(** The [start(controller)] method of the stream. *)
Definition start (g : Gen) : io Stream unit :=
  (try_catch
     (pump g ;;; on_controller close)
     (fun message =>
        stream_error message ;;;
        on_controller (enqueue (sseMessage (ErrorEvent message))) ;;;
        on_controller close))%io.

Definition stream_headers : list (string * string) :=
  [("Content-Type", "text/event-stream"); ("Cache-Control", "no-cache");
   ("Connection", "keep-alive"); ("Access-Control-Allow-Origin", "*")].

(** [routes['/ask/stream'].POST], with the stream run to its end. *)
Definition ask_stream (request_json : outcome json) : io Env Response :=
  (try_catch
     (let! body := lift request_json in
      let! question := lift (prop body "question") in
      if negb (truthy question) || negb (is_string question) then
        ret (bad_request "Missing or invalid 'question' parameter")
      else
        let question := match question with Some (JStr s) => s | _ => "" end in
        let topK := number_or (field body "topK") DEFAULT_TOP_K in
        let similarityThreshold :=
          number_or (field body "similarityThreshold") SIMILARITY_THRESHOLD in
        let maxAnswerLength := number_or (field body "maxAnswerLength") (inject_Z 800) in
        let systemPrompt := string_or_undefined (field body "systemPrompt") in
        let! g :=
          call (StreamQuestion question topK maxAnswerLength systemPrompt similarityThreshold)
               (fun w =>
                  let '(g, w') := streamQuestion question topK maxAnswerLength
                                    systemPrompt similarityThreshold w in
                  (Ret g, w')) in
        let '(r, stream) := start g opened in
        modify (fun env => {| calls := calls env;
                              errors := errors env ++ console stream;
                              world := world env |}) ;;;
        ret {| status := 200; headers := stream_headers;
               body := EventStream r (controller stream) |})
     (fun message =>
        log_error "Ask stream error:" message ;;;
        ret (internal_error message)))%io.

(** *** The event sequence of a streamed answer *)

(** The run that yields [events] and then throws, or returns. *)
Definition run_of (events : list StreamEvent) (ending : option string) : Gen :=
  foldr GYield (match ending with Some message => GThrow message | None => GReturn end)
        events.

Lemma pump_run_of (events : list StreamEvent) (ending : option string) (s : Stream) :
  closed (controller s) = false ->
  pump (run_of events ending) s =
    (match ending with Some message => Throw message | None => Ret tt end,
     {| controller := {| enqueued := enqueued (controller s) ++ (sseMessage <$> events);
                         closed := false |};
        console := console s |}).
Proof.
  revert s. induction events as [|event events IH]; intros [[q cl] out] Hc;
    simpl in Hc; subst cl.
  - simpl. rewrite app_nil_r. destruct ending; reflexivity.
  - simpl. unfold bind, on_controller, enqueue. simpl. rewrite IH by reflexivity.
    simpl. rewrite <- app_assoc. reflexivity.
Qed.

Lemma start_run_of (events : list StreamEvent) (ending : option string) :
  start (run_of events ending) opened =
    (Ret tt,
     {| controller :=
          {| enqueued := (sseMessage <$> events)
                           ++ match ending with
                              | Some message => [sseMessage (ErrorEvent message)]
                              | None => []
                              end;
             closed := true |};
        console := match ending with
                   | Some message => ["Stream error: " +:+ message]
                   | None => []
                   end |}).
Proof.
  unfold start, try_catch, bind. rewrite pump_run_of by reflexivity.
  destruct ending as [message|]; simpl.
  - reflexivity.
  - rewrite app_nil_r. reflexivity.
Qed.

(** C3. A streamed answer whose generator yields the content deltas
    [deltas] and then fails with [message] puts on the stream exactly the
    messages of those deltas, in order, followed by one error event, and
    closes it; one that returns normally puts the deltas only and closes.
    After that the controller accepts no further event: every later
    [enqueue] throws and leaves the queue as it was. *)
Theorem stream_ends_with_at_most_one_error (deltas : list string) (ending : option string) :
  exists s,
    start (run_of (ContentDelta <$> deltas) ending) opened = (Ret tt, s)
    /\ enqueued (controller s)
         = (sseMessage <$> (ContentDelta <$> deltas))
             ++ match ending with
                | Some message => [sseMessage (ErrorEvent message)]
                | None => []
                end
    /\ closed (controller s) = true
    /\ forall chunk, exists e, enqueue chunk (controller s) = (Throw e, controller s).
Proof.
  eexists. split; [apply start_run_of|]. simpl. split_and!; auto.
  intros chunk. unfold enqueue. simpl. eauto.
Qed.

(** *** Validation *)

Lemma invalid_field (v : option json) :
  is_string v = false -> negb (truthy v) || negb (is_string v) = true.
Proof. intros ->. apply orb_true_r. Qed.

Lemma prop_field (body : json) (k : string) :
  body <> JNull -> prop body k = Ret (field body k).
Proof. destruct body; intros H; try reflexivity. contradiction. Qed.

(** A request whose body parses to a JSON value other
    than [null], and whose [query] field (for /search) or [question] field
    (for /ask and /ask/stream) is missing or not a string, is answered with
    status 400 and an error payload; the handler makes no call to the
    retrieval or answer services, logs nothing and leaves the world as it
    was, so nothing is retried. *)
Theorem invalid_request_is_rejected_with_400 (body : json) (env : Env) :
  body <> JNull ->
  (is_string (field body "query") = false ->
     search (Ret body) env
       = (Ret (bad_request "Missing or invalid 'query' parameter"), env))
  /\ (is_string (field body "question") = false ->
       ask (Ret body) env
         = (Ret (bad_request "Missing or invalid 'question' parameter"), env)
       /\ ask_stream (Ret body) env
            = (Ret (bad_request "Missing or invalid 'question' parameter"), env)).
Proof.
  intros Hnull. split; [intros Hfield | intros Hfield; split];
    unfold search, ask, ask_stream, try_catch, bind, lift;
    rewrite (prop_field body _ Hnull), (invalid_field _ Hfield); reflexivity.
Qed.

(** A body that is [null], or not JSON at all, takes the generic failure
    path of /search instead. *)
Lemma null_or_unparsed_body_is_answered_with_500 (request_json : outcome json) (env : Env) :
  match request_json with Ret JNull | Throw _ => True | _ => False end ->
  exists message,
    search request_json env
      = (Ret (internal_error message),
         {| calls := calls env; errors := errors env ++ ["Search error: " +:+ message];
            world := world env |}).
Proof.
  destruct request_json as [[]|message]; intros H; try contradiction;
    eexists; reflexivity.
Qed.

(** C7. The validation misses one request: a body that is the JSON value
    [null].  Such a body has no [query] and no [question] field, so the
    request is one of those that are to be refused with status 400; but
    the handlers read [body.query] (or [body.question]) before anything
    else, the read of a property of [null] throws, and the [catch] written
    for failures of the services answers with status 500, logs the error
    and sends the text of the [TypeError] to the client.  This holds on
    the three routes and from every state; no service is called.  Every
    other body without the field is refused with 400
    ([invalid_request_is_rejected_with_400]). *)
Theorem null_body_is_answered_with_500_on_every_route (env : Env) :
  let no_query := "null is not an object (evaluating 'body.query')" in
  let no_question := "null is not an object (evaluating 'body.question')" in
  is_string (field JNull "query") = false
  /\ is_string (field JNull "question") = false
  /\ search (Ret JNull) env
     = (Ret (internal_error no_query),
        {| calls := calls env; errors := errors env ++ ["Search error: " +:+ no_query];
           world := world env |})
  /\ ask (Ret JNull) env
     = (Ret (internal_error no_question),
        {| calls := calls env; errors := errors env ++ ["Ask error: " +:+ no_question];
           world := world env |})
  /\ ask_stream (Ret JNull) env
     = (Ret (internal_error no_question),
        {| calls := calls env;
           errors := errors env ++ ["Ask stream error: " +:+ no_question];
           world := world env |})
  /\ (forall message, status (internal_error message) = 500
                      /\ status (internal_error message) <> 400
                      /\ body (internal_error message)
                         = JsonBody (JObj [("error", JStr "Internal server error");
                                           ("message", JStr message)])).
Proof.
  intros no_query no_question. split_and!; try reflexivity.
  intros message. split_and!; [reflexivity | discriminate | reflexivity].
Qed.

(** *** Optional parameters *)

Lemma number_or_falsy (v : option json) (fallback : Q) :
  truthy v = false -> number_or v fallback = fallback.
Proof. intros H. unfold number_or. rewrite H. reflexivity. Qed.

Lemma prop_present (body : json) (k : string) (v : json) :
  field body k = Some v -> prop body k = Ret (Some v).
Proof. destruct body; simpl; intros H; try discriminate. rewrite H. reflexivity. Qed.

Lemma search_calls (body : json) (text : string) (env : Env) :
  Js.truthy text = true ->
  field body "query" = Some (JStr text) ->
  calls (search (Ret body) env).2
    = calls env
        ++ [SearchSimilar text
              (number_or (field body "topK") DEFAULT_TOP_K)
              (number_or (field body "similarityThreshold") SIMILARITY_THRESHOLD)].
Proof.
  intros Htext Hq.
  unfold search, try_catch, bind, lift. rewrite (prop_present _ _ _ Hq).
  simpl. rewrite Htext. simpl.
  unfold now, call, log_error, modify, ret. simpl.
  destruct (performance_now (world env)) as [t0 w0]. simpl.
  destruct (searchSimilar _ _ _ w0) as [[results|message] w1]; simpl;
    [destruct (performance_now w1) as [t1 w2]|]; reflexivity.
Qed.

Lemma ask_calls (body : json) (text : string) (env : Env) :
  Js.truthy text = true ->
  field body "question" = Some (JStr text) ->
  calls (ask (Ret body) env).2
    = calls env
        ++ [AskQuestion text
              (number_or (field body "topK") DEFAULT_TOP_K)
              (number_or (field body "maxAnswerLength") (inject_Z 800))
              (string_or_undefined (field body "systemPrompt"))
              (number_or (field body "similarityThreshold") SIMILARITY_THRESHOLD)].
Proof.
  intros Htext Hq.
  unfold ask, try_catch, bind, lift. rewrite (prop_present _ _ _ Hq).
  simpl. rewrite Htext. simpl.
  unfold now, call, log_error, modify, ret. simpl.
  destruct (performance_now (world env)) as [t0 w0]. simpl.
  destruct (askQuestion _ _ _ _ _ w0) as [[results|message] w1]; simpl;
    [destruct (performance_now w1) as [t1 w2]|]; reflexivity.
Qed.

Lemma ask_stream_calls (body : json) (text : string) (env : Env) :
  Js.truthy text = true ->
  field body "question" = Some (JStr text) ->
  calls (ask_stream (Ret body) env).2
    = calls env
        ++ [StreamQuestion text
              (number_or (field body "topK") DEFAULT_TOP_K)
              (number_or (field body "maxAnswerLength") (inject_Z 800))
              (string_or_undefined (field body "systemPrompt"))
              (number_or (field body "similarityThreshold") SIMILARITY_THRESHOLD)].
Proof.
  intros Htext Hq.
  unfold ask_stream, try_catch, bind, lift. rewrite (prop_present _ _ _ Hq).
  simpl. rewrite Htext. simpl.
  unfold call, log_error, modify, ret. simpl.
  destruct (streamQuestion _ _ _ _ _ (world env)) as [g w0]. simpl.
  destruct (start g opened) as [r stream]; reflexivity.
Qed.

(** C9. In a /search, /ask or /ask/stream request that passes validation,
    a [topK] that is falsy (0, [null], [false], the empty string, or
    absent) is replaced by [DEFAULT_TOP_K], and a falsy
    [similarityThreshold] by [SIMILARITY_THRESHOLD], in the one call the
    handler makes; in particular a requested threshold of 0 never reaches
    the retrieval engine. *)
Theorem falsy_parameters_take_the_defaults (body : json) (text : string) (env : Env) :
  Js.truthy text = true ->
  (field body "query" = Some (JStr text) ->
     exists topK threshold,
       calls (search (Ret body) env).2
         = calls env ++ [SearchSimilar text topK threshold]
       /\ (truthy (field body "topK") = false -> topK = DEFAULT_TOP_K)
       /\ (truthy (field body "similarityThreshold") = false ->
              threshold = SIMILARITY_THRESHOLD))
  /\ (field body "question" = Some (JStr text) ->
       exists topK threshold maxAnswerLength systemPrompt,
         calls (ask (Ret body) env).2
           = calls env
               ++ [AskQuestion text topK maxAnswerLength systemPrompt threshold]
         /\ calls (ask_stream (Ret body) env).2
              = calls env
                  ++ [StreamQuestion text topK maxAnswerLength systemPrompt threshold]
         /\ (truthy (field body "topK") = false -> topK = DEFAULT_TOP_K)
         /\ (truthy (field body "similarityThreshold") = false ->
                threshold = SIMILARITY_THRESHOLD))
  /\ truthy (Some (JNum (inject_Z 0))) = false.
Proof.
  intros Htext. split_and!.
  - intros Hq. eexists _, _. split; [apply search_calls; auto|].
    split; apply number_or_falsy.
  - intros Hq. eexists _, _, _, _.
    split; [apply ask_calls; auto|].
    split; [apply ask_stream_calls; auto|].
    split; apply number_or_falsy.
  - reflexivity.
Qed.

(** *** Every request is answered *)

(** A handler answers every request: it never throws, the status is 200,
    400 or 500, and it makes at most one call to the services. *)
Definition answers (handler : outcome json -> io Env Response) : Prop :=
  forall request_json env,
    exists resp env',
      handler request_json env = (Ret resp, env')
      /\ (status resp = 200 \/ status resp = 400 \/ status resp = 500)
      /\ (calls env' = calls env \/ exists c, calls env' = calls env ++ [c]).

Ltac answered :=
  eexists _, _; split; [reflexivity|]; simpl; split; [tauto|eauto].

(** Whatever the body of the request and whatever the services do, the
    three POST handlers return a response: failures inside a handler end as
    status 500, and no handler calls a service twice. *)
Theorem handlers_always_answer : answers search /\ answers ask /\ answers ask_stream.
Proof.
  split_and!; intros request_json env.
  - unfold search, try_catch, bind, lift, now, call, log_error, modify, ret.
    destruct request_json as [body|message]; [|answered].
    destruct (prop body "query") as [query|message]; [|answered].
    destruct (_ || _); [answered|].
    destruct (performance_now (world env)) as [t0 w0]. simpl.
    destruct (searchSimilar _ _ _ w0) as [[results|message] w1]; simpl; [|answered].
    destruct (performance_now w1) as [t1 w2]. answered.
  - unfold ask, try_catch, bind, lift, now, call, log_error, modify, ret.
    destruct request_json as [body|message]; [|answered].
    destruct (prop body "question") as [question|message]; [|answered].
    destruct (_ || _); [answered|].
    destruct (performance_now (world env)) as [t0 w0]. simpl.
    destruct (askQuestion _ _ _ _ _ w0) as [[result|message] w1]; simpl; [|answered].
    destruct (performance_now w1) as [t1 w2]. answered.
  - unfold ask_stream, try_catch, bind, lift, call, log_error, modify, ret.
    destruct request_json as [body|message]; [|answered].
    destruct (prop body "question") as [question|message]; [|answered].
    destruct (_ || _); [answered|].
    destruct (streamQuestion _ _ _ _ _ (world env)) as [g w0]. simpl.
    destruct (start g opened) as [r stream]. answered.
Qed.

(** *** What the answer carries *)


(** For a body that is not [null], the answer is a 400 exactly when the
    required field ([query] for /search, [question] for /ask and
    /ask/stream) is not a non-empty string: an empty string is rejected like
    a missing field, and nothing else is. *)
Theorem status_400_exactly_for_an_invalid_field (body : json) (env : Env) :
  body <> JNull ->
  (forall resp env',
     search (Ret body) env = (Ret resp, env') ->
     (status resp = 400
      <-> truthy (field body "query") && is_string (field body "query") = false))
  /\ (forall resp env',
        ask (Ret body) env = (Ret resp, env') ->
        (status resp = 400
         <-> truthy (field body "question") && is_string (field body "question") = false))
  /\ (forall resp env',
        ask_stream (Ret body) env = (Ret resp, env') ->
        (status resp = 400
         <-> truthy (field body "question") && is_string (field body "question") = false)).
Proof.
  intros Hnull.
  assert (Hcond : forall v, negb (truthy v) || negb (is_string v)
                            = negb (truthy v && is_string v))
    by (intros v; destruct (truthy v), (is_string v); reflexivity).
  split_and!; intros resp env';
    unfold search, ask, ask_stream, try_catch, bind, lift, now, call, log_error,
      modify, ret;
    rewrite (prop_field body _ Hnull), Hcond;
    destruct (truthy _ && is_string _); simpl.
  - destruct (performance_now (world env)) as [t0 w0]. simpl.
    destruct (searchSimilar _ _ _ w0) as [[results|message] w1]; simpl;
      [destruct (performance_now w1) as [t1 w2]|];
      intros [= <- _]; simpl; split; discriminate.
  - intros [= <- _]. simpl. tauto.
  - destruct (performance_now (world env)) as [t0 w0]. simpl.
    destruct (askQuestion _ _ _ _ _ w0) as [[results|message] w1]; simpl;
      [destruct (performance_now w1) as [t1 w2]|];
      intros [= <- _]; simpl; split; discriminate.
  - intros [= <- _]. simpl. tauto.
  - destruct (streamQuestion _ _ _ _ _ (world env)) as [g w0]. simpl.
    destruct (start g opened) as [r stream].
    intros [= <- _]; simpl; split; discriminate.
  - intros [= <- _]. simpl. tauto.
Qed.

(** *** The stream of any run *)

(** The events a run yields, and the message it fails with, if it fails. *)
Fixpoint yielded (g : Gen) : list StreamEvent :=
  match g with
  | GYield event rest => event :: yielded rest
  | GReturn | GThrow _ => []
  end.

Fixpoint failure (g : Gen) : option string :=
  match g with
  | GYield _ rest => failure rest
  | GReturn => None
  | GThrow message => Some message
  end.

Lemma run_of_yielded (g : Gen) : run_of (yielded g) (failure g) = g.
Proof.
  induction g as [event rest IH| |message]; simpl; [|reflexivity..].
  unfold run_of in *. simpl. rewrite IH. reflexivity.
Qed.

(** A /ask/stream request that passes validation is always answered with
    status 200 and an event stream, also when the model fails, even before
    its first event: the stream carries every event the model yielded, in
    order, then one error event if the model failed, and is closed; the
    failure is logged, and the HTTP status does not show it. *)
Theorem ask_stream_reports_failure_inside_the_stream (body : json) (text : string)
    (env : Env) :
  Js.truthy text = true ->
  field body "question" = Some (JStr text) ->
  let topK := number_or (field body "topK") DEFAULT_TOP_K in
  let threshold := number_or (field body "similarityThreshold") SIMILARITY_THRESHOLD in
  let maxAnswerLength := number_or (field body "maxAnswerLength") (inject_Z 800) in
  let systemPrompt := string_or_undefined (field body "systemPrompt") in
  let '(g, w) := streamQuestion text topK maxAnswerLength systemPrompt threshold
                                (world env) in
  ask_stream (Ret body) env
    = (Ret {| status := 200; headers := stream_headers;
              body := EventStream (Ret tt)
                        {| enqueued :=
                             (sseMessage <$> yielded g)
                               ++ match failure g with
                                  | Some message => [sseMessage (ErrorEvent message)]
                                  | None => []
                                  end;
                           closed := true |} |},
       {| calls := calls env
                   ++ [StreamQuestion text topK maxAnswerLength systemPrompt threshold];
          errors := errors env
                    ++ match failure g with
                       | Some message => ["Stream error: " +:+ message]
                       | None => []
                       end;
          world := w |}).
Proof.
  intros Htext Hq topK threshold maxAnswerLength systemPrompt.
  destruct (streamQuestion text topK maxAnswerLength systemPrompt threshold (world env))
    as [g w] eqn:Eg.
  pose proof (start_run_of (yielded g) (failure g)) as Hstart.
  rewrite run_of_yielded in Hstart.
  unfold ask_stream, try_catch, bind, lift. rewrite (prop_present _ _ _ Hq).
  cbn -[start]. rewrite Htext. cbn -[start].
  unfold call, modify, ret. fold topK threshold maxAnswerLength systemPrompt.
  rewrite Eg. cbn -[start]. rewrite Hstart.
  destruct (failure g); reflexivity.
Qed.

(** Numbers that are not zero are passed on as they come: the handlers
    check neither sign nor range, so a negative [topK] or a threshold
    outside [-1, 1] reaches the service unchanged. *)
Theorem nonzero_numbers_are_passed_unchecked (body : json) (text : string) (env : Env)
    (k threshold : Q) :
  Js.truthy text = true ->
  field body "topK" = Some (JNum k) ->
  Qeq_bool k (inject_Z 0) = false ->
  field body "similarityThreshold" = Some (JNum threshold) ->
  Qeq_bool threshold (inject_Z 0) = false ->
  (field body "query" = Some (JStr text) ->
     calls (search (Ret body) env).2 = calls env ++ [SearchSimilar text k threshold])
  /\ (field body "question" = Some (JStr text) ->
      exists maxAnswerLength systemPrompt,
        calls (ask (Ret body) env).2
          = calls env ++ [AskQuestion text k maxAnswerLength systemPrompt threshold]
        /\ calls (ask_stream (Ret body) env).2
           = calls env ++ [StreamQuestion text k maxAnswerLength systemPrompt threshold]).
Proof.
  intros Htext Hk Hk0 Hth Hth0.
  assert (HK : number_or (field body "topK") DEFAULT_TOP_K = k)
    by (rewrite Hk; unfold number_or; simpl; rewrite Hk0; reflexivity).
  assert (HT : number_or (field body "similarityThreshold") SIMILARITY_THRESHOLD
               = threshold)
    by (rewrite Hth; unfold number_or; simpl; rewrite Hth0; reflexivity).
  split; intros Hq.
  - rewrite (search_calls body text env Htext Hq), HK, HT. reflexivity.
  - eexists _, _. rewrite (ask_calls body text env Htext Hq),
      (ask_stream_calls body text env Htext Hq), HK, HT. split; reflexivity.
Qed.

End Handlers.

(** *** Concrete requests *)

Definition no_results (query : string) (topK threshold : Q) (w : unit)
  : outcome (list json) * unit := (Ret [], w).

Definition no_answer (question : string) (topK maxAnswerLength : Q)
    (systemPrompt : option string) (threshold : Q) (w : unit)
  : outcome (list (string * json)) * unit :=
  (Ret [("answer", JStr ""); ("sources", JArr [])], w).

(** A model backend that fails after three content deltas. *)
Definition three_then_fail (question : string) (topK maxAnswerLength : Q)
    (systemPrompt : option string) (threshold : Q) (w : unit) : Gen * unit :=
  (run_of [ContentDelta "Vec"; ContentDelta "tor "; ContentDelta "search"]
          (Some "model backend unavailable"), w).

Definition frozen_clock (w : unit) : Q * unit := (inject_Z 0, w).

Definition show_event (event : StreamEvent) : string :=
  match event with
  | ContentDelta content => "{content:" +:+ content +:+ "}"
  | ErrorEvent error => "{type:error,error:" +:+ error +:+ "}"
  end.

Definition idle : Env (World := unit) := {| calls := []; errors := []; world := tt |}.

Definition top_k_5 : Q := inject_Z 5.
Definition threshold_03 : Q := 3 # 10.

Example three_deltas_then_error :
  match ask_stream top_k_5 threshold_03 three_then_fail show_event
          (Ret (JObj [("question", JStr "What is vector search?")])) idle with
  | (Ret {| status := 200; body := EventStream (Ret tt) c |}, _) =>
      enqueued c = ["data: {content:Vec}

"; "data: {content:tor }

"; "data: {content:search}

"; "data: {type:error,error:model backend unavailable}

"] /\ closed c = true
  | _ => False
  end.
Proof. vm_compute. split; reflexivity. Qed.

(** On a body that is [null] the request has no [query] field, and the
    answer is 500, not 400. *)
Lemma null_body_is_answered_with_500_not_400 :
  is_string (field JNull "query") = false
  /\ search top_k_5 threshold_03 no_results frozen_clock (Ret JNull) idle
       = (Ret (internal_error "null is not an object (evaluating 'body.query')"),
          {| calls := [];
             errors := ["Search error: null is not an object (evaluating 'body.query')"];
             world := tt |})
  /\ status (internal_error "null is not an object (evaluating 'body.query')") <> 400.
Proof. split_and!; [reflexivity|reflexivity|discriminate]. Qed.

Lemma invalid_request_is_rejected_with_400_witness :
  search top_k_5 threshold_03 no_results frozen_clock
         (Ret (JObj [("topK", JNum top_k_5)])) idle
    = (Ret (bad_request "Missing or invalid 'query' parameter"), idle)
  /\ ask top_k_5 threshold_03 no_answer frozen_clock
          (Ret (JObj [("topK", JNum top_k_5)])) idle
       = (Ret (bad_request "Missing or invalid 'question' parameter"), idle)
  /\ ask_stream top_k_5 threshold_03 three_then_fail show_event
                 (Ret (JObj [("topK", JNum top_k_5)])) idle
       = (Ret (bad_request "Missing or invalid 'question' parameter"), idle).
Proof.
  destruct (invalid_request_is_rejected_with_400 top_k_5 threshold_03 no_results
              no_answer three_then_fail frozen_clock show_event
              (JObj [("topK", JNum top_k_5)]) idle) as [Hsearch Hask].
  - discriminate.
  - split; [apply Hsearch; reflexivity | apply Hask; reflexivity].
Defined.

(** A request that asks for [topK] 0 and a similarity threshold of 0. *)
Definition zero_request : json :=
  JObj [("query", JStr "roas"); ("question", JStr "roas");
        ("topK", JNum (inject_Z 0)); ("similarityThreshold", JNum (inject_Z 0))].

Lemma falsy_parameters_take_the_defaults_witness :
  (exists topK threshold,
     calls (search top_k_5 threshold_03 no_results frozen_clock
                   (Ret zero_request) idle).2
       = [SearchSimilar "roas" topK threshold]
     /\ topK = top_k_5 /\ threshold = threshold_03)
  /\ (exists topK threshold maxAnswerLength systemPrompt,
        calls (ask top_k_5 threshold_03 no_answer frozen_clock
                   (Ret zero_request) idle).2
          = [AskQuestion "roas" topK maxAnswerLength systemPrompt threshold]
        /\ calls (ask_stream top_k_5 threshold_03 three_then_fail show_event
                              (Ret zero_request) idle).2
             = [StreamQuestion "roas" topK maxAnswerLength systemPrompt threshold]
        /\ topK = top_k_5 /\ threshold = threshold_03).
Proof.
  destruct (falsy_parameters_take_the_defaults top_k_5 threshold_03 no_results
              no_answer three_then_fail frozen_clock show_event
              zero_request "roas" idle) as (Hsearch & Hask & _).
  - reflexivity.
  - split.
    + destruct Hsearch as (topK & threshold & Hcalls & HtopK & Hthreshold);
        [reflexivity|].
      exists topK, threshold. split; [exact Hcalls|].
      split; [apply HtopK | apply Hthreshold]; reflexivity.
    + destruct Hask as (topK & threshold & len & prompt & Hcalls & Hstream
                        & HtopK & Hthreshold); [reflexivity|].
      exists topK, threshold, len, prompt. split; [exact Hcalls|].
      split; [exact Hstream|].
      split; [apply HtopK | apply Hthreshold]; reflexivity.
Defined.

(** *** Concrete outcomes *)



(** An empty query is rejected like a missing one. *)
Definition empty_query : json := JObj [("query", JStr "")].

Lemma status_400_exactly_for_an_invalid_field_witness :
  empty_query <> JNull
  /\ (status (bad_request "Missing or invalid 'query' parameter") = 400
      <-> truthy (field empty_query "query") && is_string (field empty_query "query")
          = false).
Proof.
  split; [discriminate|].
  destruct (status_400_exactly_for_an_invalid_field top_k_5 threshold_03 no_results
              no_answer three_then_fail frozen_clock show_event empty_query idle
              ltac:(discriminate)) as (Hsearch & _ & _).
  apply (Hsearch _ idle). reflexivity.
Defined.

Lemma ask_stream_reports_failure_inside_the_stream_witness :
  ask_stream top_k_5 threshold_03 three_then_fail show_event (Ret zero_request) idle
    = (Ret {| status := 200; headers := stream_headers;
              body := EventStream (Ret tt)
                        {| enqueued :=
                             sseMessage show_event
                               <$> [ContentDelta "Vec"; ContentDelta "tor ";
                                    ContentDelta "search";
                                    ErrorEvent "model backend unavailable"];
                           closed := true |} |},
       {| calls := [StreamQuestion "roas" top_k_5 (inject_Z 800) None threshold_03];
          errors := ["Stream error: model backend unavailable"];
          world := tt |}).
Proof.
  exact (ask_stream_reports_failure_inside_the_stream top_k_5 threshold_03
           three_then_fail show_event zero_request "roas" idle eq_refl eq_refl).
Defined.

(** A request for minus three results above a similarity of seven. *)
Definition out_of_range_request : json :=
  JObj [("query", JStr "roas"); ("question", JStr "roas");
        ("topK", JNum (inject_Z (-3))); ("similarityThreshold", JNum (inject_Z 7))].

Lemma nonzero_numbers_are_passed_unchecked_witness :
  calls (search top_k_5 threshold_03 no_results frozen_clock
                (Ret out_of_range_request) idle).2
    = [SearchSimilar "roas" (inject_Z (-3)) (inject_Z 7)].
Proof.
  destruct (nonzero_numbers_are_passed_unchecked top_k_5 threshold_03 no_results
              no_answer three_then_fail frozen_clock show_event
              out_of_range_request "roas" idle (inject_Z (-3)) (inject_Z 7)
              eq_refl eq_refl eq_refl eq_refl eq_refl) as [Hsearch _].
  exact (Hsearch eq_refl).
Defined.

End Server.

(** ** utils/web.ts: URL checks *)

Module Web.

(** What [new URL(s)] exposes to [isValidUrl] and [normalizeUrl]: the
    protocol, and the serialization once [url.hash = ''] is set. *)
Record URL : Type := {
  protocol : string;
  href_without_hash : string;
}.

Section Urls.

(** [new URL(urlString)]; [None] when the constructor throws. *)
Variable parse : string -> option URL.

Definition isValidUrl (urlString : string) : bool :=
  match parse urlString with
  | Some url => String.eqb (protocol url) "http:" || String.eqb (protocol url) "https:"
  | None => false
  end.

Definition normalizeUrl (urlString : string) : string :=
  match parse urlString with
  | Some url =>
      let normalized := href_without_hash url in
      if Js.endsWith "/" normalized
      then Js.slice 0 (String.length normalized - 1) normalized
      else normalized
  | None => urlString
  end.

End Urls.

(** *** extractFromSnapshot *)

Record ExtractedContent : Type := {
  text : string;
  title : string;
  description : option string;
  url : string;
}.

Definition blank_line (line : string) : bool :=
  negb (0 <? String.length (Js.trim line)).

(** [lines.find(line => line.trim().length > 0)?.trim() || 'Untitled']. *)
Definition snapshot_title (lines : list string) : string :=
  match List.find (fun line => 0 <? String.length (Js.trim line)) lines with
  | Some line => Js.or_else (Js.trim line) "Untitled"
  | None => "Untitled"
  end.

Definition extractFromSnapshot (snapshot urlString : string) : ExtractedContent :=
  let lines := Js.split "010" snapshot in
  {| text := snapshot; title := snapshot_title lines; description := None;
     url := urlString |}.

(** The content extracted from a snapshot of ASCII characters (where the
    white space of JavaScript is that of this development) keeps the
    snapshot as its text and always has a title: the first line that is not
    blank, trimmed, and [Untitled] only when every line is blank. *)
Theorem snapshot_title_is_the_first_line_with_text (snapshot urlString : string) :
  Js.is_ascii snapshot = true ->
  let extracted := extractFromSnapshot snapshot urlString in
  let lines := Js.split "010" snapshot in
  text extracted = snapshot
  /\ url extracted = urlString
  /\ title extracted <> ""
  /\ (title extracted = "Untitled" /\ Forall (fun line => blank_line line = true) lines
      \/ exists before line after,
           lines = before ++ line :: after
           /\ Forall (fun line => blank_line line = true) before
           /\ blank_line line = false
           /\ title extracted = Js.trim line).
Proof.
  intros _ extracted lines. subst extracted. unfold extractFromSnapshot. fold lines.
  cbn [text url title]. split; [reflexivity|]. split; [reflexivity|].
  assert (Htrim : forall line,
             blank_line line = false ->
             Js.or_else (Js.trim line) "Untitled" = Js.trim line
             /\ Js.trim line <> "").
  { intros line. unfold blank_line, Js.or_else.
    destruct (Js.trim line); simpl; [discriminate|]. split; [reflexivity|discriminate]. }
  generalize lines. clear lines. intros lines. unfold snapshot_title.
  induction lines as [|line lines IH]; simpl.
  - split; [discriminate|]. left. split; [reflexivity|constructor].
  - destruct (0 <? String.length (Js.trim line)) eqn:Hline.
    + assert (Hb : blank_line line = false) by (unfold blank_line; rewrite Hline; reflexivity).
      destruct (Htrim line Hb) as [-> Hne]. split; [exact Hne|].
      right. exists [], line, lines. split_and!; auto.
    + assert (Hb : blank_line line = true) by (unfold blank_line; rewrite Hline; reflexivity).
      destruct IH as [Hne [[Ht Hall]|(before & l & after & -> & Hall & Hl & Ht)]].
      * split; [exact Hne|]. left. split; [exact Ht|]. constructor; assumption.
      * split; [exact Hne|]. right. exists (line :: before), l, after.
        split_and!; auto.
Qed.

(** A snapshot that begins with two blank lines. *)
Definition heading_after_blank_lines : string :=
  String "010" ("  " +:+ String "010" (" Heading " +:+ String "010" "Body")).

Lemma snapshot_title_is_the_first_line_with_text_witness :
  Js.is_ascii heading_after_blank_lines = true
  /\ text (extractFromSnapshot heading_after_blank_lines "https://s.example/")
     = heading_after_blank_lines
  /\ title (extractFromSnapshot heading_after_blank_lines "https://s.example/")
     = "Heading".
Proof.
  split; [reflexivity|].
  destruct (snapshot_title_is_the_first_line_with_text heading_after_blank_lines
              "https://s.example/" eq_refl) as (Htext & _ & _ & _).
  split; [exact Htext | reflexivity].
Defined.

(** *** One trailing slash *)

Lemma rev_app_append (s acc : string) :
  String.rev_app s acc = String.rev_app s "" +:+ acc.
Proof.
  revert acc. induction s as [|c s IH]; intros acc; [reflexivity|].
  cbn [String.rev_app]. rewrite IH, (IH (String c "")), Sitemap.append_assoc.
  reflexivity.
Qed.

Lemma rev_append (s t : string) : String.rev (s +:+ t) = String.rev t +:+ String.rev s.
Proof.
  unfold String.rev. induction s as [|c s IH].
  - rewrite Sitemap.append_empty_l, Sitemap.append_empty_r. reflexivity.
  - rewrite Sitemap.append_step. cbn [String.rev_app].
    rewrite rev_app_append, IH, (rev_app_append s (String c "")), Sitemap.append_assoc.
    reflexivity.
Qed.

Lemma endsWith_slash (h : string) : Js.endsWith "/" (h +:+ "/") = true.
Proof. unfold Js.endsWith. rewrite rev_append. apply Sitemap.prefix_append. Qed.

Lemma slice_without_last (h : string) (c : ascii) :
  Js.slice 0 (String.length (h +:+ String c "") - 1) (h +:+ String c "") = h.
Proof.
  unfold Js.slice. rewrite Sitemap.length_append. cbn [String.length].
  replace (String.length h + 1 - 1 - 0) with (String.length h) by lia.
  apply Sitemap.substring_take.
Qed.

(** [normalizeUrl] removes exactly one trailing slash from the serialized
    URL: an address and the same address followed by a slash are normalized
    to the same string, while of two trailing slashes one stays; an address
    without a trailing slash is returned as serialized, and a string that is
    not a URL is returned as it is. *)
Theorem normalizeUrl_removes_one_trailing_slash (parse : string -> option URL)
    (urlString : string) :
  match parse urlString with
  | Some parsed =>
      (forall h, href_without_hash parsed = h +:+ "/" ->
                 normalizeUrl parse urlString = h)
      /\ (Js.endsWith "/" (href_without_hash parsed) = false ->
          normalizeUrl parse urlString = href_without_hash parsed)
  | None => normalizeUrl parse urlString = urlString
  end.
Proof.
  unfold normalizeUrl. destruct (parse urlString) as [parsed|]; [|reflexivity].
  cbv zeta. split.
  - intros h ->. rewrite endsWith_slash. apply slice_without_last.
  - intros ->. reflexivity.
Qed.

End Web.

(** ** services/ingest.ts *)

Module Ingest.

Definition vector : Type := list Q.

Record IngestResult : Type := {
  filename : string;
  chunks_created : nat;
  success : bool;
  error : option string;
}.

Definition failed (name message : string) : IngestResult :=
  {| filename := name; chunks_created := 0; success := false; error := Some message |}.

Definition succeeded (name : string) (count : nat) : IngestResult :=
  {| filename := name; chunks_created := count; success := true; error := None |}.

(** Values of the metadata objects. *)
#[local] Set Warnings "-register-all".
Inductive meta : Type :=
| MNull
| MBool (b : bool)
| MNum (n : Z)
| MStr (s : string)
| MObj (fields : list (string * meta)).

(** [x || null] on an optional string. *)
Definition or_null (x : option string) : meta :=
  match x with
  | Some s => if Js.truthy s then MStr s else MNull
  | None => MNull
  end.

(** A row of the vector index store, as [insertDocument] receives it;
    [embedding = None] is an [undefined] content vector. *)
Record Chunk : Type := {
  chunk_id : nat;
  source : string;
  content : string;
  chunk_text : string;
  embedding : option vector;
  chunk_index : nat;
  chunk_size : nat;
  hypothetical_questions : list string;
  question_embeddings : list vector;
  chunk_metadata : list (string * meta);
}.

(** The columns a CSV row maps, as [detectCSVSchema] reports them. *)
Record CSVSchema : Type := {
  detected : bool;
  title_column : option string;
  content_column : option string;
  link_column : option string;
  collection_column : option string;
  html_column : option string;
  thesis_column : option string;
}.

Record Extracted : Type := {
  text : string;
  title : string;
  description : string;
  url : string;
}.

Set Implicit Arguments.

(** The process state of an ingestion run: the store and the world outside. *)
Record State (World : Type) : Type := {
  db : list Chunk;
  world : World;
}.

(** The collaborators of the ingestion service that are not part of it:
    constants, helpers of other modules, the models, the browser, the file
    system and the clock. *)
Record Collaborators (World : Type) : Type := {
  (* constants/rag *)
  CHUNK_SIZE : nat;
  USE_SEMANTIC_CHUNKING : bool;
  (* utils/text *)
  extractTextFromFile : string -> World -> outcome string * World;
  semanticChunking : string -> World -> outcome (list string) * World;
  chunkText : string -> list string;
  normalizeForEmbedding : string -> string;
  stripHtml : string -> string;
  (* services/embeddings and services/questions *)
  generateEmbeddings : list string -> World -> outcome (list vector) * World;
  getEmbeddingModelVersion : World -> string;
  generateQuestions : string -> World -> outcome (list string) * World;
  initializeQuestionGenerator : World -> outcome unit * World;
  (* utils/csvs *)
  parseCSV : string -> list (list (string * string));
  detectCSVSchema : list string -> CSVSchema;
  (* utils/code *)
  CODE_FILE_EXTENSIONS : list string;
  ingestCodeFile : string -> State World -> outcome IngestResult * State World;
  (* Bun and the clock *)
  readText : string -> World -> outcome string * World;
  globScan : string -> string -> World -> outcome (list string) * World;
  now_iso : World -> string * World;
  (* sitemap fetching *)
  fetch : string -> World -> outcome Sitemap.Response * World;
  gunzipSync : list Byte.byte -> outcome (list Byte.byte);
  decode : list Byte.byte -> string;
  parseURL : string -> option Web.URL;
  (* Playwright *)
  chromium_launch : World -> outcome unit * World;
  browser_newPage : World -> outcome unit * World;
  page_goto : string -> World -> outcome unit * World;
  page_waitForTimeout : nat -> World -> outcome unit * World;
  page_title : World -> outcome string * World;
  page_removeClutter : World -> outcome unit * World;
  page_innerText_body : World -> outcome string * World;
  page_metaDescription : World -> outcome (option string) * World;
  page_close : World -> outcome unit * World;
  browser_close : World -> outcome unit * World;
  (* the three regular-expression replacements applied to the body text *)
  squeeze : string -> string;
}.

Unset Implicit Arguments.
Arguments db {World} s.
Arguments world {World} s.

Section Service.

Context {World : Type} (ops : Collaborators World).

Local Open Scope io_scope.

(** A call to a collaborator outside the process. *)
Definition ext {A : Type} (f : World -> outcome A * World) : io (State World) A :=
  fun st =>
    let '(r, w) := f (world st) in
    (r, {| db := db st; world := w |}).

Definition date : io (State World) string :=
  fun st =>
    let '(d, w) := now_iso ops (world st) in
    (Ret d, {| db := db st; world := w |}).

(** Modelled from the spec: [insertDocument] of [db/schema] is not among
    the sources.  Section 4.4: insert one chunk record, with its content
    vector and zero or more question vectors, returning a generated
    identifier; records are appended and identifiers grow. *)
Definition insertDocument (name fullContent chunk : string) (contentEmbedding : option vector)
    (index size : nat) (questions : list string) (questionEmbeddings : list vector)
    (metadata : list (string * meta)) : io (State World) nat :=
  fun st =>
    let documentId := S (length (db st)) in
    (Ret documentId,
     {| db := db st
              ++ [{| chunk_id := documentId; source := name; content := fullContent;
                     chunk_text := chunk; embedding := contentEmbedding;
                     chunk_index := index; chunk_size := size;
                     hypothetical_questions := questions;
                     question_embeddings := questionEmbeddings;
                     chunk_metadata := metadata |}];
        world := world st |}).

(** [content.length > CHUNK_SIZE ? (USE_SEMANTIC_CHUNKING ?
    await semanticChunking(content) : chunkText(content)) : [content]]. *)
Definition split_into_chunks (content : string) : io (State World) (list string) :=
  if CHUNK_SIZE ops <? String.length content then
    if USE_SEMANTIC_CHUNKING ops then ext (semanticChunking ops content)
    else ret (chunkText ops content)
  else ret [content].

(** [questions.length > 0 ? await generateEmbeddings(questions.map(
    normalizeForEmbedding)) : []]. *)
Definition embedQuestions (questions : list string) : io (State World) (list vector) :=
  if 0 <? length questions then
    ext (generateEmbeddings ops (normalizeForEmbedding ops <$> questions))
  else ret [].

Definition chunking_strategy : meta :=
  MStr (if USE_SEMANTIC_CHUNKING ops then "semantic" else "fixed-size").

(** [s.indexOf(needle)]. *)
Definition indexOf (needle s : string) : Z :=
  match String.index 0 needle s with
  | Some i => Z.of_nat i
  | None => (-1)%Z
  end.

(** [filePath.split('/').pop() || filePath]. *)
Definition basename (filePath : string) : string :=
  Js.or_else (default "" (Js.pop (Js.split "/" filePath))) filePath.

(** [filePath.toLowerCase().split('.').pop()]. *)
Definition extension (filePath : string) : option string :=
  Js.pop (Js.split "." (Js.toLowerCase filePath)).

(** *** ingestCSV *)

(** [row[column]]. *)
Fixpoint lookup_column (column : string) (row : list (string * string)) : option string :=
  match row with
  | [] => None
  | (k, v) :: rest => if String.eqb column k then Some v else lookup_column column rest
  end.

(** [schema.x ? row[schema.x] || '' : '']. *)
Definition cell (column : option string) (row : list (string * string)) : string :=
  match column with
  | Some c =>
      if Js.truthy c then Js.or_else (default "" (lookup_column c row)) "" else ""
  | None => ""
  end.

(** [key.toLowerCase().replace(/\s+/g, '_')]. *)
Fixpoint underscore_spaces (in_run : bool) (s : string) : string :=
  match s with
  | EmptyString => EmptyString
  | String c s' =>
      if Ascii.is_space c then
        if in_run then underscore_spaces true s'
        else String "_" (underscore_spaces true s')
      else String c (underscore_spaces false s')
  end.

Definition metadata_key (k : string) : string :=
  "csv_" +:+ underscore_spaces false (Js.toLowerCase k).

(** [object[k] = v]. *)
Fixpoint assign (k : string) (v : meta) (fields : list (string * meta))
  : list (string * meta) :=
  match fields with
  | [] => [(k, v)]
  | (k', v') :: rest =>
      if String.eqb k k' then (k, v) :: rest else (k', v') :: assign k v rest
  end.

Definition blank (s : string) : bool := negb (Js.truthy (Js.trim s)).

Definition csvBaseMetadata (schema : CSVSchema) (modelVersion ingestion_date : string)
    (rowIdx : nat) (row : list (string * string)) : list (string * meta) :=
  foldl (fun metadata kv =>
           if Js.truthy kv.2 && negb (blank kv.2)
           then assign (metadata_key kv.1) (MStr kv.2) metadata
           else metadata)
        [("source_type", MStr "csv");
         ("row_index", MNum (Z.of_nat rowIdx));
         ("embedding_model", MStr modelVersion);
         ("ingestion_date", MStr ingestion_date);
         ("schema_mapping",
          MObj [("title_column", or_null (title_column schema));
                ("content_column", or_null (content_column schema));
                ("link_column", or_null (link_column schema));
                ("collection_column", or_null (collection_column schema));
                ("html_column", or_null (html_column schema));
                ("thesis_column", or_null (thesis_column schema))])]
        row.

Definition some_truthy (x : option string) : bool :=
  match x with Some s => Js.truthy s | None => false end.

(** The body of [for (let chunkIdx ...)] in [ingestCSV]. *)
Definition ingestCSVChunk (docIdentifier combinedText thesisField : string)
    (baseMetadata : list (string * meta)) (total : nat) (chunkIdx : nat) (chunk : string)
  : io (State World) unit :=
  let normalizedChunk := normalizeForEmbedding ops chunk in
  let! embeddings := ext (generateEmbeddings ops [normalizedChunk]) in
  let chunkEmbedding := head embeddings in
  let! questions :=
    if Js.truthy thesisField && negb (blank thesisField)
    then ret [Js.trim thesisField]
    else ext (generateQuestions ops chunk) in
  let! questionEmbeddings := embedQuestions questions in
  let chunkMetadata :=
    assign "is_chunked" (MBool (1 <? total))
      (assign "total_chunks_in_row" (MNum (Z.of_nat total))
         (assign "chunk_index" (MNum (Z.of_nat chunkIdx)) baseMetadata)) in
  let chunkDocId :=
    if 1 <? total
    then docIdentifier +:+ " [Chunk " +:+ pretty (chunkIdx + 1) +:+ "/"
           +:+ pretty total +:+ "]"
    else docIdentifier in
  let! _ := insertDocument chunkDocId combinedText chunk chunkEmbedding chunkIdx
              (String.length chunk) questions questionEmbeddings chunkMetadata in
  ret tt.

(** The body of [for (let rowIdx ...)]: the number of chunks it stored. *)
Definition ingestCSVRow (name : string) (schema : CSVSchema) (modelVersion : string)
    (rowIdx : nat) (row : list (string * string)) : io (State World) nat :=
  let title := cell (title_column schema) row in
  let contentField := cell (content_column schema) row in
  let link := cell (link_column schema) row in
  let collection := cell (collection_column schema) row in
  let htmlField := cell (html_column schema) row in
  let thesisField := cell (thesis_column schema) row in
  let contentClean := stripHtml ops contentField in
  let htmlClean := if Js.truthy htmlField then stripHtml ops htmlField else "" in
  let textParts :=
    [title; contentClean]
      ++ (if Js.truthy htmlClean && negb (String.eqb htmlClean contentClean)
          then [htmlClean] else [])
      ++ (if Js.truthy link then [link] else [])
      ++ (if Js.truthy collection then [collection] else []) in
  let combinedText :=
    String.concat "

" (filter (fun part => blank part = false) textParts) in
  if blank combinedText then ret 0
  else
    let docIdentifier :=
      if Js.truthy title then name +:+ " - " +:+ title
      else name +:+ " - Row " +:+ pretty (rowIdx + 1) in
    let! ingestion_date := date in
    let baseMetadata := csvBaseMetadata schema modelVersion ingestion_date rowIdx row in
    let! chunks :=
      if Js.truthy thesisField && negb (blank thesisField) then ret [combinedText]
      else split_into_chunks combinedText in
    forEach (ingestCSVChunk docIdentifier combinedText thesisField baseMetadata
                            (length chunks))
            chunks ;;;
    ret (length chunks).

(** The rows loop, on [processedCount]. *)
Fixpoint ingestCSVRows (name : string) (schema : CSVSchema) (modelVersion : string)
    (rowIdx : nat) (rows : list (list (string * string))) (processedCount : nat)
  : io (State World) nat :=
  match rows with
  | [] => ret processedCount
  | row :: rest =>
      let! stored := ingestCSVRow name schema modelVersion rowIdx row in
      ingestCSVRows name schema modelVersion (S rowIdx) rest (processedCount + stored)
  end.

Definition ingestCSV (filePath : string) : io (State World) IngestResult :=
  let name := basename filePath in
  try_catch
    (let! content := ext (readText ops filePath) in
     let rows := parseCSV ops content in
     if length rows =? 0 then ret (failed name "No rows found in CSV file")
     else
       let columns := fst <$> default [] (head rows) in
       let schema := detectCSVSchema ops columns in
       (if some_truthy (thesis_column schema) then ret tt
        else ext (initializeQuestionGenerator ops)) ;;;
       let! st := get in
       let modelVersion := getEmbeddingModelVersion ops (world st) in
       let! processedCount := ingestCSVRows name schema modelVersion 0 rows 0 in
       ret (succeeded name processedCount))
    (fun message =>
       throw ("Failed to ingest CSV file " +:+ name +:+ ": " +:+ message)).

(** *** ingestFile *)

(** The body of the insertion loop of [ingestFile]. *)
Definition insertFileChunk (name content : string) (total : nat)
    (contentEmbeddings : list vector) (allQuestions : list (list string))
    (allQuestionEmbeddings : list (list vector)) (modelVersion : string)
    (i : nat) (chunk : string) : io (State World) unit :=
  let contentEmbedding := contentEmbeddings !! i in
  let questions := default [] (allQuestions !! i) in
  let questionEmbeddings := default [] (allQuestionEmbeddings !! i) in
  let! ingestion_date := date in
  let chunkMetadata :=
    [("chunk_index", MNum (Z.of_nat i));
     ("total_chunks", MNum (Z.of_nat total));
     ("char_start", MNum (indexOf chunk content));
     ("char_end", MNum (indexOf chunk content + Z.of_nat (String.length chunk)));
     ("embedding_model", MStr modelVersion);
     ("chunking_strategy", chunking_strategy);
     ("ingestion_date", MStr ingestion_date)] in
  let! _ := insertDocument name content chunk contentEmbedding i (String.length chunk)
              questions questionEmbeddings chunkMetadata in
  ret tt.

(** The [try] block of [ingestFile], entered once the file is known to be
    neither CSV nor code. *)
Definition ingestText (name filePath : string) : io (State World) IngestResult :=
  let! content := ext (extractTextFromFile ops filePath) in
  if negb (Js.truthy content) || (String.length (Js.trim content) =? 0) then
    ret (failed name "No text content found in file")
  else
    let! chunks := split_into_chunks content in
    if length chunks =? 0 then
      ret (failed name "No valid chunks created from content")
    else
      ext (initializeQuestionGenerator ops) ;;;
      let normalizedChunks := normalizeForEmbedding ops <$> chunks in
      let! contentEmbeddings := ext (generateEmbeddings ops normalizedChunks) in
      let! allQuestions := mapM (fun chunk => ext (generateQuestions ops chunk)) chunks in
      let! allQuestionEmbeddings := mapM embedQuestions allQuestions in
      let! st := get in
      let modelVersion := getEmbeddingModelVersion ops (world st) in
      forEach (insertFileChunk name content (length chunks) contentEmbeddings
                               allQuestions allQuestionEmbeddings modelVersion)
              chunks ;;;
      ret (succeeded name (length chunks)).

Definition is_code_extension (ext : option string) : bool :=
  match ext with
  | Some e => Js.truthy e && bool_decide (e ∈ CODE_FILE_EXTENSIONS ops)
  | None => false
  end.

Definition ingestFile (filePath : string) : io (State World) IngestResult :=
  let name := basename filePath in
  let ext := extension filePath in
  if bool_decide (ext = Some "csv") then ingestCSV filePath
  else if is_code_extension ext then ingestCodeFile ops filePath
  else
    try_catch (ingestText name filePath)
      (fun message =>
         throw ("Failed to ingest file " +:+ name +:+ ": " +:+ message)).

(** *** ingestDirectory *)

(** A function body with its local variables [L] next to the process state. *)
Record Frame (L : Type) : Type := {
  locals : L;
  process : State World;
}.
Arguments locals {L} f.
Arguments process {L} f.

(** Run a step on the process state, leaving the locals alone. *)
Definition step {L A : Type} (m : io (State World) A) : io (Frame L) A :=
  fun f =>
    let '(r, st) := m (process f) in
    (r, {| locals := locals f; process := st |}).

Definition update {L : Type} (g : L -> L) : io (Frame L) unit :=
  modify (fun f => {| locals := g (locals f); process := process f |}).

Definition read {L : Type} : io (Frame L) L := fun f => (Ret (locals f), f).

Definition globPattern : string :=
  "**/*.{pdf,txt,csv," +:+ String.concat "," (CODE_FILE_EXTENSIONS ops) +:+ "}".

(** [ingestDirectory]; the local variable is [results]. *)
Definition ingestDirectory (directoryPath : string)
  : io (State World) (list IngestResult) :=
  fun st =>
    let '(r, f) :=
      try_catch
        (let! files := step (ext (globScan ops globPattern directoryPath)) in
         if length files =? 0 then read
         else
           forEach (fun _ file =>
                      let fullPath := directoryPath +:+ "/" +:+ file in
                      let! result := step (ingestFile fullPath) in
                      update (fun results => results ++ [result]))
                   files ;;;
           read)
        (fun _ => read)
        {| locals := []; process := st |} in
    (r, process f).

(** *** ingestSitemap *)

Record SitemapLocals : Type := {
  results : list IngestResult;
  browser : bool;
  page : bool;
}.

Definition push (r : IngestResult) : io (Frame SitemapLocals) unit :=
  update (fun l => {| results := results l ++ [r]; browser := browser l; page := page l |}).

(** [await extractAllUrls(sitemapUrl)], with the default depth bound. *)
Definition extractAllUrls (sitemapUrl : string)
  : io (State World) (list Sitemap.SitemapUrl) :=
  fun st =>
    match Sitemap.extractAllUrls (fetch ops) (gunzipSync ops) (decode ops)
            Sitemap.DEFAULT_MAX_DEPTH (Sitemap.DEFAULT_MAX_DEPTH + 2)
            sitemapUrl (world st) with
    | Some (r, final) => (r, {| db := db st; world := Sitemap.world final |})
    | None => (Throw "extractAllUrls did not return", st)
    end.

(** Lines 480 to 585: load the page and build [extracted]. *)
Definition extractPage (pageUrl normalizedUrl : string) (pageOpen : bool)
  : io (State World) Extracted :=
  (if pageOpen then ret tt else throw "Browser page not initialized") ;;;
  ext (page_goto ops pageUrl) ;;;
  ext (page_waitForTimeout ops 2000) ;;;
  let! pageTitle := ext (page_title ops) in
  ext (page_removeClutter ops) ;;;
  let! bodyText := ext (page_innerText_body ops) in
  let mainText := Js.trim (squeeze ops bodyText) in
  let! description :=
    try_catch
      (let! metaDesc := ext (page_metaDescription ops) in
       ret (Js.or_else (default "" metaDesc) ""))
      (fun _ => ret "") in
  ret {| text := mainText; title := Js.or_else pageTitle "Untitled";
         description := description; url := normalizedUrl |}.

(** The body of [for (let chunkIdx ...)] in [ingestSitemap]. *)
Definition ingestPageChunk (sitemapUrl : string) (entry : Sitemap.SitemapUrl)
    (extracted : Extracted) (modelVersion : string) (total : nat)
    (chunkIdx : nat) (chunk : string) : io (State World) unit :=
  let normalizedChunk := normalizeForEmbedding ops chunk in
  let! embeddings := ext (generateEmbeddings ops [normalizedChunk]) in
  let chunkEmbedding := head embeddings in
  let! questions := ext (generateQuestions ops chunk) in
  let! questionEmbeddings := embedQuestions questions in
  let! ingestion_date := date in
  let chunkMetadata :=
    [("source_type", MStr "sitemap");
     ("source_url", MStr (url extracted));
     ("sitemap_source", MStr sitemapUrl);
     ("page_title", MStr (title extracted));
     ("page_description", or_null (Some (description extracted)));
     ("chunk_index", MNum (Z.of_nat chunkIdx));
     ("total_chunks", MNum (Z.of_nat total));
     ("is_chunked", MBool (1 <? total));
     ("embedding_model", MStr modelVersion);
     ("chunking_strategy", chunking_strategy);
     ("ingestion_date", MStr ingestion_date);
     ("lastmod", or_null (Sitemap.lastmod entry));
     ("priority", or_null (Sitemap.priority entry))] in
  let docIdentifier :=
    if 1 <? total
    then title extracted +:+ " [Chunk " +:+ pretty (chunkIdx + 1) +:+ "/"
           +:+ pretty total +:+ "]"
    else title extracted in
  let! _ := insertDocument docIdentifier (text extracted) chunk chunkEmbedding chunkIdx
              (String.length chunk) questions questionEmbeddings chunkMetadata in
  ret tt.

(** The body of [for (let i ...)] over the sitemap entries. *)
Definition ingestSitemapEntry (sitemapUrl modelVersion : string)
    (entry : Sitemap.SitemapUrl) : io (Frame SitemapLocals) unit :=
  let pageUrl := Sitemap.loc entry in
  if negb (Web.isValidUrl (parseURL ops) pageUrl) then
    push (failed pageUrl "Invalid URL")
  else
    let normalizedUrl := Web.normalizeUrl (parseURL ops) pageUrl in
    try_catch
      (let! l := read in
       let! extracted := step (extractPage pageUrl normalizedUrl (page l)) in
       if negb (Js.truthy (text extracted))
          || (String.length (Js.trim (text extracted)) =? 0)
       then push (failed normalizedUrl "No content extracted")
       else
         let! chunks := step (split_into_chunks (text extracted)) in
         step (forEach (ingestPageChunk sitemapUrl entry extracted modelVersion
                                        (length chunks))
                       chunks) ;;;
         push (succeeded normalizedUrl (length chunks)))
      (fun errorMsg => push (failed normalizedUrl errorMsg)).

(** [promise.catch(e => console.error(...))]. *)
Definition swallow (m : io (State World) unit) : io (State World) unit :=
  try_catch m (fun _ => ret tt).

Definition ingestSitemap (sitemapUrl : string) : io (State World) (list IngestResult) :=
  fun st =>
    let '(r, f) :=
      finally
        (try_catch
           (let! sitemapUrls := step (extractAllUrls sitemapUrl) in
            if length sitemapUrls =? 0 then
              let! l := read in ret (results l)
            else
              step (ext (chromium_launch ops)) ;;;
              update (fun l => {| results := results l; browser := true;
                                  page := page l |}) ;;;
              step (ext (browser_newPage ops)) ;;;
              update (fun l => {| results := results l; browser := browser l;
                                  page := true |}) ;;;
              step (ext (initializeQuestionGenerator ops)) ;;;
              let! st := step get in
              let modelVersion := getEmbeddingModelVersion ops (world st) in
              forEach (fun _ entry => ingestSitemapEntry sitemapUrl modelVersion entry)
                      sitemapUrls ;;;
              let! l := read in ret (results l))
           (fun message =>
              throw ("Failed to ingest sitemap " +:+ sitemapUrl +:+ ": " +:+ message)))
        (let! l := read in
         (if page l then step (swallow (ext (page_close ops))) else ret tt) ;;;
         (if browser l then step (swallow (ext (browser_close ops))) else ret tt))
        {| locals := {| results := []; browser := false; page := false |};
           process := st |} in
    (r, process f).

(** *** Stepping through a run *)

Lemma bind_ret {St A B : Type} (m : io St A) (k : A -> io St B) (s s' : St) (a : A) :
  m s = (Ret a, s') -> bind m k s = k a s'.
Proof. intros E. unfold bind. rewrite E. reflexivity. Qed.

Lemma bind_throw {St A B : Type} (m : io St A) (k : A -> io St B) (s s' : St)
    (e : string) :
  m s = (Throw e, s') -> bind m k s = (Throw e, s').
Proof. intros E. unfold bind. rewrite E. reflexivity. Qed.

Lemma ext_run {A : Type} (f : World -> outcome A * World) (st : State World)
    (r : outcome A) (w : World) :
  f (world st) = (r, w) -> ext f st = (r, {| db := db st; world := w |}).
Proof. intros E. unfold ext. rewrite E. reflexivity. Qed.

Lemma ext_db {A : Type} (f : World -> outcome A * World) (st : State World) :
  db (ext f st).2 = db st.
Proof. unfold ext. destruct (f (world st)). reflexivity. Qed.

Lemma step_run {L A : Type} (m : io (State World) A) (f : Frame L)
    (r : outcome A) (st : State World) :
  m (process f) = (r, st) -> step m f = (r, {| locals := locals f; process := st |}).
Proof. intros E. unfold step. rewrite E. reflexivity. Qed.

(** Loading a page does not touch the store. *)
Lemma extractPage_db (pageUrl normalizedUrl : string) (pageOpen : bool) (st : State World) :
  db (extractPage pageUrl normalizedUrl pageOpen st).2 = db st.
Proof.
  unfold extractPage, bind, try_catch, ret, throw.
  destruct pageOpen; [|reflexivity].
  repeat match goal with
         | |- context [ext ?f ?s] =>
             let E := fresh "E" in
             pose proof (ext_db f s) as E;
             destruct (ext f s) as [[?|?] ?]; simpl in E |- *; try rewrite E;
             try reflexivity; try congruence
         end.
Qed.

(** *** Empty sources *)


(** *** Questions and their vectors stay aligned *)

Section Alignment.

(** [embeds t v]: the vector [v] is the embedding of the text [t]. *)
Variable embeds : string -> vector -> Prop.

(** The i-th question vector of a chunk embeds its i-th normalized
    question; in particular there are as many vectors as questions. *)
Definition aligned (c : Chunk) : Prop :=
  Forall2 embeds (normalizeForEmbedding ops <$> hypothetical_questions c)
          (question_embeddings c).

(** [appends store m Q]: whatever the start state, [m] only appends aligned
    rows to the store, and a value it returns satisfies [Q]. *)
Definition appends {St A : Type} (store : St -> list Chunk) (m : io St A)
    (Q : A -> Prop) : Prop :=
  forall s,
    exists new,
      store (m s).2 = store s ++ new
      /\ Forall aligned new
      /\ (forall a, (m s).1 = Ret a -> Q a).

Lemma appends_nothing {St A : Type} (store : St -> list Chunk) (m : io St A)
    (Q : A -> Prop) :
  (forall s, store (m s).2 = store s) ->
  (forall s a, (m s).1 = Ret a -> Q a) ->
  appends store m Q.
Proof.
  intros Hs HQ s. exists []. rewrite app_nil_r.
  split_and!; [apply Hs | constructor | apply HQ].
Qed.

Lemma appends_ret {St A : Type} (store : St -> list Chunk) (a : A) (Q : A -> Prop) :
  Q a -> appends store (ret a) Q.
Proof.
  intros H. apply appends_nothing; [reflexivity|]. intros s b [= <-]. exact H.
Qed.

Lemma appends_throw {St A : Type} (store : St -> list Chunk) (e : string) (Q : A -> Prop) :
  appends store (throw e) Q.
Proof. apply appends_nothing; [reflexivity|]. intros s b E. discriminate E. Qed.

Lemma appends_weaken {St A : Type} (store : St -> list Chunk) (m : io St A)
    (Q Q' : A -> Prop) :
  appends store m Q -> (forall a, Q a -> Q' a) -> appends store m Q'.
Proof.
  intros Hm HQ s. destruct (Hm s) as (new & E & Hnew & Hr).
  exists new. split_and!; auto.
Qed.

Lemma appends_bind {St A B : Type} (store : St -> list Chunk) (m : io St A)
    (k : A -> io St B) (Q : A -> Prop) (Q' : B -> Prop) :
  appends store m Q -> (forall a, Q a -> appends store (k a) Q') ->
  appends store (bind m k) Q'.
Proof.
  intros Hm Hk s. destruct (Hm s) as (new & E & Hnew & Hr).
  unfold bind. destruct (m s) as [[a|e] s1]; simpl in *.
  - destruct (Hk a (Hr a eq_refl) s1) as (new' & E' & Hnew' & Hr').
    exists (new ++ new'). rewrite E', E, app_assoc.
    split_and!; auto. apply Forall_app; auto.
  - exists new. split_and!; auto. intros b Hb. discriminate Hb.
Qed.

Lemma appends_try_catch {St A : Type} (store : St -> list Chunk) (m : io St A)
    (h : string -> io St A) (Q : A -> Prop) :
  appends store m Q -> (forall e, appends store (h e) Q) ->
  appends store (try_catch m h) Q.
Proof.
  intros Hm Hh s. destruct (Hm s) as (new & E & Hnew & Hr).
  unfold try_catch. destruct (m s) as [[a|e] s1]; simpl in *.
  - exists new. split_and!; auto.
  - destruct (Hh e s1) as (new' & E' & Hnew' & Hr').
    exists (new ++ new'). rewrite E', E, app_assoc.
    split_and!; auto. apply Forall_app; auto.
Qed.

Lemma appends_finally {St A : Type} (store : St -> list Chunk) (m : io St A)
    (cleanup : io St unit) (Q : A -> Prop) :
  appends store m Q -> appends store cleanup (fun _ => True) ->
  appends store (finally m cleanup) Q.
Proof.
  intros Hm Hc s. destruct (Hm s) as (new & E & Hnew & Hr).
  unfold finally. destruct (m s) as [r s1]; simpl in *.
  destruct (Hc s1) as (new' & E' & Hnew' & _).
  exists (new ++ new'). destruct (cleanup s1) as [[[]|e] s2]; simpl in *;
    rewrite E', E, app_assoc; split_and!; auto; try (apply Forall_app; auto).
  intros a Ha. discriminate Ha.
Qed.

Lemma appends_forEachFrom {St A : Type} (store : St -> list Chunk)
    (body : nat -> A -> io St unit) (xs : list A) :
  (forall i x, appends store (body i x) (fun _ => True)) ->
  forall i, appends store (forEachFrom body i xs) (fun _ => True).
Proof.
  intros Hbody. induction xs as [|x xs IH]; intros i; simpl.
  - apply appends_ret. exact I.
  - eapply appends_bind; [apply Hbody|]. intros _ _. apply IH.
Qed.

Lemma appends_mapM {St A B : Type} (store : St -> list Chunk) (f : A -> io St B)
    (Q : A -> B -> Prop) (xs : list A) :
  (forall x, appends store (f x) (Q x)) ->
  appends store (mapM f xs) (Forall2 Q xs).
Proof.
  intros Hf. induction xs as [|x xs IH]; simpl.
  - apply appends_ret. constructor.
  - eapply appends_bind; [apply Hf|]. intros y Hy.
    eapply appends_bind; [apply IH|]. intros ys Hys.
    apply appends_ret. constructor; assumption.
Qed.

Lemma appends_ext {A : Type} (f : World -> outcome A * World) (Q : A -> Prop) :
  (forall w a w', f w = (Ret a, w') -> Q a) -> appends db (ext f) Q.
Proof.
  intros H. apply appends_nothing.
  - intros s. apply ext_db.
  - intros s a. unfold ext. destruct (f (world s)) as [r w] eqn:E. simpl.
    intros ->. eapply H, E.
Qed.

Lemma appends_date : appends db date (fun _ => True).
Proof.
  apply appends_nothing; [|auto]. intros s. unfold date.
  destruct (now_iso ops (world s)). reflexivity.
Qed.

Lemma appends_get : appends db get (fun _ : State World => True).
Proof. apply appends_nothing; auto. Qed.

Lemma appends_insertDocument (name fullContent chunk : string)
    (contentEmbedding : option vector) (index size : nat) (questions : list string)
    (questionEmbeddings : list vector) (metadata : list (string * meta)) :
  Forall2 embeds (normalizeForEmbedding ops <$> questions) questionEmbeddings ->
  appends db (insertDocument name fullContent chunk contentEmbedding index size
                             questions questionEmbeddings metadata)
          (fun _ => True).
Proof.
  intros H s. eexists. split; [reflexivity|]. split; [|auto].
  constructor; [exact H|constructor].
Qed.

Lemma appends_step {L A : Type} (m : io (State World) A) (Q : A -> Prop) :
  appends db m Q -> appends (fun f : Frame L => db (process f)) (step m) Q.
Proof.
  intros Hm f. destruct (Hm (process f)) as (new & E & Hnew & Hr).
  exists new. unfold step. destruct (m (process f)) as [r st]. simpl in *.
  split_and!; auto.
Qed.

Lemma appends_update {L : Type} (g : L -> L) :
  appends (fun f : Frame L => db (process f)) (update g) (fun _ => True).
Proof. apply appends_nothing; auto. Qed.

Lemma appends_read {L : Type} :
  appends (fun f : Frame L => db (process f)) read (fun _ : L => True).
Proof. apply appends_nothing; auto. Qed.

Lemma appends_unframe {L A : Type} (m : io (Frame L) A) (l : L) (Q : A -> Prop) :
  appends (fun f : Frame L => db (process f)) m Q ->
  appends db (fun st => let '(r, f) := m {| locals := l; process := st |} in
                        (r, process f)) Q.
Proof.
  intros Hm st. destruct (Hm {| locals := l; process := st |}) as (new & E & Hnew & Hr).
  exists new. destruct (m _) as [r f]. simpl in *. split_and!; auto.
Qed.

(** The contract of the embedding adapter: a batch of n texts yields n
    vectors, the i-th being the embedding of the i-th text. *)
Hypothesis contract :
  forall texts w vs w',
    generateEmbeddings ops texts w = (Ret vs, w') -> Forall2 embeds texts vs.

(** Code files are ingested by [utils/code]; its rows are taken to be
    aligned as well. *)
Hypothesis code_files :
  forall filePath, appends db (ingestCodeFile ops filePath) (fun _ => True).

Ltac plain :=
  first [ apply appends_date | apply appends_get | apply appends_update
        | apply appends_read | apply appends_throw
        | apply appends_ret; exact I
        | apply appends_ext; intros; exact I ].

Ltac next := eapply (appends_bind _ _ _ (fun _ => True)); [|intros ? _].

Lemma embedQuestions_aligned (questions : list string) :
  appends db (embedQuestions questions)
          (fun vs => Forall2 embeds (normalizeForEmbedding ops <$> questions) vs).
Proof.
  unfold embedQuestions. destruct questions as [|q questions]; simpl.
  - apply appends_ret. constructor.
  - apply appends_ext. intros w vs w' E. eapply contract, E.
Qed.

Lemma split_into_chunks_appends (content : string) :
  appends db (split_into_chunks content) (fun _ => True).
Proof.
  unfold split_into_chunks.
  destruct (_ <? _); [destruct (USE_SEMANTIC_CHUNKING ops)|]; plain.
Qed.

Lemma ingestCSVChunk_appends (docIdentifier combinedText thesisField : string)
    (baseMetadata : list (string * meta)) (total chunkIdx : nat) (chunk : string) :
  appends db (ingestCSVChunk docIdentifier combinedText thesisField baseMetadata
                             total chunkIdx chunk)
          (fun _ => True).
Proof.
  unfold ingestCSVChunk.
  next; [plain|].
  next; [destruct (_ && _); plain|].
  eapply appends_bind; [apply embedQuestions_aligned|]. intros vs Hvs.
  next; [apply appends_insertDocument, Hvs|]. plain.
Qed.

Lemma ingestCSVRow_appends (name : string) (schema : CSVSchema) (modelVersion : string)
    (rowIdx : nat) (row : list (string * string)) :
  appends db (ingestCSVRow name schema modelVersion rowIdx row) (fun _ => True).
Proof.
  unfold ingestCSVRow. cbv zeta.
  destruct (blank _); [plain|].
  next; [plain|].
  next; [destruct (_ && _); [plain|apply split_into_chunks_appends]|].
  next; [|plain].
  apply appends_forEachFrom. intros i x. apply ingestCSVChunk_appends.
Qed.

Lemma ingestCSVRows_appends (name : string) (schema : CSVSchema) (modelVersion : string)
    (rows : list (list (string * string))) :
  forall rowIdx processedCount,
    appends db (ingestCSVRows name schema modelVersion rowIdx rows processedCount)
            (fun _ => True).
Proof.
  induction rows as [|row rows IH]; intros rowIdx processedCount; simpl.
  - plain.
  - next; [apply ingestCSVRow_appends|]. apply IH.
Qed.

Lemma ingestCSV_appends (filePath : string) :
  appends db (ingestCSV filePath) (fun _ => True).
Proof.
  unfold ingestCSV. cbv zeta.
  apply appends_try_catch; [|intros e; plain].
  next; [plain|].
  destruct (_ =? 0); [plain|].
  next; [destruct (some_truthy _); plain|].
  next; [plain|].
  next; [apply ingestCSVRows_appends|]. plain.
Qed.

Lemma insertFileChunk_appends (name content : string) (total : nat)
    (contentEmbeddings : list vector) (allQuestions : list (list string))
    (allQuestionEmbeddings : list (list vector)) (modelVersion : string)
    (i : nat) (chunk : string) :
  Forall2 (fun questions vs =>
             Forall2 embeds (normalizeForEmbedding ops <$> questions) vs)
          allQuestions allQuestionEmbeddings ->
  appends db (insertFileChunk name content total contentEmbeddings allQuestions
                              allQuestionEmbeddings modelVersion i chunk)
          (fun _ => True).
Proof.
  intros Hall. unfold insertFileChunk. cbv zeta.
  next; [plain|].
  next; [|plain].
  apply appends_insertDocument.
  destruct (allQuestions !! i) as [questions|] eqn:Eq.
  - destruct (Forall2_lookup_l _ _ _ _ _ Hall Eq) as (vs & -> & Hvs). exact Hvs.
  - apply Forall2_length in Hall.
    rewrite (lookup_ge_None_2 allQuestionEmbeddings i).
    + constructor.
    + apply lookup_ge_None_1 in Eq. lia.
Qed.

Lemma ingestText_appends (name filePath : string) :
  appends db (ingestText name filePath) (fun _ => True).
Proof.
  unfold ingestText.
  next; [plain|].
  destruct (_ || _); [plain|].
  next; [apply split_into_chunks_appends|].
  destruct (_ =? 0); [plain|].
  next; [plain|].
  next; [plain|].
  eapply appends_bind.
  { apply (appends_mapM _ _ (fun _ _ => True)). intros x. plain. }
  intros allQuestions _.
  eapply appends_bind.
  { apply (appends_mapM _ _ (fun questions vs =>
             Forall2 embeds (normalizeForEmbedding ops <$> questions) vs)).
    apply embedQuestions_aligned. }
  intros allQuestionEmbeddings Hall.
  next; [plain|].
  next; [|plain].
  apply appends_forEachFrom. intros i x. apply insertFileChunk_appends, Hall.
Qed.

Lemma ingestFile_appends (filePath : string) :
  appends db (ingestFile filePath) (fun _ => True).
Proof.
  unfold ingestFile. cbv zeta.
  case_bool_decide; [apply ingestCSV_appends|].
  destruct (is_code_extension _); [apply code_files|].
  apply appends_try_catch; [apply ingestText_appends|intros e; plain].
Qed.

Lemma ingestDirectory_appends (directoryPath : string) :
  appends db (ingestDirectory directoryPath) (fun _ => True).
Proof.
  unfold ingestDirectory. apply appends_unframe.
  apply appends_try_catch; [|intros e; apply appends_weaken with (Q := fun _ => True);
                                       [plain|auto]].
  next; [apply appends_step; plain|].
  destruct (_ =? 0); [apply appends_weaken with (Q := fun _ => True); [plain|auto]|].
  next; [|apply appends_weaken with (Q := fun _ => True); [plain|auto]].
  apply appends_forEachFrom. intros i file.
  next; [apply appends_step, ingestFile_appends|]. plain.
Qed.

Lemma extractAllUrls_appends (sitemapUrl : string) :
  appends db (extractAllUrls sitemapUrl) (fun _ => True).
Proof.
  apply appends_nothing; [|auto]. intros s. unfold extractAllUrls.
  destruct (Sitemap.extractAllUrls _ _ _ _ _ _ _) as [[r final]|]; reflexivity.
Qed.

Lemma extractPage_appends (pageUrl normalizedUrl : string) (pageOpen : bool) :
  appends db (extractPage pageUrl normalizedUrl pageOpen) (fun _ => True).
Proof.
  apply appends_nothing; [|auto]. intros s. apply extractPage_db.
Qed.

Lemma ingestPageChunk_appends (sitemapUrl : string) (entry : Sitemap.SitemapUrl)
    (extracted : Extracted) (modelVersion : string) (total chunkIdx : nat)
    (chunk : string) :
  appends db (ingestPageChunk sitemapUrl entry extracted modelVersion total
                              chunkIdx chunk)
          (fun _ => True).
Proof.
  unfold ingestPageChunk.
  next; [plain|].
  next; [plain|].
  eapply appends_bind; [apply embedQuestions_aligned|]. intros vs Hvs.
  next; [plain|].
  next; [apply appends_insertDocument, Hvs|]. plain.
Qed.

Lemma push_appends (r : IngestResult) :
  appends (fun f : Frame SitemapLocals => db (process f)) (push r) (fun _ => True).
Proof. apply appends_update. Qed.

Lemma ingestSitemapEntry_appends (sitemapUrl modelVersion : string)
    (entry : Sitemap.SitemapUrl) :
  appends (fun f : Frame SitemapLocals => db (process f))
          (ingestSitemapEntry sitemapUrl modelVersion entry) (fun _ => True).
Proof.
  unfold ingestSitemapEntry. cbv zeta.
  destruct (negb _); [apply push_appends|].
  apply appends_try_catch; [|intros e; apply push_appends].
  next; [plain|].
  next; [apply appends_step, extractPage_appends|].
  destruct (_ || _); [apply push_appends|].
  next; [apply appends_step, split_into_chunks_appends|].
  next; [|apply push_appends].
  apply appends_step, appends_forEachFrom. intros i x. apply ingestPageChunk_appends.
Qed.

Lemma ingestSitemap_appends (sitemapUrl : string) :
  appends db (ingestSitemap sitemapUrl) (fun _ => True).
Proof.
  unfold ingestSitemap. apply appends_unframe.
  apply appends_finally.
  - apply appends_try_catch; [|intros e; plain].
    next; [apply appends_step, extractAllUrls_appends|].
    destruct (_ =? 0).
    + next; [plain|plain].
    + repeat (next; [first [plain | apply appends_step; plain]|]).
      next; [|next; plain].
      apply appends_forEachFrom. intros i entry. apply ingestSitemapEntry_appends.
  - next; [plain|].
    next; [destruct (page _); [apply appends_step, appends_try_catch;
                               [plain|intros e; plain]|plain]|].
    destruct (browser _); [apply appends_step, appends_try_catch;
                           [plain|intros e; plain]|plain].
Qed.

End Alignment.

End Service.

Arguments locals {World L} f.
Arguments process {World L} f.

(** *** Sources below the chunk-size threshold *)

Section SmallSources.

Context {World : Type} (ops : Collaborators World).

(** The models answer: the question generator initializes, the embedding
    adapter returns one vector per text, and question generation returns. *)
Hypothesis generator_ready :
  forall w, exists w', initializeQuestionGenerator ops w = (Ret tt, w').
Hypothesis embeddings_available :
  forall texts w,
    exists vs w',
      generateEmbeddings ops texts w = (Ret vs, w') /\ length vs = length texts.
Hypothesis questions_available :
  forall chunk w, exists qs w', generateQuestions ops chunk w = (Ret qs, w').










End SmallSources.

(** A stored chunk whose question vectors match its questions: as many
    vectors as questions, the i-th vector embedding the i-th normalized
    question, and no vector at all when there is no question. *)
Definition matched {World : Type} (ops : Collaborators World)
    (embeds : string -> vector -> Prop) (c : Chunk) : Prop :=
  length (question_embeddings c) = length (hypothetical_questions c)
  /\ (forall i q v,
        hypothetical_questions c !! i = Some q ->
        question_embeddings c !! i = Some v ->
        embeds (normalizeForEmbedding ops q) v)
  /\ (hypothetical_questions c = [] -> question_embeddings c = []).

(** A run that only appends matched chunks to the store. *)
Definition adds_matched {World A : Type} (ops : Collaborators World)
    (embeds : string -> vector -> Prop) (m : io (State World) A) : Prop :=
  forall st,
    exists new,
      db (m st).2 = db st ++ new /\ forall c, c ∈ new -> matched ops embeds c.

Lemma aligned_matched {World : Type} (ops : Collaborators World)
    (embeds : string -> vector -> Prop) (c : Chunk) :
  aligned ops embeds c <-> matched ops embeds c.
Proof.
  unfold aligned, matched. split.
  - intros H. split_and!.
    + apply Forall2_length in H. rewrite length_fmap in H. auto.
    + intros i q v Hq Hv.
      eapply (Forall2_lookup_lr _ _ _ i _ _ H); [|exact Hv].
      rewrite list_lookup_fmap, Hq. reflexivity.
    + intros Hq. rewrite Hq in H. inversion H. reflexivity.
  - intros (Hlen & Hnth & _). apply Forall2_same_length_lookup. split.
    + rewrite length_fmap. auto.
    + intros i t v Ht Hv. rewrite list_lookup_fmap in Ht.
      destruct (hypothetical_questions c !! i) as [q|] eqn:Hq; [|discriminate].
      injection Ht as <-. eapply Hnth; eauto.
Qed.

Lemma appends_adds_matched {World A : Type} (ops : Collaborators World)
    (embeds : string -> vector -> Prop) (m : io (State World) A) :
  appends ops embeds db m (fun _ => True) <-> adds_matched ops embeds m.
Proof.
  split; intros H st; destruct (H st) as (new & E & Hnew); exists new.
  - split; [exact E|]. destruct Hnew as [Hnew _]. rewrite Forall_forall in Hnew.
    intros c Hc. apply aligned_matched, Hnew, Hc.
  - split_and!; auto. rewrite Forall_forall. intros c Hc.
    apply aligned_matched, Hnew, Hc.
Qed.

(** C8. Given the contract of the embedding adapter (a batch of texts
    yields one vector per text, the i-th embedding the i-th text), every
    row that [ingestFile], [ingestCSV], [ingestSitemap] or [ingestDirectory]
    adds to the store has as many question vectors as questions, the i-th
    vector embedding the i-th normalized question; a row with no question
    has no question vector.  The store is only appended to.  Code files are
    handed to [ingestCodeFile] of [utils/code], which is assumed to append
    matched rows too. *)
Theorem inserted_questions_match_their_embeddings {World : Type}
    (ops : Collaborators World) (embeds : string -> vector -> Prop) :
  (forall texts w vs w',
     generateEmbeddings ops texts w = (Ret vs, w') -> Forall2 embeds texts vs) ->
  (forall filePath, adds_matched ops embeds (ingestCodeFile ops filePath)) ->
  forall source : string,
    adds_matched ops embeds (ingestFile ops source)
    /\ adds_matched ops embeds (ingestCSV ops source)
    /\ adds_matched ops embeds (ingestSitemap ops source)
    /\ adds_matched ops embeds (ingestDirectory ops source).
Proof.
  intros contract code_files source.
  assert (Hcode : forall filePath,
             appends ops embeds db (ingestCodeFile ops filePath) (fun _ => True))
    by (intros filePath; apply appends_adds_matched, code_files).
  split_and!; apply appends_adds_matched.
  - apply ingestFile_appends; assumption.
  - apply ingestCSV_appends; assumption.
  - apply ingestSitemap_appends; assumption.
  - apply ingestDirectory_appends; assumption.
Qed.

(** *** One result per sitemap entry *)

Section EveryEntry.

Context {World : Type} (ops : Collaborators World).






End EveryEntry.

(** *** What a run stores *)

Section Bookkeeping.

Context {World : Type} (ops : Collaborators World).

Local Open Scope io_scope.

(** [stores store m R E]: whatever the start state, [m] only appends rows
    to the store; the rows [new] it appended satisfy [R a new] when it
    returns [a], and [E message new] when it throws [message]. *)
Definition stores {St A : Type} (store : St -> list Chunk) (m : io St A)
    (R : A -> list Chunk -> Prop) (E : string -> list Chunk -> Prop) : Prop :=
  forall s,
    exists new,
      store (m s).2 = store s ++ new
      /\ match (m s).1 with Ret a => R a new | Throw message => E message new end.

Definition nothing {A : Type} (_ : A) (new : list Chunk) : Prop := new = [].

Lemma stores_ret {St A : Type} (store : St -> list Chunk) (a : A)
    (R : A -> list Chunk -> Prop) (E : string -> list Chunk -> Prop) :
  R a [] -> stores store (ret a) R E.
Proof. intros H s. exists []. rewrite app_nil_r. split; [reflexivity|exact H]. Qed.

Lemma stores_throw {St A : Type} (store : St -> list Chunk) (message : string)
    (R : A -> list Chunk -> Prop) (E : string -> list Chunk -> Prop) :
  E message [] -> stores store (throw message) R E.
Proof. intros H s. exists []. rewrite app_nil_r. split; [reflexivity|exact H]. Qed.

Lemma stores_ret_bind {St A B : Type} (store : St -> list Chunk) (a : A)
    (k : A -> io St B) (R : B -> list Chunk -> Prop)
    (E : string -> list Chunk -> Prop) :
  stores store (k a) R E -> stores store (bind (ret a) k) R E.
Proof. intros H s. exact (H s). Qed.

Lemma stores_weaken {St A : Type} (store : St -> list Chunk) (m : io St A)
    (R R' : A -> list Chunk -> Prop) (E E' : string -> list Chunk -> Prop) :
  stores store m R E ->
  (forall a new, R a new -> R' a new) ->
  (forall message new, E message new -> E' message new) ->
  stores store m R' E'.
Proof.
  intros Hm HR HE s. destruct (Hm s) as (new & Hdb & H). exists new.
  split; [exact Hdb|]. destruct (m s).1; auto.
Qed.

Lemma stores_bind {St A B : Type} (store : St -> list Chunk) (m : io St A)
    (k : A -> io St B) (R1 : A -> list Chunk -> Prop) (R : B -> list Chunk -> Prop)
    (E : string -> list Chunk -> Prop) :
  stores store m R1 E ->
  (forall a n1, R1 a n1 ->
     stores store (k a) (fun b n2 => R b (n1 ++ n2)) (fun e n2 => E e (n1 ++ n2))) ->
  stores store (bind m k) R E.
Proof.
  intros Hm Hk s. destruct (Hm s) as (n1 & Hdb & Hr). unfold bind.
  destruct (m s) as [[a|e] s1]; simpl in *.
  - destruct (Hk a n1 Hr s1) as (n2 & Hdb2 & Hr2). exists (n1 ++ n2).
    rewrite Hdb2, Hdb, app_assoc. split; [reflexivity|exact Hr2].
  - exists n1. split; assumption.
Qed.

(** A step that leaves the store alone, followed by the rest. *)
Lemma stores_then {St A B : Type} (store : St -> list Chunk) (m : io St A)
    (k : A -> io St B) (R : B -> list Chunk -> Prop)
    (E : string -> list Chunk -> Prop) :
  stores store m nothing nothing ->
  (forall message, E message []) ->
  (forall a, stores store (k a) R E) ->
  stores store (bind m k) R E.
Proof.
  intros Hm HE Hk. apply (stores_bind store m k nothing).
  - apply (stores_weaken _ _ _ _ _ _ Hm); [auto|]. intros e new ->. apply HE.
  - intros a n1 ->. exact (Hk a).
Qed.

Lemma stores_try_catch {St A : Type} (store : St -> list Chunk) (m : io St A)
    (h : string -> io St A) (R : A -> list Chunk -> Prop)
    (E0 E : string -> list Chunk -> Prop) :
  stores store m R E0 ->
  (forall message n1, E0 message n1 ->
     stores store (h message) (fun a n2 => R a (n1 ++ n2))
            (fun e n2 => E e (n1 ++ n2))) ->
  stores store (try_catch m h) R E.
Proof.
  intros Hm Hh s. destruct (Hm s) as (n1 & Hdb & Hr). unfold try_catch.
  destruct (m s) as [[a|e] s1]; simpl in *.
  - exists n1. split; assumption.
  - destruct (Hh e n1 Hr s1) as (n2 & Hdb2 & Hr2). exists (n1 ++ n2).
    rewrite Hdb2, Hdb, app_assoc. split; [reflexivity|exact Hr2].
Qed.

Lemma stores_nothing {St A : Type} (store : St -> list Chunk) (m : io St A) :
  (forall s, store (m s).2 = store s) -> stores store m nothing nothing.
Proof.
  intros H s. exists []. rewrite app_nil_r. split; [apply H|].
  destruct (m s).1; reflexivity.
Qed.

Lemma stores_mapM {St A B : Type} (store : St -> list Chunk) (f : A -> io St B)
    (xs : list A) :
  (forall x, stores store (f x) nothing nothing) ->
  stores store (mapM f xs) nothing nothing.
Proof.
  intros Hf. induction xs as [|x xs IH]; simpl.
  - apply stores_ret. reflexivity.
  - apply stores_then; [apply Hf|reflexivity|]. intros y.
    apply stores_then; [apply IH|reflexivity|]. intros ys.
    apply stores_ret. reflexivity.
Qed.

Lemma stores_ext {A : Type} (f : World -> outcome A * World) :
  stores db (ext f) nothing nothing.
Proof. apply stores_nothing. intros s. apply ext_db. Qed.

(** Reading the clock returns. *)
Lemma stores_date (E : string -> list Chunk -> Prop) :
  stores db (date ops) nothing E.
Proof.
  intros s. exists []. rewrite app_nil_r. unfold date.
  destruct (now_iso ops (world s)). split; reflexivity.
Qed.

Lemma stores_split_into_chunks (fileText : string) :
  stores db (split_into_chunks ops fileText) nothing nothing.
Proof.
  unfold split_into_chunks.
  destruct (_ <? _); [destruct (USE_SEMANTIC_CHUNKING ops)|];
    [apply stores_ext | apply stores_ret; reflexivity..].
Qed.

Lemma stores_embedQuestions (questions : list string) :
  stores db (embedQuestions ops questions) nothing nothing.
Proof.
  unfold embedQuestions.
  destruct (_ <? _); [apply stores_ext | apply stores_ret; reflexivity].
Qed.

Lemma stores_step {L A : Type} (m : io (State World) A)
    (R : A -> list Chunk -> Prop) (E : string -> list Chunk -> Prop) :
  stores db m R E -> stores (fun f : Frame (World := World) L => db (process f)) (step m) R E.
Proof.
  intros Hm f. destruct (Hm (process f)) as (new & Hdb & Hr).
  exists new. unfold step. destruct (m (process f)) as [r st]. split; assumption.
Qed.

Lemma stores_unframe {L A : Type} (m : io (Frame L) A) (l : L)
    (R : A -> list Chunk -> Prop) (E : string -> list Chunk -> Prop) :
  stores (fun f : Frame (World := World) L => db (process f)) m R E ->
  stores db (fun st => let '(r, f) := m {| locals := l; process := st |} in
                       (r, process f)) R E.
Proof.
  intros Hm st. destruct (Hm {| locals := l; process := st |}) as (new & Hdb & Hr).
  exists new. destruct (m _) as [r f]. split; assumption.
Qed.

(** [insertDocument] returns, having appended the one row it was given. *)
Lemma stores_insertDocument (name fullContent chunk : string)
    (contentEmbedding : option vector) (index size : nat) (questions : list string)
    (questionEmbeddings : list vector) (metadata : list (string * meta))
    (E : string -> list Chunk -> Prop) :
  stores (db (World := World))
         (insertDocument name fullContent chunk contentEmbedding index size
                         questions questionEmbeddings metadata)
         (fun documentId new =>
            new = [{| chunk_id := documentId; source := name; content := fullContent;
                      chunk_text := chunk; embedding := contentEmbedding;
                      chunk_index := index; chunk_size := size;
                      hypothetical_questions := questions;
                      question_embeddings := questionEmbeddings;
                      chunk_metadata := metadata |}])
         E.
Proof. intros s. eexists. split; reflexivity. Qed.

(** *** Text files *)

(** The rows of one text file, numbered from [i]: one row for each chunk,
    in order.  The size of a row is the length of its chunk; it is stated
    for a chunk in the ASCII range, where [String.length] is JavaScript's
    [length]. *)
Definition file_rows (name fileText : string) (chunks : list string) (i : nat)
    (new : list Chunk) : Prop :=
  chunk_index <$> new = seq i (length chunks)
  /\ chunk_text <$> new = chunks
  /\ Forall (fun c => source c = name /\ content c = fileText
                      /\ (Js.is_ascii (chunk_text c) = true ->
                          chunk_size c = String.length (chunk_text c))) new.

Lemma insertFileChunk_stores (name fileText : string) (total : nat)
    (contentEmbeddings : list vector) (allQuestions : list (list string))
    (allQuestionEmbeddings : list (list vector)) (modelVersion : string)
    (i : nat) (chunk : string) (E : string -> list Chunk -> Prop) :
  stores db (insertFileChunk ops name fileText total contentEmbeddings allQuestions
                             allQuestionEmbeddings modelVersion i chunk)
         (fun _ new => file_rows name fileText [chunk] i new) E.
Proof.
  unfold insertFileChunk.
  eapply stores_bind; [apply stores_date|]. intros ingestion_date n1 ->.
  eapply stores_bind; [apply stores_insertDocument|]. intros documentId n1 ->.
  apply stores_ret. split_and!; [reflexivity|reflexivity|].
  constructor; [simpl; auto|constructor].
Qed.

Lemma insertFileChunk_loop (name fileText : string) (total : nat)
    (contentEmbeddings : list vector) (allQuestions : list (list string))
    (allQuestionEmbeddings : list (list vector)) (modelVersion : string)
    (chunks : list string) :
  forall (i : nat) (E : string -> list Chunk -> Prop),
    stores db
           (forEachFrom (insertFileChunk ops name fileText total contentEmbeddings
                                         allQuestions allQuestionEmbeddings modelVersion)
                        i chunks)
           (fun _ new => file_rows name fileText chunks i new) E.
Proof.
  induction chunks as [|chunk chunks IH]; intros i E; cbn [forEachFrom].
  - apply stores_ret. split_and!; [reflexivity|reflexivity|constructor].
  - eapply stores_bind; [apply insertFileChunk_stores|].
    intros _ n1 (Hi1 & Ht1 & Hall1).
    eapply stores_weaken; [apply (IH (S i))| |intros message new H; exact H].
    intros _ n2 (Hi2 & Ht2 & Hall2). split_and!.
    + rewrite fmap_app, Hi1, Hi2. reflexivity.
    + rewrite fmap_app, Ht1, Ht2. reflexivity.
    + apply Forall_app. split; assumption.
Qed.

Lemma blank_guard (content : string) :
  negb (Js.truthy content) || (String.length (Js.trim content) =? 0) = blank content.
Proof.
  unfold blank. destruct content as [|c content]; [reflexivity|].
  cbn [Js.truthy negb orb]. destruct (Js.trim (String c content)); reflexivity.
Qed.

(** A file that is neither CSV nor code is stored whole or not at all.
    If the file cannot be read, [ingestFile] throws and the store is as
    before.  If its text is blank, or is split into no chunk, the result
    is a failure and the store is as before.  Otherwise, when
    [ingestFile] returns, it reports as many chunks as the text was split
    into, and the store has grown by exactly one row per chunk, in order,
    numbered from 0, under the base name of the path, each with the whole
    text as [content]; when it throws (chunking, the question generator
    or an embedding failed) the store is as before, since rows are
    inserted only after every vector is there.  The message thrown is the
    cause behind [Failed to ingest file <name>: ].  The text is taken in
    the ASCII range, where [Js.trim] and [String.length] are JavaScript's
    [trim] and [length]. *)
Theorem text_file_is_stored_whole_or_not_at_all (filePath : string) (st : State World) :
  extension filePath <> Some "csv" ->
  is_code_extension ops (extension filePath) = false ->
  let name := basename filePath in
  let failure := fun cause => "Failed to ingest file " +:+ name +:+ ": " +:+ cause in
  match extractTextFromFile ops filePath (world st) with
  | (Throw cause, w) =>
      ingestFile ops filePath st = (Throw (failure cause), {| db := db st; world := w |})
  | (Ret fileText, w) =>
      Js.is_ascii fileText = true ->
      if blank fileText then
        ingestFile ops filePath st
          = (Ret (failed name "No text content found in file"),
             {| db := db st; world := w |})
      else
        match split_into_chunks ops fileText {| db := db st; world := w |} with
        | (Throw cause, st1) =>
            ingestFile ops filePath st = (Throw (failure cause), st1) /\ db st1 = db st
        | (Ret chunks, st1) =>
            if length chunks =? 0 then
              ingestFile ops filePath st
                = (Ret (failed name "No valid chunks created from content"), st1)
              /\ db st1 = db st
            else
              match ingestFile ops filePath st with
              | (Ret result, st') =>
                  result = succeeded name (length chunks)
                  /\ exists new,
                       db st' = db st ++ new /\ file_rows name fileText chunks 0 new
              | (Throw message, st') =>
                  db st' = db st /\ exists cause, message = failure cause
              end
        end
  end.
Proof.
  intros Hcsv Hcode name failure. unfold ingestFile.
  rewrite (bool_decide_eq_false_2 _ Hcsv), Hcode. fold name.
  unfold try_catch, ingestText.
  destruct (extractTextFromFile ops filePath (world st)) as [[fileText|cause] w] eqn:Eread.
  2:{ rewrite (bind_throw _ _ _ _ _ (ext_run _ _ _ _ Eread)). reflexivity. }
  intros _. rewrite (bind_ret _ _ _ _ _ (ext_run _ _ _ _ Eread)), blank_guard.
  destruct (blank fileText); [reflexivity|].
  pose proof (stores_split_into_chunks fileText {| db := db st; world := w |}) as Hsplit.
  destruct Hsplit as (new0 & Hdb0 & Hnew0). cbn [db] in Hdb0.
  destruct (split_into_chunks ops fileText {| db := db st; world := w |})
    as [[chunks|cause] st1] eqn:Esplit; cbn [fst snd] in Hdb0, Hnew0;
    rewrite Hnew0, app_nil_r in Hdb0; clear Hnew0 new0.
  2:{ rewrite (bind_throw _ _ _ _ _ Esplit). split; [reflexivity|exact Hdb0]. }
  rewrite (bind_ret _ _ _ _ _ Esplit).
  destruct (length chunks =? 0); [split; [reflexivity|exact Hdb0]|].
  match goal with
  | |- context [bind (ext (initializeQuestionGenerator ops)) ?k st1] =>
      set (rest := bind (ext (initializeQuestionGenerator ops)) k)
  end.
  assert (Hrest : stores db rest
                    (fun result new => result = succeeded name (length chunks)
                                       /\ file_rows name fileText chunks 0 new)
                    nothing).
  { subst rest.
    apply stores_then; [apply stores_ext|reflexivity|intros _].
    apply stores_then; [apply stores_ext|reflexivity|intros contentEmbeddings].
    apply stores_then; [apply stores_mapM; intros; apply stores_ext|reflexivity|].
    intros allQuestions.
    apply stores_then;
      [apply stores_mapM; intros; apply stores_embedQuestions|reflexivity|].
    intros allQuestionEmbeddings.
    apply stores_then; [apply stores_nothing; reflexivity|reflexivity|intros st2].
    eapply stores_bind; [apply insertFileChunk_loop|].
    intros u n1 Hrows. apply stores_ret. rewrite app_nil_r. auto. }
  destruct (Hrest st1) as (new & Hdb & Hr). rewrite Hdb0 in Hdb.
  destruct (rest st1) as [[result|message] st']; cbn [fst snd] in Hdb, Hr.
  - destruct Hr as [-> Hrows]. split; [reflexivity|]. exists new. auto.
  - rewrite Hr, app_nil_r in Hdb. unfold throw. split; [exact Hdb|]. exists message.
    reflexivity.
Qed.

(** *** CSV files *)

(** The row one CSV chunk leaves in the store. *)
Definition csv_row (combinedText thesisField : string) (chunkIdx : nat) (chunk : string)
    (new : list Chunk) : Prop :=
  exists c,
    new = [c]
    /\ chunk_text c = chunk /\ content c = combinedText /\ chunk_index c = chunkIdx
    /\ chunk_size c = String.length chunk
    /\ (Js.truthy thesisField && negb (blank thesisField) = true ->
        hypothetical_questions c = [Js.trim thesisField]).

Lemma ingestCSVChunk_stores (docIdentifier combinedText thesisField : string)
    (baseMetadata : list (string * meta)) (total chunkIdx : nat) (chunk : string) :
  stores db (ingestCSVChunk ops docIdentifier combinedText thesisField baseMetadata
                            total chunkIdx chunk)
         (fun _ new => csv_row combinedText thesisField chunkIdx chunk new) nothing.
Proof.
  unfold ingestCSVChunk.
  apply stores_then; [apply stores_ext|reflexivity|intros embeddings].
  apply (stores_bind _ _ _ (fun questions new =>
           new = []
           /\ (Js.truthy thesisField && negb (blank thesisField) = true ->
               questions = [Js.trim thesisField]))).
  { destruct (Js.truthy thesisField && negb (blank thesisField)).
    - apply stores_ret. auto.
    - eapply stores_weaken; [apply stores_ext| |auto]. intros questions new ->.
      split; [reflexivity|discriminate]. }
  intros questions n1 [-> Hthesis].
  apply stores_then; [apply stores_embedQuestions|reflexivity|].
  intros questionEmbeddings.
  eapply stores_bind; [apply stores_insertDocument|]. intros documentId n1 ->.
  apply stores_ret. eexists. split; [reflexivity|]. simpl. auto 10.
Qed.

(** A loop whose body stores one row at a time stores one row for each
    element it gets through. *)
Lemma stores_forEachFrom_count {A : Type} (body : nat -> A -> io (State World) unit)
    (xs : list A) :
  (forall i x, stores db (body i x) (fun _ new => length new = 1) nothing) ->
  forall i, stores db (forEachFrom body i xs) (fun _ new => length new = length xs)
                   (fun _ _ => True).
Proof.
  intros Hbody. induction xs as [|x xs IH]; intros i; cbn [forEachFrom].
  - apply stores_ret. reflexivity.
  - eapply stores_bind.
    + eapply stores_weaken; [apply Hbody| |auto]. intros u new H. exact H.
    + intros u n1 H1. eapply stores_weaken; [apply (IH (S i))| |auto].
      intros u' n2 H2. rewrite length_app, H1, H2. reflexivity.
Qed.

Lemma ingestCSVRow_stores (name : string) (schema : CSVSchema) (modelVersion : string)
    (rowIdx : nat) (row : list (string * string)) :
  stores db (ingestCSVRow ops name schema modelVersion rowIdx row)
         (fun stored new => length new = stored) (fun _ _ => True).
Proof.
  unfold ingestCSVRow. cbv zeta. destruct (blank _); [apply stores_ret; reflexivity|].
  apply stores_then; [|auto|intros ingestion_date].
  { eapply stores_weaken; [apply (stores_date nothing)|auto..]. }
  apply stores_then; [|auto|intros chunks].
  { destruct (_ && _); [apply stores_ret; reflexivity|apply stores_split_into_chunks]. }
  eapply stores_bind.
  - apply stores_forEachFrom_count. intros i chunk.
    eapply stores_weaken; [apply ingestCSVChunk_stores| |auto].
    intros u new (c & -> & _). reflexivity.
  - intros u n1 H1. apply stores_ret. rewrite app_nil_r. exact H1.
Qed.

Lemma ingestCSVRows_stores (name : string) (schema : CSVSchema) (modelVersion : string)
    (rows : list (list (string * string))) :
  forall rowIdx processedCount,
    stores db (ingestCSVRows ops name schema modelVersion rowIdx rows processedCount)
           (fun total new => total = processedCount + length new) (fun _ _ => True).
Proof.
  induction rows as [|row rows IH]; intros rowIdx processedCount; cbn [ingestCSVRows].
  - apply stores_ret. simpl. lia.
  - eapply stores_bind; [apply ingestCSVRow_stores|]. intros stored n1 H1.
    eapply stores_weaken; [apply IH| |auto].
    intros total n2 ->. cbv beta in H1. rewrite length_app. lia.
Qed.

(** What [ingestCSV] returns counts what it stored: when it returns a
    result, the store has grown by exactly [chunks_created] rows, and a
    failure result (a file without rows) stores nothing.  When it throws, the
    rows of the CSV rows before the failing one stay in the store, nothing
    that was there is touched, and the message is the cause behind
    [Failed to ingest CSV file <name>: ]. *)
Theorem csv_result_counts_the_rows_stored (filePath : string) (st : State World) :
  match ingestCSV ops filePath st with
  | (Ret result, st') =>
      exists new,
        db st' = db st ++ new
        /\ filename result = basename filePath
        /\ chunks_created result = length new
        /\ (success result = true
            \/ new = [] /\ error result = Some "No rows found in CSV file")
  | (Throw message, st') =>
      (exists new, db st' = db st ++ new)
      /\ exists cause,
           message = "Failed to ingest CSV file " +:+ basename filePath +:+ ": "
                     +:+ cause
  end.
Proof.
  assert (H : stores db (ingestCSV ops filePath)
                (fun result new =>
                   filename result = basename filePath
                   /\ chunks_created result = length new
                   /\ (success result = true
                       \/ new = [] /\ error result = Some "No rows found in CSV file"))
                (fun message _ =>
                   exists cause,
                     message = "Failed to ingest CSV file " +:+ basename filePath
                               +:+ ": " +:+ cause)).
  { unfold ingestCSV. cbv zeta.
    apply (stores_try_catch _ _ _ _ (fun _ _ => True));
      [|intros cause n1 _; apply stores_throw; eauto].
    apply stores_then; [apply stores_ext|exact (fun _ => I)|intros fileText].
    destruct (_ =? 0); [apply stores_ret; simpl; auto|].
    apply stores_then; [|exact (fun _ => I)|intros _].
    { destruct (some_truthy _); [apply stores_ret; reflexivity|apply stores_ext]. }
    apply stores_then; [apply stores_nothing; reflexivity|exact (fun _ => I)|].
    intros st0.
    eapply stores_bind; [apply ingestCSVRows_stores|]. intros total n1 ->.
    apply stores_ret. rewrite app_nil_r. simpl. auto. }
  destruct (H st) as (new & Hdb & Hr).
  destruct (ingestCSV ops filePath st) as [[result|message] st']; simpl in *; eauto.
Qed.

(** [textParts.filter(s => s.trim()).join('\n\n')]: the combined text of a
    CSV row, as [ingestCSV] builds it from the columns of the schema. *)
Definition row_text (schema : CSVSchema) (row : list (string * string)) : string :=
  let title := cell (title_column schema) row in
  let contentField := cell (content_column schema) row in
  let link := cell (link_column schema) row in
  let collection := cell (collection_column schema) row in
  let htmlField := cell (html_column schema) row in
  let contentClean := stripHtml ops contentField in
  let htmlClean := if Js.truthy htmlField then stripHtml ops htmlField else "" in
  let textParts :=
    [title; contentClean]
      ++ (if Js.truthy htmlClean && negb (String.eqb htmlClean contentClean)
          then [htmlClean] else [])
      ++ (if Js.truthy link then [link] else [])
      ++ (if Js.truthy collection then [collection] else []) in
  String.concat "

" (filter (fun part => blank part = false) textParts).

(** A CSV row with a thesis is never chunked.  The row is skipped, with
    nothing stored, exactly when its combined text is blank; otherwise,
    when the row is got through, it is stored as exactly one row of the
    store, numbered 0, whose text and content are the whole combined text
    of the row and whose only question is the trimmed thesis; and when an
    embedding fails, nothing is stored for the row.  The thesis and the
    combined text are taken in the ASCII range, where [Js.trim] and
    [String.length] are JavaScript's [trim] and [length]. *)
Theorem thesis_row_is_one_chunk_with_the_thesis_as_question (name : string)
    (schema : CSVSchema) (modelVersion : string) (rowIdx : nat)
    (row : list (string * string)) (st : State World) :
  let thesisField := cell (thesis_column schema) row in
  let combinedText := row_text schema row in
  Js.is_ascii thesisField = true ->
  Js.is_ascii combinedText = true ->
  Js.truthy thesisField && negb (blank thesisField) = true ->
  match ingestCSVRow ops name schema modelVersion rowIdx row st with
  | (Ret stored, st') =>
      if blank combinedText then stored = 0 /\ st' = st
      else
        stored = 1
        /\ exists c,
             db st' = db st ++ [c]
             /\ chunk_text c = combinedText /\ content c = combinedText
             /\ chunk_index c = 0 /\ chunk_size c = String.length combinedText
             /\ hypothetical_questions c = [Js.trim thesisField]
  | (Throw _, st') => blank combinedText = false /\ db st' = db st
  end.
Proof.
  intros thesisField combinedText _ _ Hthesis.
  assert (Hrow : ingestCSVRow ops name schema modelVersion rowIdx row
                 = if blank combinedText then ret 0
                   else
                     let docIdentifier :=
                       if Js.truthy (cell (title_column schema) row)
                       then name +:+ " - " +:+ cell (title_column schema) row
                       else name +:+ " - Row " +:+ pretty (rowIdx + 1) in
                     bind (date ops)
                       (fun ingestion_date =>
                          let baseMetadata :=
                            csvBaseMetadata schema modelVersion ingestion_date rowIdx row in
                          bind (ret [combinedText])
                            (fun chunks =>
                               bind (forEach (ingestCSVChunk ops docIdentifier combinedText
                                                thesisField baseMetadata (length chunks))
                                             chunks)
                                    (fun _ => ret (length chunks))))).
  { unfold ingestCSVRow. cbv zeta. fold thesisField. rewrite Hthesis. reflexivity. }
  rewrite Hrow. clear Hrow.
  destruct (blank combinedText) eqn:Hblank; [split; reflexivity|].
  cbv zeta.
  match goal with
  | |- match ?m st with _ => _ end =>
      assert (H : stores db m
                    (fun stored new =>
                       stored = 1
                       /\ exists c,
                            new = [c]
                            /\ chunk_text c = combinedText /\ content c = combinedText
                            /\ chunk_index c = 0
                            /\ chunk_size c = String.length combinedText
                            /\ hypothetical_questions c = [Js.trim thesisField])
                    nothing)
  end.
  { apply stores_then; [|reflexivity|intros ingestion_date].
    { eapply stores_weaken; [apply (stores_date nothing)|auto..]. }
    apply stores_ret_bind. unfold forEach. cbn [forEachFrom length].
    apply (stores_bind _ _ _
             (fun _ new => csv_row combinedText thesisField 0 combinedText new)).
    - apply (stores_bind _ _ _
               (fun _ new => csv_row combinedText thesisField 0 combinedText new));
        [apply ingestCSVChunk_stores|].
      intros u n1 Hone. apply stores_ret. rewrite app_nil_r. exact Hone.
    - intros u n1 (c & -> & Htext & Hcontent & Hindex & Hsize & Hq).
      apply stores_ret. split; [reflexivity|]. exists c.
      split_and!; [reflexivity|exact Htext|exact Hcontent|exact Hindex|exact Hsize
                  |exact (Hq Hthesis)]. }
  destruct (H st) as (new & Hdb & Hr).
  match goal with
  | |- match ?m st with _ => _ end => destruct (m st) as [[stored|message] st']
  end; simpl in *.
  - destruct Hr as [-> (c & -> & Hc)]. split; [reflexivity|]. exists c. auto.
  - rewrite Hr, app_nil_r in Hdb. auto.
Qed.

(** *** Directories *)

(** The loop of [ingestDirectory] against ingesting the files one after the
    other. *)
Lemma directory_loop (directoryPath : string) (files : list string) :
  forall (i : nat) (acc : list IngestResult) (st : State World),
    let body := fun (_ : nat) file =>
                  let! result := step (ingestFile ops (directoryPath +:+ "/" +:+ file)) in
                  update (fun results => results ++ [result]) in
    match mapM (fun file => ingestFile ops (directoryPath +:+ "/" +:+ file)) files st with
    | (Ret results, st') =>
        forEachFrom body i files {| locals := acc; process := st |}
          = (Ret tt, {| locals := acc ++ results; process := st' |})
        /\ length results = length files
    | (Throw message, st') =>
        exists before failing rest results st1,
          files = before ++ failing :: rest
          /\ mapM (fun file => ingestFile ops (directoryPath +:+ "/" +:+ file)) before st
             = (Ret results, st1)
          /\ ingestFile ops (directoryPath +:+ "/" +:+ failing) st1 = (Throw message, st')
          /\ forEachFrom body i files {| locals := acc; process := st |}
             = (Throw message, {| locals := acc ++ results; process := st' |})
          /\ length results = length before
    end.
Proof.
  induction files as [|file files IH]; intros i acc st body.
  - simpl. rewrite app_nil_r. auto.
  - assert (Hbody :
      body i file {| locals := acc; process := st |}
        = match ingestFile ops (directoryPath +:+ "/" +:+ file) st with
          | (Ret result, st1) =>
              (Ret tt, {| locals := acc ++ [result]; process := st1 |})
          | (Throw message, st1) =>
              (Throw message, {| locals := acc; process := st1 |})
          end).
    { unfold body, bind, step, update, modify. cbn [locals process].
      destruct (ingestFile ops _ st) as [[result|message] st1]; reflexivity. }
    cbn [mapM forEachFrom]. unfold bind. rewrite Hbody. clear Hbody.
    destruct (ingestFile ops (directoryPath +:+ "/" +:+ file) st)
      as [[result|message] st1] eqn:Efile.
    + specialize (IH (S i) (acc ++ [result]) st1). cbv zeta in IH. fold body in IH.
      destruct (mapM _ files st1) as [[results|message] st'] eqn:Erest; unfold ret.
      * destruct IH as [-> Hlen]. rewrite <- app_assoc. simpl. auto.
      * destruct IH as (before & failing & rest & results & st2
                        & -> & Hbefore & Hfailing & -> & Hlen).
        exists (file :: before), failing, rest, (result :: results), st2.
        rewrite <- app_assoc. cbn [mapM]. unfold bind. rewrite Efile, Hbefore.
        simpl. split_and!; auto.
    + exists [], file, files, [], st. rewrite app_nil_r. simpl. split_and!; auto.
Qed.

(** [ingestDirectory] never throws.  If the directory cannot be listed the
    list is empty; otherwise the files are ingested one after the other
    and the list holds their results in order, one per file, up to the
    first file whose ingestion throws: that exception is swallowed, the
    list returned holds exactly the results of the files before that one,
    no later file is ingested, and what was stored until then stays. *)
Theorem ingestDirectory_returns_the_results_so_far (directoryPath : string)
    (st : State World) :
  let '(found, w) := globScan ops (globPattern ops) directoryPath (world st) in
  let st0 := {| db := db st; world := w |} in
  match found with
  | Throw _ => ingestDirectory ops directoryPath st = (Ret [], st0)
  | Ret files =>
      match mapM (fun file => ingestFile ops (directoryPath +:+ "/" +:+ file))
                 files st0 with
      | (Ret results, st') =>
          ingestDirectory ops directoryPath st = (Ret results, st')
          /\ length results = length files
      | (Throw message, st') =>
          exists before failing rest results st1,
            files = before ++ failing :: rest
            /\ mapM (fun file => ingestFile ops (directoryPath +:+ "/" +:+ file))
                    before st0
               = (Ret results, st1)
            /\ ingestFile ops (directoryPath +:+ "/" +:+ failing) st1
               = (Throw message, st')
            /\ ingestDirectory ops directoryPath st = (Ret results, st')
            /\ length results = length before
      end
  end.
Proof.
  destruct (globScan ops (globPattern ops) directoryPath (world st)) as [found w] eqn:Escan.
  cbv zeta.
  pose proof (step_run (L := list IngestResult) _ {| locals := []; process := st |} _ _
                (ext_run _ st _ _ Escan)) as Hscan.
  cbn [locals] in Hscan. unfold ingestDirectory, try_catch.
  destruct found as [files|message];
    [rewrite (bind_ret _ _ _ _ _ Hscan) | rewrite (bind_throw _ _ _ _ _ Hscan)];
    [|reflexivity].
  destruct files as [|file files]; [simpl; auto|].
  change (length (file :: files) =? 0) with false. cbv iota.
  unfold forEach.
  pose proof (directory_loop directoryPath (file :: files) 0 []
                {| db := db st; world := w |}) as Hloop.
  cbv zeta in Hloop.
  destruct (mapM _ (file :: files) _) as [[results|message] st'].
  - destruct Hloop as [Hloop Hlen]. rewrite (bind_ret _ _ _ _ _ Hloop). simpl. auto.
  - destruct Hloop as (before & failing & rest & results & st1
                       & Hfiles & Hbefore & Hfailing & Hloop & Hlen).
    rewrite (bind_throw _ _ _ _ _ Hloop).
    exists before, failing, rest, results, st1. simpl. split_and!; auto.
Qed.

(** *** Sitemaps *)









End Bookkeeping.

(** *** A small installation *)

(** The world of the examples is the list of the calls made so far. *)
Definition Trace : Type := list string.

Definition demo_embed (t : string) : vector :=
  [inject_Z (Z.of_nat (String.length t)); inject_Z 1].

Definition demo_page (body : string) : Sitemap.Response :=
  {| Sitemap.ok := true; Sitemap.status := 200; Sitemap.statusText := "OK";
     Sitemap.content_type := Some "application/xml";
     Sitemap.arrayBuffer := Ret []; Sitemap.text := Ret body |}.

Definition demo_sitemap : string :=
  "<urlset><url><loc>https://s.example/one</loc></url><url><loc>https://s.example/down</loc></url><url><loc>https://s.example/blank</loc></url><url><loc>ftp://s.example/file</loc></url><url><loc>https://s.example/two/</loc></url></urlset>".

(** The page the browser is on: the URL of the last [goto]. *)
Definition current_page (w : Trace) : string := default "" (last w).

Definition demo : Collaborators Trace :=
  {| CHUNK_SIZE := 1000;
     USE_SEMANTIC_CHUNKING := false;
     extractTextFromFile p w :=
       if Js.endsWith "a.txt" p then (Throw "EACCES: permission denied", w ++ [p])
       else if Js.endsWith "blank.txt" p then (Ret "  
 ", w ++ [p])
       else (Ret "Vector search ranks chunks by cosine similarity.", w ++ [p]);
     semanticChunking c w := (Ret [c], w);
     chunkText c := [c];
     normalizeForEmbedding := Js.toLowerCase;
     stripHtml t := t;
     generateEmbeddings texts w := (Ret (demo_embed <$> texts), w);
     getEmbeddingModelVersion w := "demo-embedder-1";
     generateQuestions c w :=
       (Ret ["What ranks chunks?"; "Which similarity is used?"], w);
     initializeQuestionGenerator w := (Ret tt, w);
     parseCSV t :=
       if Js.truthy t
       then [[("Title", "Reverse hyper"); ("Body Text", "A posterior chain exercise.")];
             [("Title", ""); ("Body Text", "  ")]]
       else [];
     detectCSVSchema columns :=
       {| detected := true; title_column := Some "Title";
          content_column := Some "Body Text"; link_column := None;
          collection_column := None; html_column := None; thesis_column := None |};
     CODE_FILE_EXTENSIONS := ["ts"; "py"];
     ingestCodeFile p st := (Ret (failed p "code files are not ingested here"), st);
     readText p w := (Ret "Title,Body Text", w ++ [p]);
     globScan pattern cwd w := (Ret ["a.txt"; "b.txt"], w);
     now_iso w := ("2025-01-01T00:00:00.000Z", w);
     fetch u w := (Ret (demo_page demo_sitemap), w);
     gunzipSync b := Throw "not gzip";
     decode b := "";
     parseURL u :=
       if String.prefix "https://" u
       then Some {| Web.protocol := "https:"; Web.href_without_hash := u |}
       else if String.prefix "ftp://" u
       then Some {| Web.protocol := "ftp:"; Web.href_without_hash := u |}
       else None;
     chromium_launch w := (Ret tt, w);
     browser_newPage w := (Ret tt, w);
     page_goto u w :=
       if Js.endsWith "/down" u
       then (Throw "page.goto: Timeout 30000ms exceeded.", w ++ [u])
       else (Ret tt, w ++ [u]);
     page_waitForTimeout ms w := (Ret tt, w);
     page_title w := (Ret "Example", w);
     page_removeClutter w := (Ret tt, w);
     page_innerText_body w :=
       if Js.endsWith "/blank" (current_page w) then (Ret "   ", w)
       else (Ret " Welcome to the example site. ", w);
     page_metaDescription w := (Ret None, w);
     page_close w := (Ret tt, w);
     browser_close w := (Throw "browser has been closed", w);
     squeeze t := t |}.

Definition empty_store : State Trace := {| db := []; world := [] |}.

(** C1, on a directory where it fails.  The directory holds [a.txt],
    which cannot be read, and [b.txt], which can.  [ingestFile] on [a.txt]
    throws; on [b.txt] alone it stores one chunk.  [ingestDirectory] stops
    at [a.txt]: the exception of [ingestFile] leaves the loop and is caught
    by the handler meant for directory errors, so the result list is empty,
    no failure entry is recorded for [a.txt], and [b.txt] is never read. *)
Theorem ingestDirectory_stops_at_first_failing_file :
  ingestFile demo "docs/a.txt" empty_store
    = (Throw "Failed to ingest file a.txt: EACCES: permission denied",
       {| db := []; world := ["docs/a.txt"] |})
  /\ (exists c,
        ingestFile demo "docs/b.txt" empty_store
          = (Ret (succeeded "b.txt" 1), {| db := [c]; world := ["docs/b.txt"] |}))
  /\ ingestDirectory demo "docs" empty_store
       = (Ret [], {| db := []; world := ["docs/a.txt"] |}).
Proof. split_and!; [reflexivity | eexists; vm_compute; reflexivity | reflexivity]. Qed.

(** The sitemap loop, by contrast, records one result per entry: a page
    that fails to load, a blank page and an invalid URL each leave a failure
    entry, and the entries after them are still processed. *)
Example ingestSitemap_records_every_entry :
  match ingestSitemap demo "https://s.example/sitemap.xml" empty_store with
  | (Ret results, st) =>
      results
        = [succeeded "https://s.example/one" 1;
           failed "https://s.example/down" "page.goto: Timeout 30000ms exceeded.";
           failed "https://s.example/blank" "No content extracted";
           failed "ftp://s.example/file" "Invalid URL";
           succeeded "https://s.example/two" 1]
      /\ chunk_text <$> db st
           = ["Welcome to the example site."; "Welcome to the example site."]
      /\ chunk_index <$> db st = [0; 0]
  | _ => False
  end.
Proof. vm_compute. split_and!; reflexivity. Qed.

Example ingestCSV_skips_blank_rows :
  match ingestFile demo "docs/lifts.CSV" empty_store with
  | (Ret r, st) =>
      r = succeeded "lifts.CSV" 1
      /\ source <$> db st = ["lifts.CSV - Reverse hyper"]
      /\ chunk_text <$> db st = ["Reverse hyper

A posterior chain exercise."]
      /\ (fst <$> default [] (chunk_metadata <$> head (db st)))
           = ["source_type"; "row_index"; "embedding_model"; "ingestion_date";
              "schema_mapping"; "csv_title"; "csv_body_text"; "chunk_index";
              "total_chunks_in_row"; "is_chunked"]
  | _ => False
  end.
Proof. vm_compute. split_and!; reflexivity. Qed.

(** *** Concrete runs of the theorems above *)










(** In the small installation a vector embeds a text when it is the one
    [demo_embed] computes. *)
Definition demo_embeds (t : string) (v : vector) : Prop := v = demo_embed t.

Lemma demo_contract :
  forall texts w vs w',
    generateEmbeddings demo texts w = (Ret vs, w') -> Forall2 demo_embeds texts vs.
Proof.
  intros texts w vs w' [= <- _].
  induction texts as [|t texts IH]; constructor; [reflexivity|exact IH].
Qed.

Lemma demo_code_files :
  forall filePath, adds_matched demo demo_embeds (ingestCodeFile demo filePath).
Proof.
  intros filePath st. exists []. split; [symmetry; apply app_nil_r|].
  intros c Hc. inversion Hc.
Qed.

Lemma inserted_questions_match_their_embeddings_witness :
  adds_matched demo demo_embeds (ingestFile demo "docs/b.txt")
  /\ adds_matched demo demo_embeds (ingestCSV demo "docs/b.txt")
  /\ adds_matched demo demo_embeds (ingestSitemap demo "docs/b.txt")
  /\ adds_matched demo demo_embeds (ingestDirectory demo "docs/b.txt").
Proof.
  apply (inserted_questions_match_their_embeddings demo demo_embeds
           demo_contract demo_code_files "docs/b.txt").
Defined.

(** A text file that cannot be read: [ingestFile] throws and stores
    nothing; one that can: its only chunk is the one row stored. *)
Lemma text_file_is_stored_whole_or_not_at_all_witness :
  extension "docs/a.txt" <> Some "csv"
  /\ is_code_extension demo (extension "docs/a.txt") = false
  /\ ingestFile demo "docs/a.txt" empty_store
     = (Throw "Failed to ingest file a.txt: EACCES: permission denied",
        {| db := []; world := ["docs/a.txt"] |})
  /\ exists st' new,
       ingestFile demo "docs/b.txt" empty_store = (Ret (succeeded "b.txt" 1), st')
       /\ db st' = [] ++ new
       /\ file_rows "b.txt" "Vector search ranks chunks by cosine similarity."
                    ["Vector search ranks chunks by cosine similarity."] 0 new.
Proof.
  assert (Ha : extension "docs/a.txt" <> Some "csv") by (vm_compute; discriminate).
  assert (Hb : extension "docs/b.txt" <> Some "csv") by (vm_compute; discriminate).
  split; [exact Ha|]. split; [reflexivity|].
  split;
    [exact (text_file_is_stored_whole_or_not_at_all demo "docs/a.txt" empty_store
              Ha eq_refl)|].
  assert (Hreturns :
    match ingestFile demo "docs/b.txt" empty_store with
    | (Ret result, st') =>
        result = succeeded "b.txt" 1
        /\ exists new,
             db st' = [] ++ new
             /\ file_rows "b.txt" "Vector search ranks chunks by cosine similarity."
                          ["Vector search ranks chunks by cosine similarity."] 0 new
    | (Throw message, st') =>
        db st' = []
        /\ exists cause, message = "Failed to ingest file b.txt: " +:+ cause
    end)
    by exact (text_file_is_stored_whole_or_not_at_all demo "docs/b.txt" empty_store
                Hb eq_refl eq_refl).
  destruct (ingestFile demo "docs/b.txt" empty_store) as [[result|message] st'] eqn:E.
  - destruct Hreturns as (-> & new & Hdb & Hrows). exists st', new. auto.
  - vm_compute in E. discriminate E.
Defined.

(** A row with a thesis column. *)
Definition thesis_schema : CSVSchema :=
  {| detected := true; title_column := Some "Title"; content_column := None;
     link_column := None; collection_column := None; html_column := None;
     thesis_column := Some "Thesis" |}.

Definition thesis_row : list (string * string) :=
  [("Title", "Squat"); ("Thesis", " Squats build the legs. ")].

Lemma thesis_row_is_one_chunk_with_the_thesis_as_question_witness :
  Js.is_ascii (cell (thesis_column thesis_schema) thesis_row) = true
  /\ Js.is_ascii (row_text demo thesis_schema thesis_row) = true
  /\ Js.truthy (cell (thesis_column thesis_schema) thesis_row)
     && negb (blank (cell (thesis_column thesis_schema) thesis_row)) = true
  /\ row_text demo thesis_schema thesis_row = "Squat"
  /\ exists st' c,
       ingestCSVRow demo "lifts.csv" thesis_schema "demo-embedder-1" 0 thesis_row
                    empty_store = (Ret 1, st')
       /\ db st' = [c]
       /\ chunk_text c = "Squat" /\ content c = "Squat" /\ chunk_index c = 0
       /\ hypothetical_questions c = ["Squats build the legs."].
Proof.
  split; [reflexivity|]. split; [reflexivity|]. split; [reflexivity|].
  split; [reflexivity|].
  pose proof (thesis_row_is_one_chunk_with_the_thesis_as_question demo "lifts.csv"
                thesis_schema "demo-embedder-1" 0 thesis_row empty_store
                eq_refl eq_refl eq_refl) as Hrow.
  destruct (ingestCSVRow demo "lifts.csv" thesis_schema "demo-embedder-1" 0 thesis_row
                         empty_store) as [[stored|message] st'] eqn:E.
  - destruct Hrow as (-> & c & Hdb & Htext & Hcontent & Hindex & _ & Hq).
    exists st', c. split_and!; auto.
  - vm_compute in E. discriminate E.
Defined.

End Ingest.

(** ** Retrieval scores (spec section 4.5) *)

Module Retrieval.

(** What the retrieval engine reads of a stored chunk. *)
Record Indexed : Type := {
  content_vector : Ingest.vector;
  question_vectors : list Ingest.vector;
}.

Section Scores.

(** Cosine similarity of two vectors, as a rational number. *)
Variable cosine : Ingest.vector -> Ingest.vector -> Q.

(** The running maximum of a non-empty sequence of scores. *)
Definition maximum (first : Q) (others : list Q) : Q := foldl Qmax first others.

(** Modelled from the spec: the scoring of [services/search] is not among
    the sources.  Section 4.5: the content score of a chunk is the cosine
    similarity of the query vector and the content vector; "for a chunk
    with multiple question vectors, its question score is the maximum
    similarity across its own questions"; a chunk indexed with zero
    question vectors has no question score. *)
Definition content_score (query : Ingest.vector) (c : Indexed) : Q :=
  cosine query (content_vector c).

Definition question_score (query : Ingest.vector) (c : Indexed) : option Q :=
  match question_vectors c with
  | [] => None
  | v :: vs => Some (maximum (cosine query v) (cosine query <$> vs))
  end.

(** Modelled from the spec: the fusion of [services/search] is not among
    the sources.  Section 4.5: "the chunk's fused score is max(content
    score, question score)"; without a question score the content score
    stands alone. *)
Definition fused_score (query : Ingest.vector) (c : Indexed) : Q :=
  match question_score query c with
  | Some q => Qmax (content_score query c) q
  | None => content_score query c
  end.

(** The chunk [c] with the question vector [v] added after the first
    [position] question vectors. *)
Definition add_question (position : nat) (v : Ingest.vector) (c : Indexed) : Indexed :=
  {| content_vector := content_vector c;
     question_vectors :=
       take position (question_vectors c) ++ v :: drop position (question_vectors c) |}.

Lemma Qmax_either (x y : Q) : Qmax x y = x \/ Qmax x y = y.
Proof.
  unfold Qmax, GenericMinMax.gmax. destruct (x ?= y)%Q; auto.
Qed.

Lemma maximum_upper (first : Q) (others : list Q) :
  (first <= maximum first others)%Q
  /\ forall s, s ∈ others -> (s <= maximum first others)%Q.
Proof.
  unfold maximum. revert first.
  induction others as [|o others IH]; intros first; simpl.
  - split; [apply Qle_refl|]. intros s Hs. inversion Hs.
  - destruct (IH (Qmax first o)) as [H1 H2]. split.
    + eapply Qle_trans; [apply Q.le_max_l|exact H1].
    + intros s Hs. apply elem_of_cons in Hs as [->|Hs].
      * eapply Qle_trans; [apply Q.le_max_r|exact H1].
      * apply H2, Hs.
Qed.

Lemma maximum_attained (first : Q) (others : list Q) :
  maximum first others ∈ first :: others.
Proof.
  unfold maximum. revert first.
  induction others as [|o others IH]; intros first; simpl.
  - left.
  - specialize (IH (Qmax first o)).
    apply elem_of_cons in IH as [E|IH].
    + rewrite E. destruct (Qmax_either first o) as [-> | ->].
      * left.
      * right. left.
    + right. right. exact IH.
Qed.

(** The question score is the greatest similarity among the chunk's own
    question vectors. *)
Lemma question_score_spec (query : Ingest.vector) (c : Indexed) (best : Q) :
  question_score query c = Some best ->
  (exists v, v ∈ question_vectors c /\ best = cosine query v)
  /\ (forall v, v ∈ question_vectors c -> (cosine query v <= best)%Q).
Proof.
  unfold question_score. destruct (question_vectors c) as [|v vs]; [discriminate|].
  intros [= <-]. split.
  - pose proof (maximum_attained (cosine query v) (cosine query <$> vs)) as H.
    apply elem_of_cons in H as [H|H].
    + exists v. split; [left|exact H].
    + apply list_elem_of_fmap in H as (v' & E & Hv'). exists v'. split; [right|]; auto.
  - destruct (maximum_upper (cosine query v) (cosine query <$> vs)) as [H1 H2].
    intros v' Hv'. apply elem_of_cons in Hv' as [->|Hv']; [exact H1|].
    apply H2, list_elem_of_fmap. eauto.
Qed.

Lemma question_score_none (query : Ingest.vector) (c : Indexed) :
  question_score query c = None <-> question_vectors c = [].
Proof.
  unfold question_score. destruct (question_vectors c); split; congruence.
Qed.

Lemma add_question_vectors (position : nat) (v : Ingest.vector) (c : Indexed)
    (v' : Ingest.vector) :
  v' ∈ question_vectors c -> v' ∈ question_vectors (add_question position v c).
Proof.
  intros H. simpl. rewrite <- (take_drop position (question_vectors c)) in H.
  apply elem_of_app in H as [H|H]; apply elem_of_app; [left|right; right]; exact H.
Qed.

(** C2. For every stored chunk and every query: the question score, when
    the chunk has question vectors, is the similarity of one of the chunk's
    own question vectors and is not below that of any other; the fused score
    is the maximum of the content score and the question score (the content
    score alone when there is no question vector); and adding a question
    vector anywhere in the chunk's list never lowers the fused score. *)
Theorem fused_score_is_max_and_never_drops (query : Ingest.vector) (c : Indexed) :
  match question_score query c with
  | Some best =>
      (exists v, v ∈ question_vectors c /\ best = cosine query v)
      /\ (forall v, v ∈ question_vectors c -> (cosine query v <= best)%Q)
      /\ fused_score query c = Qmax (content_score query c) best
  | None =>
      question_vectors c = [] /\ fused_score query c = content_score query c
  end
  /\ forall position v,
       (fused_score query c <= fused_score query (add_question position v c))%Q.
Proof.
  split.
  - destruct (question_score query c) as [best|] eqn:E.
    + destruct (question_score_spec query c best E) as [H1 H2].
      split_and!; auto. unfold fused_score. rewrite E. reflexivity.
    + split; [apply (proj1 (question_score_none query c)), E|].
      unfold fused_score. rewrite E. reflexivity.
  - intros position v.
    assert (Hsome : exists best', question_score query (add_question position v c)
                                  = Some best').
    { destruct (question_score query (add_question position v c)) as [b|] eqn:E;
        [eauto|].
      apply question_score_none in E. simpl in E.
      destruct (take position (question_vectors c)); discriminate E. }
    destruct Hsome as (best' & E').
    destruct (question_score_spec _ _ _ E') as [_ Hupper].
    unfold fused_score at 2. rewrite E'.
    change (content_score query (add_question position v c))
      with (content_score query c).
    unfold fused_score. destruct (question_score query c) as [best|] eqn:E.
    + destruct (question_score_spec _ _ _ E) as [(v0 & Hv0 & ->) _].
      apply Q.max_lub.
      * apply Q.le_max_l.
      * eapply Qle_trans; [|apply Q.le_max_r].
        apply Hupper, add_question_vectors, Hv0.
    + apply Q.le_max_l.
Qed.

End Scores.

End Retrieval.
